(** * filesrv: an in-memory LRU file cache in front of an HTTP origin

    Shallow embedding of the Go package [filesrv] (cache, invalidator,
    origin client, serve layer) and of [server/acl.go] (admission), with
    the properties of the design document checked against it.

    Conventions.
    - Go [int] and [int64] are [Z] with the 64-bit wrap-around written out.
    - [map[string]T] is [gmap string T]; reading an absent key yields the
      zero value of [T], written out as [default zero (m !! k)].
    - [container/list] elements are pointers in Go; here every element
      carries the identity [eid] it was allocated with, and [Remove] and
      [MoveToFront] act on that identity.
    - A mutex-protected method is one atomic state transformer.
    - A Go panic is the third outcome [Panic] of a [result]. *)

From Stdlib Require Import ZArith List String Ascii Strings.Byte Lia.
From stdpp Require Import gmap strings list fin_maps.

Local Open Scope string_scope.
Local Open Scope Z_scope.

(** ** Machine integers *)

(** Two's-complement reduction of an unbounded integer to [int64]. *)
Definition wrap64 (z : Z) : Z := (z + 2 ^ 63) mod 2 ^ 64 - 2 ^ 63.

(** ** Errors and outcomes *)

Inductive error :=
| ErrMissingFile                 (* http.ErrMissingFile *)
| ErrTransport (msg : string)    (* *url.Error from http.Client *)
| ErrIO (msg : string)           (* body read error *)
| ErrAddr (msg : string)         (* *net.AddrError *)
| ErrNew (msg : string).         (* errors.New(msg) *)

Inductive result (A : Type) :=
| Ok (a : A)
| Err (e : error)
| Panic (msg : string).
Arguments Ok {A} a.
Arguments Err {A} e.
Arguments Panic {A} msg.

(** ** [bytes.Reader] (standard library), restricted to [io.ReadSeeker] *)

Module bytes.

Record Reader := { s : list byte; i : Z }.

Definition NewReader (b : list byte) : Reader := {| s := b; i := 0 |}.

Definition Len (r : Reader) : Z :=
  if Z.of_nat (List.length (s r)) <=? i r then 0
  else Z.of_nat (List.length (s r)) - i r.

(** [Read(b)] with [len(b) = n]: the bytes copied into [b], whether
    [io.EOF] was returned, and the reader afterwards. *)
Definition Read (n : nat) (r : Reader) : list byte * bool * Reader :=
  if Z.of_nat (List.length (s r)) <=? i r then ([], true, r)
  else
    let chunk := take n (drop (Z.to_nat (i r)) (s r)) in
    (chunk, false, {| s := s r; i := i r + Z.of_nat (length chunk) |}).

Inductive whence := SeekStart | SeekCurrent | SeekEnd.

Definition Seek (offset : Z) (w : whence) (r : Reader) : result Z * Reader :=
  let abs :=
    match w with
    | SeekStart => offset
    | SeekCurrent => wrap64 (i r + offset)
    | SeekEnd => wrap64 (Z.of_nat (List.length (s r)) + offset)
    end in
  if abs <? 0 then (Err (ErrNew "bytes.Reader.Seek: negative position"), r)
  else (Ok abs, {| s := s r; i := abs |}).

(** [io.Copy(dst, r)] / [ioutil.ReadAll(r)]: everything from the current
    offset to the end, leaving the reader at the end. *)
Definition ReadAll (r : Reader) : list byte * Reader :=
  if Z.of_nat (List.length (s r)) <=? i r then ([], r)
  else (drop (Z.to_nat (i r)) (s r),
        {| s := s r; i := Z.of_nat (List.length (s r)) |}).

End bytes.

(** ** Blob: [fileInfo] and [file] *)

(** [time.Time] as seconds since the zero time (January 1, year 1, UTC). *)
Definition Time := Z.

Record fileInfo := {
  basename : string;
  modtime : Time;
  fsize : Z;                     (* field [size int] *)
  contentType : string;
  etag : string
}.

(** The zero value [fileInfo{}]. *)
Definition zeroFileInfo : fileInfo :=
  {| basename := ""; modtime := 0; fsize := 0; contentType := ""; etag := "" |}.

Definition Name (f : fileInfo) : string := basename f.
Definition ModTime (f : fileInfo) : Time := modtime f.
Definition IsDir (f : fileInfo) : bool := false.
Definition Size (f : fileInfo) : Z := wrap64 (fsize f).

Record file := {
  ReadSeeker : bytes.Reader;
  fi : fileInfo;
  buf : option (list byte)       (* [None] is the nil slice *)
}.

Definition Stat (f : file) : result fileInfo := Ok (fi f).

(** [readClone]: a new handle with its own reader over the same bytes;
    the clone carries no [buf]. *)
Definition readClone (f : file) : result file :=
  match buf f with
  | None => Panic "copy a readClone"
  | Some b => Ok {| ReadSeeker := bytes.NewReader b; fi := fi f; buf := None |}
  end.

(** ** [container/list] (standard library) *)

Record centry := { cfile : file; name : string }.

Module container_list.

Record Element := { eid : nat; Value : centry }.

(** [elems] runs from front to back; [nextId] is the next identity. *)
Record List := { elems : list Element; nextId : nat }.

Definition New : List := {| elems := []; nextId := 0%nat |}.

Definition Len (l : List) : Z := Z.of_nat (List.length (elems l)).

Definition Back (l : List) : option Element := last (elems l).

Definition Front (l : List) : option Element := head (elems l).

Definition PushFront (v : centry) (l : List) : Element * List :=
  let e := {| eid := nextId l; Value := v |} in
  (e, {| elems := e :: elems l; nextId := S (nextId l) |}).

Definition same (e x : Element) : Prop := eid x = eid e.

#[global] Instance same_dec e x : Decision (same e x).
Proof. unfold same. apply _. Defined.

(** [Remove(e)]: unlinks [e] when it is an element of this list. *)
Definition Remove (e : Element) (l : List) : List :=
  {| elems := filter (λ x, ¬ same e x) (elems l); nextId := nextId l |}.

(** [MoveToFront(e)]: nothing when [e] is not an element of this list. *)
Definition MoveToFront (e : Element) (l : List) : List :=
  match list_find (same e) (elems l) with
  | None => l
  | Some (_, x) =>
      {| elems := x :: filter (λ y, ¬ same e y) (elems l); nextId := nextId l |}
  end.

End container_list.
Import container_list.

(** ** The invalidator's shared state *)

Record cacheInvalidator := {
  items : gmap string fileInfo;
  added : gmap string bool;
  removed : gmap string bool;
  lastmod : Z
}.

Definition newCacheInvalidator : cacheInvalidator :=
  {| items := ∅; added := ∅; removed := ∅; lastmod := 0 |}.

Definition ci_Add (ent : centry) (ci : cacheInvalidator) : cacheInvalidator :=
  {| items := <[name ent := fi (cfile ent)]> (items ci);
     added := <[name ent := true]> (added ci);
     removed := removed ci;
     lastmod := wrap64 (lastmod ci + 1) |}.

Definition ci_Del (ent : centry) (ci : cacheInvalidator) : cacheInvalidator :=
  {| items := delete (name ent) (items ci);
     added := added ci;
     removed := <[name ent := true]> (removed ci);
     lastmod := wrap64 (lastmod ci + 1) |}.

(** ** The cache *)

Record memoryCacheFilesystem := {
  evictList : List;
  cache : gmap string Element;
  maxSize : Z;
  size : Z;
  maxItems : Z;
  nitems : Z;                    (* field [items int], never written *)
  invalidator : cacheInvalidator
}.

Definition NewCache (maxItems maxSize : Z) : memoryCacheFilesystem :=
  {| evictList := New; cache := ∅; maxSize := wrap64 maxSize; size := 0;
     maxItems := maxItems; nitems := 0; invalidator := newCacheInvalidator |}.

Definition removeElement (ent : Element) (fs : memoryCacheFilesystem)
  : memoryCacheFilesystem :=
  let cent := Value ent in
  {| evictList := Remove ent (evictList fs);
     cache := delete (name cent) (cache fs);
     maxSize := maxSize fs;
     size := wrap64 (size fs - Size (fi (cfile cent)));
     maxItems := maxItems fs;
     nitems := nitems fs;
     invalidator := ci_Del cent (invalidator fs) |}.

Definition removeOldest (fs : memoryCacheFilesystem) : memoryCacheFilesystem :=
  match Back (evictList fs) with
  | Some ent => removeElement ent fs
  | None => fs
  end.

Definition get (nm : string) (fs : memoryCacheFilesystem)
  : option (result file) * memoryCacheFilesystem :=
  match cache fs !! nm with
  | None => (None, fs)
  | Some ent =>
      let fs' :=
        {| evictList := MoveToFront ent (evictList fs);
           cache := cache fs; maxSize := maxSize fs; size := size fs;
           maxItems := maxItems fs; nitems := nitems fs;
           invalidator := invalidator fs |} in
      (Some (readClone (cfile (Value ent))), fs')
  end.

Definition add (nm : string) (f : file) (fs : memoryCacheFilesystem)
  : result file * memoryCacheFilesystem :=
  let fs1 :=
    match cache fs !! nm with
    | Some v => removeElement v fs
    | None => fs
    end in
  let ent := {| cfile := f; name := nm |} in
  let '(el, l2) := PushFront ent (evictList fs1) in
  let fs2 :=
    {| evictList := l2;
       cache := <[nm := el]> (cache fs1);
       maxSize := maxSize fs1;
       size := wrap64 (size fs1 + Size (fi f));
       maxItems := maxItems fs1;
       nitems := nitems fs1;
       invalidator := invalidator fs1 |} in
  let fs3 :=
    if maxItems fs2 <? Len (evictList fs2) then removeOldest fs2 else fs2 in
  let fs4 :=
    {| evictList := evictList fs3; cache := cache fs3; maxSize := maxSize fs3;
       size := size fs3; maxItems := maxItems fs3; nitems := nitems fs3;
       invalidator := ci_Add ent (invalidator fs3) |} in
  (readClone f, fs4).

Definition del (nm : string) (fs : memoryCacheFilesystem)
  : bool * memoryCacheFilesystem :=
  match cache fs !! nm with
  | Some ent => (true, removeElement ent fs)
  | None => (false, fs)
  end.

(** [http.FileSystem]: an origin with state [Org]. *)
Class FileSystem (Org : Type) := {
  fsOpen : string → Org → result file * Org
}.

(** [memoryCacheFilesystem.Open] over the origin held in field [fs]. *)
Definition Open {Org : Type} `{!FileSystem Org} (nm : string)
    (st : memoryCacheFilesystem * Org)
  : result file * (memoryCacheFilesystem * Org) :=
  let '(fs, o) := st in
  match get nm fs with
  | (Some r, fs') => (r, (fs', o))
  | (None, _) =>
      match fsOpen nm o with
      | (Ok f, o') => let '(rv, fs') := add nm f fs in (rv, (fs', o'))
      | (Err e, o') => (Err e, (fs, o'))
      | (Panic m, o') => (Panic m, (fs, o'))
      end
  end.

(** ** The test double [fakeFs] (cache_test.go) *)

Record fakeFs := {
  files : gmap string file;
  filesStat : gmap string Z;
  openCnt : Z
}.

Definition newFakeFs : fakeFs := {| files := ∅; filesStat := ∅; openCnt := 0 |}.

Definition fakeFs_Open (nm : string) (fs : fakeFs) : result file * fakeFs :=
  let cnt := wrap64 (openCnt fs + 1) in
  match files fs !! nm with
  | None =>
      (Err (ErrNew "not exist"),
       {| files := files fs; filesStat := filesStat fs; openCnt := cnt |})
  | Some f =>
      (Ok f,
       {| files := files fs;
          filesStat :=
            <[nm := wrap64 (default 0 (filesStat fs !! nm) + 1)]> (filesStat fs);
          openCnt := cnt |})
  end.

#[global] Instance fakeFs_FileSystem : FileSystem fakeFs :=
  {| fsOpen := fakeFs_Open |}.

(** [time.Date(2015, 9, 1, 15, 3, 1, 0, time.UTC)]. *)
Definition testModtime : Time := 63576716581.

Definition newFile (content : string) : file :=
  let b := list_byte_of_string content in
  let rd := bytes.NewReader b in
  {| ReadSeeker := rd;
     buf := Some b;
     fi := {| fsize := bytes.Len rd; modtime := testModtime; basename := content;
              contentType := "application/text"; etag := "tag" |} |}.

(** [fs.files[k] = f] between two calls of a test. *)
Definition fakeFs_put (k : string) (f : file) (fs : fakeFs) : fakeFs :=
  {| files := <[k := f]> (files fs); filesStat := filesStat fs;
     openCnt := openCnt fs |}.

(** ** [net/http] headers, requests and responses (standard library) *)

Module http.

Abbreviation Header := (gmap string (list string)).

Definition isUpper (c : ascii) : bool :=
  let n := nat_of_ascii c in ((65 <=? n) && (n <=? 90))%nat.
Definition isLower (c : ascii) : bool :=
  let n := nat_of_ascii c in ((97 <=? n) && (n <=? 122))%nat.
Definition isDigit (c : ascii) : bool :=
  let n := nat_of_ascii c in ((48 <=? n) && (n <=? 57))%nat.

(** [validHeaderFieldByte]: the token characters of RFC 7230. *)
Definition validHeaderFieldByte (c : ascii) : bool :=
  isUpper c || isLower c || isDigit c
  || existsb (Ascii.eqb c) (list_ascii_of_string "!#$%&'*+-.^_`|~").

Definition toUpper (c : ascii) : ascii :=
  if isLower c then ascii_of_nat (nat_of_ascii c - 32) else c.
Definition toLower (c : ascii) : ascii :=
  if isUpper c then ascii_of_nat (nat_of_ascii c + 32) else c.

Fixpoint canon (upper : bool) (k : string) : string :=
  match k with
  | EmptyString => EmptyString
  | String c k' =>
      let c' := if upper then toUpper c else toLower c in
      String c' (canon (Ascii.eqb c' "-") k')
  end.

(** [textproto.CanonicalMIMEHeaderKey]: a key with a byte outside the
    token characters is returned unchanged. *)
Definition CanonicalHeaderKey (k : string) : string :=
  if forallb validHeaderFieldByte (list_ascii_of_string k)
  then canon true k else k.

Definition Get (h : Header) (key : string) : string :=
  match h !! CanonicalHeaderKey key with
  | Some (v :: _) => v
  | _ => ""
  end.

Definition Set_ (h : Header) (key value : string) : Header :=
  <[CanonicalHeaderKey key := [value]]> h.

Definition Add (h : Header) (key value : string) : Header :=
  let k := CanonicalHeaderKey key in
  <[k := (default [] (h !! k) ++ [value])%list]> h.

Record Request := {
  Method : string;
  URL : string;
  ReqHeader : Header;
  RawQuery : string;
  RemoteAddr : string
}.

(** A response whose body ends in a read error carries [BodyErr]. *)
Record Response := {
  StatusCode : Z;
  ContentLength : Z;
  RespHeader : Header;
  Body : list byte;
  BodyErr : option string
}.

Definition StatusOK : Z := 200.
Definition StatusNotModified : Z := 304.
Definition StatusNotFound : Z := 404.
Definition StatusRequestTimeout : Z := 408.
Definition StatusInternalServerError : Z := 500.

End http.

(** Pure helpers of the standard library that the package calls and whose
    definition plays no part below. *)
Class GoLib := {
  (* http.NewRequest accepts the URL *)
  urlParses : string → bool;
  (* t.UTC().Format(http.TimeFormat) *)
  FormatHTTP : Time → string;
  (* time.Parse(http.TimeFormat, s) *)
  ParseHTTP : string → option Time;
  (* mime.TypeByExtension(filepath.Ext(name)) *)
  TypeByExtension : string → string;
  (* http.DetectContentType *)
  DetectContentType : list byte → string;
  (* net.SplitHostPort *)
  SplitHostPort : string → (string * string) + string
}.

(** The outside world: [http.DefaultClient] and the wall clock. *)
Class World (W : Type) := {
  RoundTrip : http.Request → W → (http.Response + string) * W;
  Now : W → Time
}.

Definition NewRequest `{GoLib} (method url : string) : http.Request + error :=
  if urlParses url
  then inl {| http.Method := method; http.URL := url; http.ReqHeader := ∅;
              http.RawQuery := ""; http.RemoteAddr := "" |}
  else inr (ErrTransport "parse").

Definition withHeader (r : http.Request) (h : http.Header) : http.Request :=
  {| http.Method := http.Method r; http.URL := http.URL r; http.ReqHeader := h;
     http.RawQuery := http.RawQuery r; http.RemoteAddr := http.RemoteAddr r |}.

(** [http.DefaultClient.Do]. *)
Definition Do `{World W} (req : http.Request) (w : W)
  : (http.Response + error) * W :=
  match RoundTrip req w with
  | (inl res, w') => (inl res, w')
  | (inr msg, w') => (inr (ErrTransport msg), w')
  end.

(** [http.DefaultClient.Get]. *)
Definition Get `{GoLib} `{World W} (url : string) (w : W)
  : (http.Response + error) * W :=
  match NewRequest "GET" url with
  | inl req => Do req w
  | inr e => (inr e, w)
  end.

(** ** The invalidator's background task *)

(** What one call of [check] put on the wire. *)
Inductive probe :=
| NotSent (e : error)
| Sent (req : http.Request) (reply : Z + error).

Definition condHEAD `{GoLib} (fi : fileInfo) (req : http.Request) : http.Request :=
  withHeader req
    (http.Add
       (http.Add (http.ReqHeader req) "If-Modified-Since" (FormatHTTP (modtime fi)))
       "If-None-Match" (etag fi)).

(** [check]: the pair [(uptodate, err)], the probe, and the world after. *)
Definition check `{GoLib} `{World W} (fi : fileInfo) (w : W)
  : bool * option error * probe * W :=
  match NewRequest "HEAD" (Name fi) with
  | inr e => (false, Some e, NotSent e, w)
  | inl req0 =>
      let req := condHEAD fi req0 in
      match Do req w with
      | (inr e, w') => (false, Some e, Sent req (inr e), w')
      | (inl res, w') =>
          let code := http.StatusCode res in
          let p := Sent req (inl code) in
          if code =? http.StatusNotModified then (true, None, p, w')
          else if (code =? 429) || (code =? http.StatusRequestTimeout)
               then (false, Some (ErrNew "retry"), p, w')
               else (false, None, p, w')
      end
  end.

(** The variables [items] and [lastmod] local to [run]. *)
Record runLocal := { l_items : gmap string fileInfo; l_lastmod : Z }.

Definition runInit : runLocal := {| l_items := ∅; l_lastmod := 0 |}.

(** [for k := range ci.removed { delete(items, k); delete(ci.removed, k) }]
    with the keys visited in the order [ks]. *)
Definition foldRemoved (ks : list string)
    (st : gmap string fileInfo * gmap string bool)
  : gmap string fileInfo * gmap string bool :=
  foldl (λ '(its, rem) k, (delete k its, delete k rem)) st ks.

(** [for k := range ci.added { items[k] = ci.items[k]; delete(ci.added, k) }]
    with the keys visited in the order [ks]. *)
Definition foldAdded (shared : gmap string fileInfo) (ks : list string)
    (st : gmap string fileInfo * gmap string bool)
  : gmap string fileInfo * gmap string bool :=
  foldl (λ '(its, ad) k,
           (<[k := default zeroFileInfo (shared !! k)]> its, delete k ad))
        st ks.

Definition keys {A} (m : gmap string A) : list string := (map_to_list m).*1.

(** The critical section of [run]. *)
Definition foldDeltas (loc : runLocal) (ci : cacheInvalidator)
  : runLocal * cacheInvalidator :=
  if decide (lastmod ci ≠ l_lastmod loc) then
    let '(its1, rem) := foldRemoved (keys (removed ci)) (l_items loc, removed ci) in
    let '(its2, ad) := foldAdded (items ci) (keys (added ci)) (its1, added ci) in
    ({| l_items := its2; l_lastmod := lastmod ci |},
     {| items := items ci; added := ad; removed := rem; lastmod := lastmod ci |})
  else (loc, ci).

(** [for name, fi := range items { ... }] over the snapshot enumerated as
    [l], with [delfn] acting on a state [S]. *)
Fixpoint sweep `{GoLib} `{World W} {S : Type} (delfn : string → S → S)
    (l : list (string * fileInfo)) (st : S) (w : W) (invalidCnt : Z)
  : S * W * Z * list (string * probe) :=
  match l with
  | [] => (st, w, invalidCnt, [])
  | (nm, fi) :: l' =>
      let '(uptodate, err, p, w1) := check fi w in
      let '(st1, cnt1) :=
        match err with
        | Some _ => (st, invalidCnt)
        | None =>
            if negb uptodate then (delfn nm st, wrap64 (invalidCnt + 1))
            else (st, invalidCnt)
        end in
      let '(st2, w2, cnt2, tr) := sweep delfn l' st1 w1 cnt1 in
      (st2, w2, cnt2, (nm, p) :: tr)
  end.

Definition setInvalidator (ci : cacheInvalidator) (fs : memoryCacheFilesystem)
  : memoryCacheFilesystem :=
  {| evictList := evictList fs; cache := cache fs; maxSize := maxSize fs;
     size := size fs; maxItems := maxItems fs; nitems := nitems fs;
     invalidator := ci |}.

(** The callback installed by [NewCache]. *)
Definition delfn (nm : string) (fs : memoryCacheFilesystem) : memoryCacheFilesystem :=
  (del nm fs).2.

(** One wake-up of [run]: fold the deltas, then sweep the snapshot.  Go
    leaves the order of [range items] open; [l] is the order taken. *)
Definition pass `{GoLib} `{World W} (l : list (string * fileInfo))
    (st : runLocal * memoryCacheFilesystem * W)
  : runLocal * memoryCacheFilesystem * W * list (string * probe) :=
  let '(loc, fs, w) := st in
  let '(loc1, ci1) := foldDeltas loc (invalidator fs) in
  let fs1 := setInvalidator ci1 fs in
  let '(fs2, w2, _, tr) := sweep delfn l fs1 w 0 in
  (loc1, fs2, w2, tr).

(** The wake-up with the snapshot enumerated as [map_to_list] does. *)
Definition tick `{GoLib} `{World W}
    (st : runLocal * memoryCacheFilesystem * W)
  : runLocal * memoryCacheFilesystem * W * list (string * probe) :=
  pass (map_to_list (l_items (foldDeltas st.1.1 (invalidator st.1.2)).1)) st.

(** ** [crypto/md5], [encoding/hex], [strings.Trim] (standard library) *)

Module md5.

Definition w32 (z : Z) : Z := z mod 2 ^ 32.

Definition rotl (x c : Z) : Z :=
  w32 (Z.lor (Z.shiftl x c) (Z.shiftr x (32 - c))).

Definition not32 (x : Z) : Z := Z.lxor x 0xffffffff.

(** [K i = floor (2^32 * |sin (i + 1)|)]. *)
Definition K : list Z :=
  [ 0xd76aa478; 0xe8c7b756; 0x242070db; 0xc1bdceee;
    0xf57c0faf; 0x4787c62a; 0xa8304613; 0xfd469501;
    0x698098d8; 0x8b44f7af; 0xffff5bb1; 0x895cd7be;
    0x6b901122; 0xfd987193; 0xa679438e; 0x49b40821;
    0xf61e2562; 0xc040b340; 0x265e5a51; 0xe9b6c7aa;
    0xd62f105d; 0x02441453; 0xd8a1e681; 0xe7d3fbc8;
    0x21e1cde6; 0xc33707d6; 0xf4d50d87; 0x455a14ed;
    0xa9e3e905; 0xfcefa3f8; 0x676f02d9; 0x8d2a4c8a;
    0xfffa3942; 0x8771f681; 0x6d9d6122; 0xfde5380c;
    0xa4beea44; 0x4bdecfa9; 0xf6bb4b60; 0xbebfbc70;
    0x289b7ec6; 0xeaa127fa; 0xd4ef3085; 0x04881d05;
    0xd9d4d039; 0xe6db99e5; 0x1fa27cf8; 0xc4ac5665;
    0xf4292244; 0x432aff97; 0xab9423a7; 0xfc93a039;
    0x655b59c3; 0x8f0ccc92; 0xffeff47d; 0x85845dd1;
    0x6fa87e4f; 0xfe2ce6e0; 0xa3014314; 0x4e0811a1;
    0xf7537e82; 0xbd3af235; 0x2ad7d2bb; 0xeb86d391 ].

Definition shifts : list Z :=
  [ 7; 12; 17; 22; 7; 12; 17; 22; 7; 12; 17; 22; 7; 12; 17; 22;
    5; 9; 14; 20; 5; 9; 14; 20; 5; 9; 14; 20; 5; 9; 14; 20;
    4; 11; 16; 23; 4; 11; 16; 23; 4; 11; 16; 23; 4; 11; 16; 23;
    6; 10; 15; 21; 6; 10; 15; 21; 6; 10; 15; 21; 6; 10; 15; 21 ].

Definition byteZ (b : byte) : Z := Z.of_N (Byte.to_N b).
Definition Zbyte (z : Z) : byte := default x00 (Byte.of_N (Z.to_N (z mod 256))).

(** Little-endian bytes of an [n]-byte integer. *)
Fixpoint le_bytes (n : nat) (z : Z) : list Z :=
  match n with
  | O => []
  | S n' => z mod 256 :: le_bytes n' (z / 256)
  end.

Definition pad (msg : list byte) : list Z :=
  let n := Z.of_nat (List.length msg) in
  ((byteZ <$> msg) ++ [0x80]
    ++ replicate (Z.to_nat ((55 - n) mod 64)) 0
    ++ le_bytes 8 ((n * 8) mod 2 ^ 64))%list.

Fixpoint words (fuel : nat) (bs : list Z) : list Z :=
  match fuel, bs with
  | S fuel', b0 :: b1 :: b2 :: b3 :: rest =>
      (b0 + 256 * b1 + 65536 * b2 + 16777216 * b3) :: words fuel' rest
  | _, _ => []
  end.

Definition nth_word (l : list Z) (k : Z) : Z := default 0 (l !! Z.to_nat k).

Definition step (M : list Z) (st : Z * Z * Z * Z) (k : nat) : Z * Z * Z * Z :=
  let '(A, B, C, D) := st in
  let j := Z.of_nat k in
  let '(F, g) :=
    if j <? 16 then (Z.lor (Z.land B C) (Z.land (not32 B) D), j)
    else if j <? 32 then (Z.lor (Z.land D B) (Z.land (not32 D) C), (5 * j + 1) mod 16)
    else if j <? 48 then (Z.lxor (Z.lxor B C) D, (3 * j + 5) mod 16)
    else (Z.lxor C (Z.lor B (not32 D)), (7 * j) mod 16) in
  let F' := w32 (F + A + nth_word K j + nth_word M g) in
  (D, w32 (B + rotl F' (nth_word shifts j)), B, C).

Definition block (h : Z * Z * Z * Z) (M : list Z) : Z * Z * Z * Z :=
  let '(a0, b0, c0, d0) := h in
  let '(A, B, C, D) := foldl (step M) h (seq 0 64) in
  (w32 (a0 + A), w32 (b0 + B), w32 (c0 + C), w32 (d0 + D)).

Fixpoint blocks (fuel : nat) (h : Z * Z * Z * Z) (ws : list Z) : Z * Z * Z * Z :=
  match fuel, ws with
  | S fuel', _ :: _ => blocks fuel' (block h (take 16 ws)) (drop 16 ws)
  | _, _ => h
  end.

Definition init : Z * Z * Z * Z :=
  (0x67452301, 0xefcdab89, 0x98badcfe, 0x10325476).

(** [md5.Sum(msg)]: the 16 bytes of the digest. *)
Definition Sum (msg : list byte) : list byte :=
  let bs := pad msg in
  let ws := words (List.length bs) bs in
  let '(a, b, c, d) := blocks (List.length ws) init ws in
  Zbyte <$> (le_bytes 4 a ++ le_bytes 4 b ++ le_bytes 4 c ++ le_bytes 4 d)%list.

End md5.

Module hex.

Definition hextable : list ascii := list_ascii_of_string "0123456789abcdef".

Definition digit (n : N) : ascii := nth (N.to_nat n) hextable "0"%char.

Fixpoint EncodeToString (src : list byte) : string :=
  match src with
  | [] => EmptyString
  | b :: rest =>
      let v := Byte.to_N b in
      String (digit (N.shiftr v 4)) (String (digit (N.land v 15)) (EncodeToString rest))
  end.

End hex.

Module gostrings.

Definition inCutset (cutset : string) (c : ascii) : bool :=
  existsb (Ascii.eqb c) (list_ascii_of_string cutset).

Fixpoint TrimLeft (s cutset : string) : string :=
  match s with
  | String c s' => if inCutset cutset c then TrimLeft s' cutset else s
  | EmptyString => EmptyString
  end.

Fixpoint TrimRight (s cutset : string) : string :=
  match s with
  | EmptyString => EmptyString
  | String c s' =>
      match TrimRight s' cutset with
      | EmptyString => if inCutset cutset c then EmptyString else String c EmptyString
      | t => String c t
      end
  end.

Definition Trim (s cutset : string) : string :=
  TrimRight (TrimLeft s cutset) cutset.

End gostrings.

(** The one-character string holding a double quote. *)
Definition dquote : string := String (ascii_of_nat 34) EmptyString.

(** ** The origin client (remote.go) *)

(** [io.ReadFull(rd, buf[:n])] on a [bytes.Reader]. *)
Definition ReadFull (n : nat) (rd : bytes.Reader) : list byte * bytes.Reader :=
  let '(chunk, _, rd') := bytes.Read n rd in (chunk, rd').

Definition sniffLen : nat := 512.

Definition getContentType `{GoLib} (r : http.Response) (rd : bytes.Reader)
    (nm : string) : (string + error) * bytes.Reader :=
  match http.RespHeader r !! "Content-Type" with
  | None =>
      let ctype := TypeByExtension nm in
      if decide (ctype = "") then
        let '(chunk, rd1) := ReadFull sniffLen rd in
        let ctype := DetectContentType chunk in
        match bytes.Seek 0 bytes.SeekStart rd1 with
        | (Ok _, rd2) => (inl ctype, rd2)
        | (Err e, rd2) => (inr e, rd2)
        | (Panic _, rd2) => (inl ctype, rd2)
        end
      else (inl ctype, rd)
  | Some ctypes =>
      match ctypes with
      | c :: _ => (inl c, rd)
      | [] => (inl "", rd)
      end
  end.

Definition getModtime `{GoLib} `{World W} (r : http.Response) (w : W) : Time :=
  match ParseHTTP (http.Get (http.RespHeader r) "Last-Modified") with
  | None => Now w
  | Some t => t
  end.

Definition getETag (r : http.Response) (rd : bytes.Reader) : string * bytes.Reader :=
  let etag := http.Get (http.RespHeader r) "Etag" in
  let etag := gostrings.Trim etag dquote in
  if decide (etag = "") then
    let '(data, rd') := bytes.ReadAll rd in
    (hex.EncodeToString (md5.Sum data), rd')
  else (etag, rd).

Record remoteFileSystem := { origin : string }.

Definition remote_Open `{GoLib} `{World W} (fs : remoteFileSystem) (nm : string)
    (w : W) : result file * W :=
  let path := origin fs ++ nm in
  match Get path w with
  | (inr e, w') => (Err e, w')
  | (inl res, w') =>
      if negb (http.StatusCode res =? http.StatusOK) || (http.ContentLength res <=? 0)
      then (Err ErrMissingFile, w')
      else
        match http.BodyErr res with
        | Some m => (Err (ErrIO m), w')
        | None =>
            let b := http.Body res in
            let rd := bytes.NewReader b in
            match getContentType res rd nm with
            | (inr e, _) => (Err e, w')
            | (inl ctype, rd1) =>
                let '(tag, rd2) := getETag res rd1 in
                let mt := getModtime res w' in
                (Ok {| ReadSeeker := rd2;
                       buf := Some b;
                       fi := {| fsize := bytes.Len rd2; modtime := mt;
                                basename := path; contentType := ctype;
                                etag := tag |} |},
                 w')
            end
        end
  end.

(** [New(origin)] as an [http.FileSystem]. *)
#[global] Instance remote_FileSystem `{GoLib} `{World W}
  : FileSystem (remoteFileSystem * W) :=
  {| fsOpen nm st :=
       let '(r, w') := remote_Open st.1 nm st.2 in (r, (st.1, w')) |}.

(** [NewCache(fs, ...)] as an [http.FileSystem]. *)
#[global] Instance cache_FileSystem {Org : Type} `{!FileSystem Org}
  : FileSystem (memoryCacheFilesystem * Org) :=
  {| fsOpen := Open |}.

(** ** The serve layer (serve.go) *)

Record ResponseWriter := {
  wHeader : http.Header;
  wStatus : option Z;
  wBody : string
}.

Definition newResponseWriter : ResponseWriter :=
  {| wHeader := ∅; wStatus := None; wBody := "" |}.

Definition setHeader (w : ResponseWriter) (key value : string) : ResponseWriter :=
  {| wHeader := http.Set_ (wHeader w) key value; wStatus := wStatus w;
     wBody := wBody w |}.

(** [http.Error(w, msg, code)]. *)
Definition http_Error (w : ResponseWriter) (msg : string) (code : Z) : ResponseWriter :=
  let w1 := setHeader w "Content-Type" "text/plain; charset=utf-8" in
  let w2 := setHeader w1 "X-Content-Type-Options" "nosniff" in
  {| wHeader := wHeader w2; wStatus := Some code;
     wBody := wBody w ++ msg ++ String (ascii_of_nat 10) EmptyString |}.

(** [http.NotFound(w, r)]. *)
Definition http_NotFound (w : ResponseWriter) : ResponseWriter :=
  http_Error w "404 page not found" http.StatusNotFound.

(** How [serveFile] ends: with the reply written, with the call of
    [http.ServeContent] it delegates to, or in a panic. *)
Inductive served :=
| Replied (w : ResponseWriter)
| ServeContent (w : ResponseWriter) (nm : string) (mt : Time) (content : file)
| Panicked (msg : string).

Definition serveFile {T : Type} `{!FileSystem T} (w : ResponseWriter)
    (r : http.Request) (nm : string) (st : T) : served * T :=
  match fsOpen nm st with
  | (Err _, st') => (Replied (http_NotFound w), st')
  | (Panic m, st') => (Panicked m, st')
  | (Ok f, st') =>
      match Stat f with
      | Ok d =>
          let w1 :=
            match wHeader w !! "Content-Type" with
            | None =>
                if decide (contentType (fi f) ≠ "")
                then setHeader w "Content-Type" (contentType (fi f)) else w
            | Some _ => w
            end in
          let w2 :=
            match wHeader w1 !! "ETag" with
            | None =>
                if decide (etag (fi f) ≠ "")
                then setHeader w1 "ETag" (etag (fi f)) else w1
            | Some _ => w1
            end in
          (ServeContent w2 (Name d) (ModTime d) f, st')
      | _ => (Replied (http_NotFound w), st')
      end
  end.

(** ** Admission (server/acl.go) *)

(** [Ratelimiter.Take] over the bucket store [L]. *)
Class Limiter (L : Type) := {
  Take : string → L → bool * L
}.

Definition clientAddr `{GoLib} (r : http.Request) : string * option error :=
  let addr := http.Get (http.ReqHeader r) "X-Forwarded-For" in
  if decide (addr ≠ "") then (addr, None)
  else
    match SplitHostPort (http.RemoteAddr r) with
    | inl (host, _) => (host, None)
    | inr msg => ("", Some (ErrAddr msg))
    end.

(** [http.Handler] over a state [St]. *)
Definition Handler (St : Type) : Type :=
  ResponseWriter → http.Request → St → ResponseWriter * St.

Definition ratelimitHandler `{GoLib} {L St : Type} `{!Limiter L}
    (h : Handler St) : Handler (L * St) :=
  λ w r st,
    let '(l, s0) := st in
    match clientAddr r with
    | (_, Some _) =>
        (http_Error w "Internal Server Error" http.StatusInternalServerError, (l, s0))
    | (host, None) =>
        let '(ok, l') := Take host l in
        if negb ok then (http_Error w "Too many requests" 429, (l', s0))
        else let '(w', s1) := h w r s0 in (w', (l', s1))
    end.

(** ** Reader handles in a store

    In Go the two readers made by two calls of [readClone] are distinct
    heap cells whose slices alias the backing array of [f.buf].  The store
    below keeps the arrays and the reader cells apart, so that sharing and
    independence can be stated. *)

Module store.

(** A reader cell: the address of the array its slice [s] points into,
    and its offset [i]. *)
Record cell := { arr : nat; off : Z }.

Record heap := {
  arrays : gmap nat (list byte);
  cells : gmap nat cell
}.

(** A [*file] in the store. *)
Record handle := {
  hReader : nat;
  hfi : fileInfo;
  hbuf : option nat
}.

(** The [bytes.Reader] value a cell denotes. *)
Definition view (h : heap) (c : nat) : option bytes.Reader :=
  match cells h !! c with
  | Some k =>
      match arrays h !! arr k with
      | Some bs => Some {| bytes.s := bs; bytes.i := off k |}
      | None => None
      end
  | None => None
  end.

(** [bytes.NewReader(b)] for the slice [b] over the array at [a]. *)
Definition NewReader (a : nat) (h : heap) : nat * heap :=
  let c := fresh (dom (cells h) : gset nat) in
  (c, {| arrays := arrays h; cells := <[c := {| arr := a; off := 0 |}]> (cells h) |}).

Definition readClone (f : handle) (h : heap) : result handle * heap :=
  match hbuf f with
  | None => (Panic "copy a readClone", h)
  | Some a =>
      let '(c, h') := NewReader a h in
      (Ok {| hReader := c; hfi := hfi f; hbuf := None |}, h')
  end.

Inductive op :=
| OpRead (n : nat)
| OpSeek (offset : Z) (w : bytes.whence).

Inductive out :=
| DidRead (bs : list byte) (eof : bool)
| DidSeek (r : result Z).

(** One method call on a reader value. *)
Definition apply (o : op) (r : bytes.Reader) : out * bytes.Reader :=
  match o with
  | OpRead n => let '(bs, eof, r') := bytes.Read n r in (DidRead bs eof, r')
  | OpSeek offset w => let '(res, r') := bytes.Seek offset w r in (DidSeek res, r')
  end.

(** The same call through a cell of the store; only the cell of [c] is
    written. *)
Definition exec (c : nat) (o : op) (h : heap) : option out * heap :=
  match cells h !! c with
  | Some k =>
      match arrays h !! arr k with
      | Some bs =>
          let '(res, r') := apply o {| bytes.s := bs; bytes.i := off k |} in
          (Some res,
           {| arrays := arrays h;
              cells := <[c := {| arr := arr k; off := bytes.i r' |}]> (cells h) |})
      | None => (None, h)
      end
  | None => (None, h)
  end.

(** A sequence of calls on one reader value. *)
Fixpoint runReader (os : list op) (r : bytes.Reader) : list out * bytes.Reader :=
  match os with
  | [] => ([], r)
  | o :: os' =>
      let '(res, r1) := apply o r in
      let '(rs, r2) := runReader os' r1 in
      (res :: rs, r2)
  end.

(** A sequence of calls on one cell. *)
Fixpoint runCell (c : nat) (os : list op) (h : heap) : list (option out) * heap :=
  match os with
  | [] => ([], h)
  | o :: os' =>
      let '(res, h1) := exec c o h in
      let '(rs, h2) := runCell c os' h1 in
      (res :: rs, h2)
  end.

(** An interleaving of calls on two cells: [true] tags the first. *)
Fixpoint runSched (c1 c2 : nat) (sched : list (bool * op)) (h : heap)
  : list (bool * option out) * heap :=
  match sched with
  | [] => ([], h)
  | (side, o) :: sched' =>
      let '(res, h1) := exec (if side then c1 else c2) o h in
      let '(rs, h2) := runSched c1 c2 sched' h1 in
      ((side, res) :: rs, h2)
  end.

(** The calls, or the results, of one side of an interleaving. *)
Definition side {A} (b : bool) (l : list (bool * A)) : list A :=
  (filter (λ p, p.1 = b) l).*2.

End store.

(** ** Stand-ins used to run the model on concrete inputs *)

(** [net.SplitHostPort] for addresses of the form [host:port] without
    brackets: the text before and after the last colon. *)
Fixpoint splitLastColon (s : string) : option (string * string) :=
  match s with
  | EmptyString => None
  | String c s' =>
      match splitLastColon s' with
      | Some (h, p) => Some (String c h, p)
      | None => if Ascii.eqb c ":" then Some (EmptyString, s') else None
      end
  end.

Definition exampleLib : GoLib :=
  {| urlParses := λ _, true;
     FormatHTTP := λ t, if t =? testModtime then "Tue, 01 Sep 2015 15:03:01 GMT" else "";
     ParseHTTP := λ s, if decide (s = "Tue, 01 Sep 2015 15:03:01 GMT")
                       then Some testModtime else None;
     TypeByExtension := λ _, "";
     DetectContentType := λ _, "text/plain; charset=utf-8";
     SplitHostPort := λ s, match splitLastColon s with
                           | Some hp => inl hp
                           | None => inr "missing port in address"
                           end |}.

(** What [url.Parse] rejects first in a path: a percent sign that is not
    followed by two hexadecimal digits. *)
Definition isHex (c : ascii) : bool :=
  let n := nat_of_ascii c in
  (((48 <=? n) && (n <=? 57)) || ((97 <=? n) && (n <=? 102))
   || ((65 <=? n) && (n <=? 70)))%nat.

Fixpoint validEscapes (s : string) : bool :=
  match s with
  | EmptyString => true
  | String c s' =>
      if Ascii.eqb c "%" then
        match s' with
        | String a (String b s'') => isHex a && isHex b && validEscapes s''
        | _ => false
        end
      else validEscapes s'
  end.

(** [exampleLib] with a [http.NewRequest] that rejects such URLs. *)
Definition escapeLib : GoLib :=
  {| urlParses := validEscapes;
     FormatHTTP := @FormatHTTP exampleLib;
     ParseHTTP := @ParseHTTP exampleLib;
     TypeByExtension := @TypeByExtension exampleLib;
     DetectContentType := @DetectContentType exampleLib;
     SplitHostPort := @SplitHostPort exampleLib |}.

(** An origin that answers every request from a table keyed by method and
    URL, and counts the requests it has seen. *)
Record tableWorld := {
  table : list (string * string * http.Response);
  seen : list http.Request;
  clock : Time
}.

Definition tableLookup (m u : string) (t : list (string * string * http.Response))
  : option http.Response :=
  (λ p, p.2) <$> List.find (λ p, String.eqb p.1.1 m && String.eqb p.1.2 u) t.

Definition tableWorld_World : World tableWorld :=
  {| RoundTrip req w :=
       let w' := {| table := table w; seen := (seen w ++ [req])%list; clock := clock w |} in
       match tableLookup (http.Method req) (http.URL req) (table w) with
       | Some res => (inl res, w')
       | None => (inr "connection refused", w')
       end;
     Now := clock |}.

Definition reply (code len : Z) (h : http.Header) (b : string) : http.Response :=
  {| http.StatusCode := code; http.ContentLength := len; http.RespHeader := h;
     http.Body := list_byte_of_string b; http.BodyErr := None |}.

(** A limiter that grants the first [n] requests of all clients together. *)
Definition countdown_Limiter : Limiter nat :=
  {| Take _ n := match n with O => (false, O) | S n' => (true, n') end |}.

(** ** Executions and invariants *)

(** What can happen to a cache between two observations: a whole [Open],
    the insert of a request whose lookup missed earlier, or a call of the
    invalidator's callback. *)
Inductive event :=
| EOpen (nm : string)
| EAdd (nm : string) (f : file)
| EEvict (nm : string).

Definition runEvent {Org : Type} `{!FileSystem Org} (st : memoryCacheFilesystem * Org)
    (ev : event) : memoryCacheFilesystem * Org :=
  match ev with
  | EOpen nm => (Open nm st).2
  | EAdd nm f => ((add nm f st.1).2, st.2)
  | EEvict nm => (delfn nm st.1, st.2)
  end.

Definition runEvents {Org : Type} `{!FileSystem Org} (evs : list event)
    (st : memoryCacheFilesystem * Org) : memoryCacheFilesystem * Org :=
  foldl runEvent st evs.

(** Sum of the sizes of the files held by the elements of a list. *)
Definition total (l : list Element) : Z :=
  foldr (λ e acc, Size (fi (cfile (Value e))) + acc) 0 l.

(** Map and ordering list describe the same entries. *)
Record cache_inv (fs : memoryCacheFilesystem) : Prop := {
  inv_map_list :
    ∀ k e, cache fs !! k = Some e →
           e ∈ elems (evictList fs) ∧ name (Value e) = k;
  inv_list_map :
    ∀ e, e ∈ elems (evictList fs) → cache fs !! name (Value e) = Some e;
  inv_nodup : NoDup (eid <$> elems (evictList fs));
  inv_fresh :
    ∀ e, e ∈ elems (evictList fs) → (eid e < nextId (evictList fs))%nat
}.

Definition size_ok (fs : memoryCacheFilesystem) : Prop :=
  size fs = wrap64 (total (elems (evictList fs))).

(** The element [add] allocates for an entry. *)
Definition newElement (nm : string) (f : file) (fs : memoryCacheFilesystem) : Element :=
  {| eid := nextId (evictList fs); Value := {| cfile := f; name := nm |} |}.

(** The key of the element at the front of the ordering list. *)
Definition mru (fs : memoryCacheFilesystem) : option string :=
  (λ e, name (Value e)) <$> Front (evictList fs).

(** The stages of [add], named so that statements can refer to the state
    between them. *)
Definition dropExisting (nm : string) (fs : memoryCacheFilesystem)
  : memoryCacheFilesystem :=
  match cache fs !! nm with
  | Some v => removeElement v fs
  | None => fs
  end.

Definition pushEntry (nm : string) (f : file) (fs : memoryCacheFilesystem)
  : memoryCacheFilesystem :=
  {| evictList := (PushFront {| cfile := f; name := nm |} (evictList fs)).2;
     cache := <[nm := newElement nm f fs]> (cache fs);
     maxSize := maxSize fs;
     size := wrap64 (size fs + Size (fi f));
     maxItems := maxItems fs;
     nitems := nitems fs;
     invalidator := invalidator fs |}.

Definition evictIfOver (fs : memoryCacheFilesystem) : memoryCacheFilesystem :=
  if maxItems fs <? Len (evictList fs) then removeOldest fs else fs.

Definition register (nm : string) (f : file) (fs : memoryCacheFilesystem)
  : memoryCacheFilesystem :=
  setInvalidator (ci_Add {| cfile := f; name := nm |} (invalidator fs)) fs.

(** The state [get] leaves behind on a hit of [ent]. *)
Definition promote (ent : Element) (fs : memoryCacheFilesystem)
  : memoryCacheFilesystem :=
  {| evictList := MoveToFront ent (evictList fs);
     cache := cache fs; maxSize := maxSize fs; size := size fs;
     maxItems := maxItems fs; nitems := nitems fs;
     invalidator := invalidator fs |}.

(** Everything that holds of a cache of capacity [N] between operations. *)
Definition good (N : Z) (fs : memoryCacheFilesystem) : Prop :=
  cache_inv fs ∧ size_ok fs ∧ maxItems fs = N ∧ Len (evictList fs) ≤ Z.max 0 N.

(** The request [check] builds for a snapshot record. *)
Definition headRequest `{GoLib} (fi : fileInfo) : http.Request :=
  condHEAD fi
    {| http.Method := "HEAD"; http.URL := Name fi; http.ReqHeader := ∅;
       http.RawQuery := ""; http.RemoteAddr := "" |}.

(** The replies after which the loop of [run] leaves an entry alone: 304,
    the two retry statuses, and a failed round trip. *)
Definition keeps (reply : Z + error) : bool :=
  match reply with
  | inl code => (code =? 304) || (code =? 408) || (code =? 429)
  | inr _ => true
  end.

(** What [check] observes: the status, or the error of the round trip. *)
Definition replyOf (r : http.Response + error) : Z + error :=
  match r with
  | inl res => inl (http.StatusCode res)
  | inr e => inr e
  end.

(** What a sweep over the records [l] puts on the wire, from the world [w]
    on: one round trip of [http.DefaultClient] for each record whose URL
    [http.NewRequest] accepts, in the order of [l], each in the world the
    one before left behind; nothing for a record whose URL is rejected.
    The result is the list of probes and the world after the last one. *)
Fixpoint wire `{GoLib} `{World W} (l : list (string * fileInfo)) (w : W)
  : list (string * probe) * W :=
  match l with
  | [] => ([], w)
  | (k, fi) :: l' =>
      if urlParses (Name fi) then
        let r := Do (headRequest fi) w in
        let rest := wire l' r.2 in
        ((k, Sent (headRequest fi) (replyOf r.1)) :: rest.1, rest.2)
      else
        let rest := wire l' w in
        ((k, NotSent (ErrTransport "parse")) :: rest.1, rest.2)
  end.

(** ** Scenarios *)

(** The production gateway of server/context.go in front of an origin that
    serves the three bytes [abc] at [/abc] without an [ETag] header. *)
Definition originABC : tableWorld :=
  {| table := [("GET", "http://origin/abc", reply 200 3 ∅ "abc")];
     seen := [];
     clock := testModtime |}.

Definition gatewayFS
  : FileSystem (memoryCacheFilesystem * (remoteFileSystem * tableWorld)) :=
  @cache_FileSystem _ (@remote_FileSystem exampleLib _ tableWorld_World).

Definition gateway : memoryCacheFilesystem * (remoteFileSystem * tableWorld) :=
  (NewCache 50 (1024 * 1024 * 512), ({| origin := "http://origin" |}, originABC)).

Definition getRequest (path : string) : http.Request :=
  {| http.Method := "GET"; http.URL := path; http.ReqHeader := ∅;
     http.RawQuery := ""; http.RemoteAddr := "10.0.0.1:4711" |}.

(** The reply headers and status a run of [serveFile] leaves behind. *)
Definition servedWriter (s : served) : ResponseWriter :=
  match s with
  | Replied w => w
  | ServeContent w _ _ _ => w
  | Panicked _ => newResponseWriter
  end.

(** A cache of the test suite over a [fakeFs] holding [file1]. *)
Definition fakeOrigin : fakeFs := fakeFs_put "file1" (newFile "file1") newFakeFs.

(** A request whose [X-Forwarded-For] header is present and empty. *)
Definition emptyForwarded : http.Request :=
  {| http.Method := "GET"; http.URL := "/file1";
     http.ReqHeader := {["X-Forwarded-For" := [""]]};
     http.RawQuery := ""; http.RemoteAddr := "10.0.0.1:4711" |}.

(** The origin of [TestCache] once all three files exist. *)
Definition fakeOrigin3 : fakeFs :=
  fakeFs_put "file3" (newFile "file3")
    (fakeFs_put "file2" (newFile "file2") fakeOrigin).

(** What [readClone] makes of [newFile "file1"]. *)
Definition cloneOne : file :=
  {| ReadSeeker := bytes.NewReader (list_byte_of_string "file1");
     fi := fi (newFile "file1");
     buf := None |}.

(** The cache of the test suite after one [Open] of [file1]. *)
Definition warmCache : memoryCacheFilesystem * fakeFs :=
  runEvents [EOpen "file1"] (NewCache 2 64, fakeOrigin).

(** The element that [Open] allocated in [warmCache]. *)
Definition warmElement : Element :=
  {| eid := 0; Value := {| cfile := newFile "file1"; name := "file1" |} |}.

(** The blob the origin client builds from [originABC]. *)
Definition fetchABC : result file * tableWorld :=
  @remote_Open exampleLib _ tableWorld_World {| origin := "http://origin" |}
    "/abc" originABC.

Definition blobABC : file :=
  match fetchABC.1 with
  | Ok f => f
  | _ => newFile ""
  end.

(** An origin that answers the revalidation of [file1] with 429. *)
Definition busyOrigin : tableWorld :=
  {| table := [("HEAD", "file1", reply 429 0 ∅ "")]; seen := [];
     clock := testModtime |}.

(** A cache of the test suite over a [fakeFs] whose file [x] carries a
    name that is no URL, after one [Open] of [x]. *)
Definition oddOrigin : fakeFs := fakeFs_put "x" (newFile "%zz") newFakeFs.

Definition oddCache : memoryCacheFilesystem * fakeFs :=
  runEvents [EOpen "x"] (NewCache 2 64, oddOrigin).

(** A store holding the array of one blob, and the blob's handle. *)
Definition heapABC : store.heap :=
  {| store.arrays := {[ 7%nat := list_byte_of_string "abc" ]};
     store.cells := ∅ |}.

Definition handleABC : store.handle :=
  {| store.hReader := 0%nat; store.hfi := fi blobABC; store.hbuf := Some 7%nat |}.

(** A request that names its client in [X-Forwarded-For]. *)
Definition forwarded : http.Request :=
  {| http.Method := "GET"; http.URL := "/file1";
     http.ReqHeader := {["X-Forwarded-For" := ["192.0.2.1"]]};
     http.RawQuery := ""; http.RemoteAddr := "10.0.0.1:4711" |}.

(** A handler that counts its calls. *)
Definition countingHandler : Handler nat :=
  λ w _ n, (w, S n).

(** ** Abstract views of the cache *)

(** The keys of the ordering list, front to back. *)
Definition names (fs : memoryCacheFilesystem) : list string :=
  (λ e, name (Value e)) <$> elems (evictList fs).

(** The least-recently-used order of capacity [N] after a use of [k]: [k]
    moves (or comes) to the front and the list is cut to [N] keys. *)
Definition lruStep (N : Z) (k : string) (ns : list string) : list string :=
  take (Z.to_nat N) (k :: filter (λ x, x ≠ k) ns).

(** The metadata held by an element. *)
Definition info (e : Element) : fileInfo := fi (cfile (Value e)).

(** The invalidator's shared records describe exactly the cached entries. *)
Definition mirrors (fs : memoryCacheFilesystem) : Prop :=
  ∀ k, items (invalidator fs) !! k = info <$> cache fs !! k.

(** What happens to the invalidator between two observations: the cache
    registers or withdraws an entry, or [run] wakes up and folds. *)
Inductive ciOp :=
| OpAdd (ent : centry)
| OpDel (ent : centry)
| OpFold.

Definition ciStep (st : runLocal * cacheInvalidator) (op : ciOp)
  : runLocal * cacheInvalidator :=
  match op with
  | OpAdd ent => (st.1, ci_Add ent st.2)
  | OpDel ent => (st.1, ci_Del ent st.2)
  | OpFold => foldDeltas st.1 st.2
  end.

Definition ciRun (ops : list ciOp) : runLocal * cacheInvalidator :=
  foldl ciStep (runInit, newCacheInvalidator) ops.

(** A snapshot record agrees with the shared table, or is a zero record
    for a key the shared table does not hold. *)
Definition agrees (loc : runLocal) (ci : cacheInvalidator) (k : string) : Prop :=
  l_items loc !! k = items ci !! k
  ∨ (items ci !! k = None ∧ l_items loc !! k = Some zeroFileInfo).

(** A cache with another byte budget. *)
Definition withMaxSize (m : Z) (fs : memoryCacheFilesystem) : memoryCacheFilesystem :=
  {| evictList := evictList fs; cache := cache fs; maxSize := m; size := size fs;
     maxItems := maxItems fs; nitems := nitems fs; invalidator := invalidator fs |}.

(** What links the snapshot of [run] to the shared state between two
    critical sections: a key with no pending delta agrees, and a key
    marked removed but not added has no shared record. *)
Definition synced (loc : runLocal) (ci : cacheInvalidator) : Prop :=
  (∀ k, added ci !! k = None → removed ci !! k = None → agrees loc ci k)
  ∧ (∀ k, added ci !! k = None → is_Some (removed ci !! k) → items ci !! k = None).

(** What of a cache a fold cannot change. *)
Definition core (fs : memoryCacheFilesystem)
  : List * gmap string Element * Z * Z * gmap string fileInfo :=
  (evictList fs, cache fs, size fs, maxItems fs, items (invalidator fs)).

(** One wake-up of [run], up to the end of its critical section. *)
Definition foldStep (st : runLocal * memoryCacheFilesystem)
  : runLocal * memoryCacheFilesystem :=
  let r := foldDeltas st.1 (invalidator st.2) in
  (r.1, setInvalidator r.2 st.2).

(** [add] together with the wake-ups of [run] that fall inside it.  [add]
    holds the mutex of the cache from start to end, but takes the mutex of
    the invalidator anew in each call of [Del] and [Add], and the fold
    takes only the latter: [n1] folds run after the entry to be replaced
    is removed, [n2] after the eviction and before [Add]. *)
Definition addWith (n1 n2 : nat) (nm : string) (f : file)
    (st : runLocal * memoryCacheFilesystem)
  : result file * (runLocal * memoryCacheFilesystem) :=
  let s1 := Nat.iter n1 foldStep (st.1, dropExisting nm st.2) in
  let s2 := Nat.iter n2 foldStep (s1.1, evictIfOver (pushEntry nm f s1.2)) in
  (readClone f, (s2.1, register nm f s2.2)).

(** Cache and invalidator together: an [Open] or a late insert, each with
    the folds inside its [add]; a call of the eviction callback; a fold
    between two operations of the cache. *)
Inductive sysEvent :=
| SOpen (nm : string) (n1 n2 : nat)
| SAdd (nm : string) (f : file) (n1 n2 : nat)
| SEvict (nm : string)
| SFold.

Definition sysStep {Org : Type} `{!FileSystem Org}
    (st : runLocal * (memoryCacheFilesystem * Org)) (e : sysEvent)
  : runLocal * (memoryCacheFilesystem * Org) :=
  match e with
  | SOpen nm n1 n2 =>
      match get nm st.2.1 with
      | (Some _, fs') => (st.1, (fs', st.2.2))
      | (None, _) =>
          match fsOpen nm st.2.2 with
          | (Ok f, o') =>
              let r := (addWith n1 n2 nm f (st.1, st.2.1)).2 in (r.1, (r.2, o'))
          | (_, o') => (st.1, (st.2.1, o'))
          end
      end
  | SAdd nm f n1 n2 =>
      let r := (addWith n1 n2 nm f (st.1, st.2.1)).2 in (r.1, (r.2, st.2.2))
  | SEvict nm => (st.1, (delfn nm st.2.1, st.2.2))
  | SFold => let r := foldStep (st.1, st.2.1) in (r.1, (r.2, st.2.2))
  end.

Definition sysRun {Org : Type} `{!FileSystem Org} (es : list sysEvent)
    (st : runLocal * (memoryCacheFilesystem * Org))
  : runLocal * (memoryCacheFilesystem * Org) :=
  foldl sysStep st es.

(** ** [path.Clean] (standard library) and the file handler (serve.go) *)

Module gopath.

(** [strings.Split(s, "/")]: the path elements, empty ones included. *)
Fixpoint split (s : string) : list string :=
  match s with
  | EmptyString => [EmptyString]
  | String c s' =>
      if Ascii.eqb c "/" then EmptyString :: split s'
      else
        match split s' with
        | h :: t => String c h :: t
        | [] => [String c EmptyString]
        end
  end.

(** One element read by the loop of [Clean]; [st] holds the elements
    written so far, the last one first.  An empty element and [.] are
    skipped; [..] removes the last element written, and where there is
    none it is dropped in a rooted path and written in an unrooted one. *)
Definition step (rooted : bool) (st : list string) (c : string) : list string :=
  if decide (c = "" ∨ c = ".") then st
  else if decide (c = "..") then
    match st with
    | x :: st' =>
        if rooted then st' else if decide (x = "..") then c :: st else st'
    | [] => if rooted then [] else [c]
    end
  else c :: st.

(** The elements, each after a slash. *)
Fixpoint join (cs : list string) : string :=
  match cs with
  | [] => EmptyString
  | c :: cs' => "/" ++ c ++ join cs'
  end.

Definition Clean (path : string) : string :=
  match path with
  | EmptyString => "."
  | String c _ =>
      let rooted := Ascii.eqb c "/" in
      match rev (foldl (step rooted) [] (split path)) with
      | [] => if rooted then "/" else "."
      | c0 :: cs' => if rooted then join (c0 :: cs') else c0 ++ join cs'
      end
  end.

(** No slash in an element. *)
Fixpoint noSlash (s : string) : bool :=
  match s with
  | EmptyString => true
  | String c s' => negb (Ascii.eqb c "/") && noSlash s'
  end.

(** An element that [Clean] keeps in a rooted path. *)
Definition real (c : string) : Prop :=
  noSlash c = true ∧ c ≠ "" ∧ c ≠ "." ∧ c ≠ "..".

End gopath.

(** [fileHandler.ServeHTTP] over the root [T]; [http.URL r] is
    [r.URL.Path]. *)
Definition ServeHTTP {T : Type} `{!FileSystem T} (w : ResponseWriter)
    (r : http.Request) (st : T) : served * T :=
  let upath := http.URL r in
  let '(upath, r) :=
    if String.prefix "/" upath then (upath, r)
    else ("/" ++ upath,
          {| http.Method := http.Method r; http.URL := "/" ++ upath;
             http.ReqHeader := http.ReqHeader r; http.RawQuery := http.RawQuery r;
             http.RemoteAddr := http.RemoteAddr r |}) in
  let upath :=
    if decide (http.RawQuery r ≠ "") then upath ++ "?" ++ http.RawQuery r
    else upath in
  serveFile w r (gopath.Clean upath) st.

Local Open Scope list_scope.
Local Open Scope Z_scope.

(** * Properties *)

(** ** Arithmetic of [wrap64] *)

Lemma wrap64_mod (z : Z) : wrap64 z mod 2 ^ 64 = z mod 2 ^ 64.
Proof.
  unfold wrap64.
  rewrite Zminus_mod, Zmod_mod, <- Zminus_mod.
  f_equal. lia.
Qed.

Lemma wrap64_eq_mod (a b : Z) : a mod 2 ^ 64 = b mod 2 ^ 64 → wrap64 a = wrap64 b.
Proof.
  intros E. unfold wrap64.
  rewrite (Zplus_mod a), (Zplus_mod b), E. reflexivity.
Qed.

Lemma wrap64_add_l (a b : Z) : wrap64 (wrap64 a + b) = wrap64 (a + b).
Proof.
  apply wrap64_eq_mod.
  rewrite Zplus_mod, wrap64_mod, <- Zplus_mod. reflexivity.
Qed.

Lemma wrap64_sub_l (a b : Z) : wrap64 (wrap64 a - b) = wrap64 (a - b).
Proof.
  apply wrap64_eq_mod.
  rewrite Zminus_mod, wrap64_mod, <- Zminus_mod. reflexivity.
Qed.

Lemma wrap64_small (z : Z) : - 2 ^ 63 ≤ z < 2 ^ 63 → wrap64 z = z.
Proof.
  intros Hz. unfold wrap64.
  rewrite Z.mod_small by lia. lia.
Qed.

(** ** The ordering list *)

Lemma same_eid_eq (l : list Element) (e e' : Element) :
  NoDup (eid <$> l) → e ∈ l → e' ∈ l → eid e = eid e' → e = e'.
Proof.
  induction l as [|x l IH]; intros Hnd He He'; [by apply elem_of_nil in He|].
  rewrite fmap_cons in Hnd. apply NoDup_cons in Hnd as [Hx Hnd].
  apply elem_of_cons in He as [->|He]; apply elem_of_cons in He' as [->|He'];
    intros Heq; auto.
  - exfalso. apply Hx. rewrite Heq. by apply list_elem_of_fmap_2.
  - exfalso. apply Hx. rewrite <- Heq. by apply list_elem_of_fmap_2.
Qed.

Lemma NoDup_eid_filter (P : Element → Prop) `{∀ x, Decision (P x)} (l : list Element) :
  NoDup (eid <$> l) → NoDup (eid <$> filter P l).
Proof.
  induction l as [|x l IH]; [done|].
  rewrite fmap_cons. intros [Hx Hnd]%NoDup_cons.
  rewrite filter_cons. destruct (decide (P x)); [|by auto].
  rewrite fmap_cons. apply NoDup_cons. split; [|by auto].
  intros [y [Hy Hin]]%list_elem_of_fmap.
  apply list_elem_of_filter in Hin as [_ Hin].
  apply Hx. rewrite Hy. by apply list_elem_of_fmap_2.
Qed.

Lemma filter_keep_all {A} (P : A → Prop) `{∀ x, Decision (P x)} (l : list A) :
  (∀ x, x ∈ l → P x) → filter P l = l.
Proof.
  induction l as [|x l IH]; intros Hall; [done|].
  rewrite filter_cons, decide_True by (apply Hall; left).
  f_equal. apply IH. intros y Hy. apply Hall. by right.
Qed.

Lemma filter_other_ids (l : list Element) (e : Element) :
  eid e ∉ eid <$> l → filter (λ x, ¬ same e x) l = l.
Proof.
  intros Hn. apply filter_keep_all. intros x Hx Hs. apply Hn.
  unfold same in Hs. rewrite <- Hs. by apply list_elem_of_fmap_2.
Qed.

Lemma total_remove (l : list Element) (e : Element) :
  NoDup (eid <$> l) → e ∈ l →
  total l = Size (fi (cfile (Value e))) + total (filter (λ x, ¬ same e x) l).
Proof.
  induction l as [|x l IH]; intros Hnd He; [by apply elem_of_nil in He|].
  rewrite fmap_cons in Hnd. apply NoDup_cons in Hnd as [Hx Hnd].
  rewrite filter_cons.
  apply elem_of_cons in He as [->|He].
  - rewrite decide_False by (intros Hn; by apply Hn).
    rewrite filter_other_ids by done. reflexivity.
  - rewrite decide_True.
    + simpl. rewrite (IH Hnd He). lia.
    + intros Hs. apply Hx. unfold same in Hs. rewrite Hs.
      by apply list_elem_of_fmap_2.
Qed.

Lemma filter_drop_last (l : list Element) (e : Element) :
  NoDup (eid <$> (l ++ [e])) → filter (λ x, ¬ same e x) (l ++ [e]) = l.
Proof.
  intros Hnd. rewrite filter_app.
  rewrite fmap_app in Hnd. apply NoDup_app in Hnd as (_ & Hdis & _).
  rewrite filter_other_ids.
  - rewrite filter_cons, decide_False by (intros Hn; by apply Hn).
    by rewrite filter_nil, app_nil_r.
  - intros Hin. apply (Hdis _ Hin). simpl. left.
Qed.

Lemma length_remove (l : list Element) (e : Element) :
  NoDup (eid <$> l) → e ∈ l →
  S (List.length (filter (λ x, ¬ same e x) l)) = List.length l.
Proof.
  induction l as [|x l IH]; intros Hnd He; [by apply elem_of_nil in He|].
  rewrite fmap_cons in Hnd. apply NoDup_cons in Hnd as [Hx Hnd].
  rewrite filter_cons.
  apply elem_of_cons in He as [->|He].
  - rewrite decide_False by (intros Hn; by apply Hn).
    by rewrite filter_other_ids.
  - rewrite decide_True.
    + simpl. by rewrite (IH Hnd He).
    + intros Hs. apply Hx. unfold same in Hs. rewrite Hs.
      by apply list_elem_of_fmap_2.
Qed.

(** ** The structural invariant is kept by every operation *)

Lemma cache_inv_NewCache (N M : Z) : cache_inv (NewCache N M).
Proof.
  split; simpl.
  - intros k e Hk. by rewrite lookup_empty in Hk.
  - intros e He. by apply elem_of_nil in He.
  - constructor.
  - intros e He. by apply elem_of_nil in He.
Qed.

Lemma cache_inv_removeElement (fs : memoryCacheFilesystem) (ent : Element) :
  cache_inv fs → ent ∈ elems (evictList fs) → cache_inv (removeElement ent fs).
Proof.
  intros [Hml Hlm Hnd Hfr] Hent. split; simpl.
  - intros k e Hk.
    apply lookup_delete_Some in Hk as [Hne Hk].
    destruct (Hml _ _ Hk) as [Hin Hnm]. split; [|done].
    apply list_elem_of_filter. split; [|done].
    intros Hs. apply Hne.
    rewrite <- Hnm. f_equal. f_equal. symmetry.
    by apply (same_eid_eq (elems (evictList fs))).
  - intros e [Hs Hin]%list_elem_of_filter.
    rewrite lookup_delete_ne; [by apply Hlm|].
    intros Heq. apply Hs.
    pose proof (Hlm _ Hin) as H1. pose proof (Hlm _ Hent) as H2.
    rewrite Heq in H2. rewrite H1 in H2. by inversion H2.
  - by apply NoDup_eid_filter.
  - intros e [_ Hin]%list_elem_of_filter. by apply Hfr.
Qed.

Lemma add_stages (nm : string) (f : file) (fs : memoryCacheFilesystem) :
  add nm f fs =
  (readClone f, register nm f (evictIfOver (pushEntry nm f (dropExisting nm fs)))).
Proof. reflexivity. Qed.

Lemma get_hit (nm : string) (fs : memoryCacheFilesystem) (ent : Element) :
  cache fs !! nm = Some ent →
  get nm fs = (Some (readClone (cfile (Value ent))), promote ent fs).
Proof. intros E. unfold get. by rewrite E. Qed.

Lemma get_miss (nm : string) (fs : memoryCacheFilesystem) :
  cache fs !! nm = None → get nm fs = (None, fs).
Proof. intros E. unfold get. by rewrite E. Qed.

Lemma MoveToFront_elems (l : List) (e : Element) :
  NoDup (eid <$> elems l) → e ∈ elems l →
  elems (MoveToFront e l) = e :: filter (λ y, ¬ same e y) (elems l).
Proof.
  intros Hnd He. unfold MoveToFront.
  destruct (list_find (same e) (elems l)) as [[j x]|] eqn:Hf.
  - apply list_find_Some in Hf as (Hj & Hs & _). simpl.
    f_equal. apply (same_eid_eq (elems l)); auto.
    by apply list_elem_of_lookup_2 in Hj.
  - apply list_find_None in Hf.
    rewrite Forall_forall in Hf. exfalso. by apply (Hf e He).
Qed.

Lemma cache_inv_promote (fs : memoryCacheFilesystem) (nm : string) (ent : Element) :
  cache_inv fs → cache fs !! nm = Some ent → cache_inv (promote ent fs).
Proof.
  intros Hinv Hk. destruct Hinv as [Hml Hlm Hnd Hfr].
  destruct (Hml _ _ Hk) as [Hin _].
  assert (Hel := MoveToFront_elems (evictList fs) ent Hnd Hin).
  assert (Hmem : ∀ x, x ∈ elems (MoveToFront ent (evictList fs)) ↔ x ∈ elems (evictList fs)).
  { intros x. rewrite Hel, elem_of_cons, list_elem_of_filter. split.
    - intros [->|[_ ?]]; done.
    - intros Hx. destruct (decide (same ent x)) as [Hs|Hs]; [left|by right].
      by apply (same_eid_eq (elems (evictList fs))). }
  split; simpl.
  - intros k e Hke. destruct (Hml _ _ Hke). split; [by apply Hmem|done].
  - intros e He. apply Hlm. by apply Hmem.
  - rewrite Hel, fmap_cons. apply NoDup_cons. split; [|by apply NoDup_eid_filter].
    intros [y [Hy [Hs _]%list_elem_of_filter]]%list_elem_of_fmap.
    by apply Hs.
  - intros e He. unfold MoveToFront.
    destruct (list_find _ _) as [[? ?]|]; simpl; apply Hfr; by apply Hmem.
Qed.

Lemma dropExisting_absent (nm : string) (fs : memoryCacheFilesystem) :
  cache_inv fs → cache (dropExisting nm fs) !! nm = None.
Proof.
  intros Hinv. unfold dropExisting.
  destruct (cache fs !! nm) as [v|] eqn:E; [|done].
  simpl. destruct (inv_map_list _ Hinv _ _ E) as [_ ->].
  apply lookup_delete_eq.
Qed.

Lemma cache_inv_dropExisting (nm : string) (fs : memoryCacheFilesystem) :
  cache_inv fs → cache_inv (dropExisting nm fs).
Proof.
  intros Hinv. unfold dropExisting.
  destruct (cache fs !! nm) as [v|] eqn:E; [|done].
  apply cache_inv_removeElement; [done|].
  by destruct (inv_map_list _ Hinv _ _ E).
Qed.

Lemma cache_inv_pushEntry (nm : string) (f : file) (fs : memoryCacheFilesystem) :
  cache_inv fs → cache fs !! nm = None → cache_inv (pushEntry nm f fs).
Proof.
  intros [Hml Hlm Hnd Hfr] Hnone. split; simpl.
  - intros k e Hk. apply lookup_insert_Some in Hk as [[<- <-]|[Hne Hk]].
    + split; [left|done].
    + destruct (Hml _ _ Hk). split; [by right|done].
  - intros e [->|He]%elem_of_cons.
    + simpl. apply lookup_insert_eq.
    + rewrite lookup_insert_ne; [by apply Hlm|].
      intros Heq. rewrite Heq, (Hlm _ He) in Hnone. discriminate.
  - apply NoDup_cons. split; [|done].
    intros [y [Hy Hin]]%list_elem_of_fmap.
    apply Hfr in Hin. simpl in Hy. lia.
  - intros e [->|He]%elem_of_cons; simpl; [lia|].
    apply Hfr in He. lia.
Qed.

Lemma cache_inv_removeOldest (fs : memoryCacheFilesystem) :
  cache_inv fs → cache_inv (removeOldest fs).
Proof.
  intros Hinv. unfold removeOldest, Back.
  destruct (last (elems (evictList fs))) as [ent|] eqn:E; [|done].
  apply cache_inv_removeElement; [done|].
  by apply last_Some_elem_of.
Qed.

Lemma cache_inv_evictIfOver (fs : memoryCacheFilesystem) :
  cache_inv fs → cache_inv (evictIfOver fs).
Proof.
  intros Hinv. unfold evictIfOver.
  destruct (maxItems fs <? Len (evictList fs)); [|done].
  by apply cache_inv_removeOldest.
Qed.

Lemma cache_inv_setInvalidator (ci : cacheInvalidator) (fs : memoryCacheFilesystem) :
  cache_inv fs → cache_inv (setInvalidator ci fs).
Proof. intros [Hml Hlm Hnd Hfr]. by split. Qed.

Lemma cache_inv_add (nm : string) (f : file) (fs : memoryCacheFilesystem) :
  cache_inv fs → cache_inv (add nm f fs).2.
Proof.
  intros Hinv. rewrite add_stages. simpl.
  apply cache_inv_setInvalidator, cache_inv_evictIfOver, cache_inv_pushEntry.
  - by apply cache_inv_dropExisting.
  - by apply dropExisting_absent.
Qed.

Lemma cache_inv_get (nm : string) (fs : memoryCacheFilesystem) :
  cache_inv fs → cache_inv (get nm fs).2.
Proof.
  intros Hinv. destruct (cache fs !! nm) as [ent|] eqn:E.
  - rewrite (get_hit _ _ _ E). simpl. by apply (cache_inv_promote fs nm).
  - by rewrite (get_miss _ _ E).
Qed.

Lemma cache_inv_del (nm : string) (fs : memoryCacheFilesystem) :
  cache_inv fs → cache_inv (del nm fs).2.
Proof.
  intros Hinv. unfold del.
  destruct (cache fs !! nm) as [ent|] eqn:E; [|done].
  simpl. apply cache_inv_removeElement; [done|].
  by destruct (inv_map_list _ Hinv _ _ E).
Qed.

(** ** Length of the ordering list *)

Lemma Len_removeElement (fs : memoryCacheFilesystem) (ent : Element) :
  cache_inv fs → ent ∈ elems (evictList fs) →
  Len (evictList (removeElement ent fs)) = Len (evictList fs) - 1.
Proof.
  intros Hinv He. unfold Len. simpl.
  rewrite <- (length_remove _ ent (inv_nodup _ Hinv) He). lia.
Qed.

Lemma Len_promote (fs : memoryCacheFilesystem) (nm : string) (ent : Element) :
  cache_inv fs → cache fs !! nm = Some ent →
  Len (evictList (promote ent fs)) = Len (evictList fs).
Proof.
  intros Hinv Hk. destruct (inv_map_list _ Hinv _ _ Hk) as [Hin _].
  unfold Len. simpl.
  rewrite (MoveToFront_elems _ _ (inv_nodup _ Hinv) Hin). simpl.
  by rewrite (length_remove _ ent (inv_nodup _ Hinv) Hin).
Qed.

Lemma Len_dropExisting (nm : string) (fs : memoryCacheFilesystem) :
  cache_inv fs →
  Len (evictList (dropExisting nm fs)) =
  Len (evictList fs) - match cache fs !! nm with Some _ => 1 | None => 0 end.
Proof.
  intros Hinv. unfold dropExisting.
  destruct (cache fs !! nm) as [v|] eqn:E; [|lia].
  apply Len_removeElement; [done|].
  by destruct (inv_map_list _ Hinv _ _ E).
Qed.

Lemma Len_pushEntry (nm : string) (f : file) (fs : memoryCacheFilesystem) :
  Len (evictList (pushEntry nm f fs)) = Len (evictList fs) + 1.
Proof. unfold Len. simpl. lia. Qed.

Lemma Len_nonneg (l : List) : 0 ≤ Len l.
Proof. unfold Len. lia. Qed.

Lemma Len_evictIfOver (fs : memoryCacheFilesystem) :
  cache_inv fs →
  Len (evictList (evictIfOver fs)) =
  if maxItems fs <? Len (evictList fs) then Z.max 0 (Len (evictList fs) - 1)
  else Len (evictList fs).
Proof.
  intros Hinv. unfold evictIfOver.
  destruct (maxItems fs <? Len (evictList fs)) eqn:E; [|done].
  unfold removeOldest, Back.
  destruct (last (elems (evictList fs))) as [ent|] eqn:El.
  - rewrite Len_removeElement; [|done|by apply last_Some_elem_of].
    apply last_Some_elem_of in El. unfold Len.
    destruct (elems (evictList fs)); [by apply elem_of_nil in El|].
    simpl. lia.
  - apply last_None in El. unfold Len. rewrite El. reflexivity.
Qed.

(** ** The byte counter *)

Lemma size_ok_removeElement (fs : memoryCacheFilesystem) (ent : Element) :
  cache_inv fs → size_ok fs → ent ∈ elems (evictList fs) →
  size_ok (removeElement ent fs).
Proof.
  unfold size_ok. intros Hinv Hs He. simpl.
  rewrite Hs, wrap64_sub_l.
  rewrite (total_remove _ ent (inv_nodup _ Hinv) He).
  f_equal. lia.
Qed.

Lemma size_ok_promote (fs : memoryCacheFilesystem) (nm : string) (ent : Element) :
  cache_inv fs → size_ok fs → cache fs !! nm = Some ent →
  size_ok (promote ent fs).
Proof.
  unfold size_ok. intros Hinv Hs Hk. simpl.
  destruct (inv_map_list _ Hinv _ _ Hk) as [Hin _].
  rewrite (MoveToFront_elems _ _ (inv_nodup _ Hinv) Hin), Hs.
  by rewrite (total_remove _ ent (inv_nodup _ Hinv) Hin).
Qed.

Lemma size_ok_dropExisting (nm : string) (fs : memoryCacheFilesystem) :
  cache_inv fs → size_ok fs → size_ok (dropExisting nm fs).
Proof.
  intros Hinv Hs. unfold dropExisting.
  destruct (cache fs !! nm) as [v|] eqn:E; [|done].
  apply size_ok_removeElement; auto.
  by destruct (inv_map_list _ Hinv _ _ E).
Qed.

Lemma size_ok_pushEntry (nm : string) (f : file) (fs : memoryCacheFilesystem) :
  size_ok fs → size_ok (pushEntry nm f fs).
Proof.
  unfold size_ok. intros Hs. simpl.
  rewrite Hs, wrap64_add_l. f_equal. lia.
Qed.

Lemma size_ok_evictIfOver (fs : memoryCacheFilesystem) :
  cache_inv fs → size_ok fs → size_ok (evictIfOver fs).
Proof.
  intros Hinv Hs. unfold evictIfOver.
  destruct (maxItems fs <? Len (evictList fs)); [|done].
  unfold removeOldest, Back.
  destruct (last (elems (evictList fs))) as [ent|] eqn:El; [|done].
  apply size_ok_removeElement; auto. by apply last_Some_elem_of.
Qed.

Lemma size_ok_get (nm : string) (fs : memoryCacheFilesystem) :
  cache_inv fs → size_ok fs → size_ok (get nm fs).2.
Proof.
  intros Hinv Hs. destruct (cache fs !! nm) as [ent|] eqn:E.
  - rewrite (get_hit _ _ _ E). by apply (size_ok_promote fs nm).
  - by rewrite (get_miss _ _ E).
Qed.

Lemma size_ok_add (nm : string) (f : file) (fs : memoryCacheFilesystem) :
  cache_inv fs → size_ok fs → size_ok (add nm f fs).2.
Proof.
  intros Hinv Hs. rewrite add_stages. simpl.
  assert (size_ok (evictIfOver (pushEntry nm f (dropExisting nm fs)))) as H; [|done].
  apply size_ok_evictIfOver.
  - apply cache_inv_pushEntry; [by apply cache_inv_dropExisting|].
    by apply dropExisting_absent.
  - by apply size_ok_pushEntry, size_ok_dropExisting.
Qed.

Lemma size_ok_del (nm : string) (fs : memoryCacheFilesystem) :
  cache_inv fs → size_ok fs → size_ok (del nm fs).2.
Proof.
  intros Hinv Hs. unfold del.
  destruct (cache fs !! nm) as [ent|] eqn:E; [|done].
  apply size_ok_removeElement; auto.
  by destruct (inv_map_list _ Hinv _ _ E).
Qed.

(** ** Reachable states *)

Lemma good_NewCache (N M : Z) : good N (NewCache N M).
Proof.
  split; [apply cache_inv_NewCache|].
  split; [reflexivity|]. split; [reflexivity|]. unfold Len. simpl. lia.
Qed.

Lemma maxItems_add (nm : string) (f : file) (fs : memoryCacheFilesystem) :
  maxItems (add nm f fs).2 = maxItems fs.
Proof.
  rewrite add_stages. simpl. unfold evictIfOver, removeOldest, dropExisting.
  simpl. destruct (cache fs !! nm); simpl;
    repeat (match goal with |- context [if ?b then _ else _] => destruct b end;
            simpl); try done;
    repeat (match goal with |- context [match ?b with _ => _ end] => destruct b end;
            simpl); done.
Qed.

Lemma good_add (N : Z) (nm : string) (f : file) (fs : memoryCacheFilesystem) :
  good N fs → good N (add nm f fs).2.
Proof.
  intros (Hinv & Hs & HmaxN & Hlen).
  split; [by apply cache_inv_add|].
  split; [by apply size_ok_add|].
  split; [by rewrite maxItems_add|].
  rewrite add_stages. simpl.
  change (Len (evictList (evictIfOver (pushEntry nm f (dropExisting nm fs)))) ≤ Z.max 0 N).
  assert (Hd := cache_inv_dropExisting nm fs Hinv).
  assert (Hp := cache_inv_pushEntry nm f _ Hd (dropExisting_absent nm fs Hinv)).
  rewrite (Len_evictIfOver _ Hp), Len_pushEntry, (Len_dropExisting _ _ Hinv).
  assert (maxItems (pushEntry nm f (dropExisting nm fs)) = N) as ->.
  { simpl. unfold dropExisting. by destruct (cache fs !! nm). }
  destruct (cache fs !! nm);
    destruct (N <? _) eqn:E; try apply Z.ltb_ge in E; lia.
Qed.

Lemma good_get (N : Z) (nm : string) (fs : memoryCacheFilesystem) :
  good N fs → good N (get nm fs).2.
Proof.
  intros (Hinv & Hs & HmaxN & Hlen).
  split; [by apply cache_inv_get|]. split; [by apply size_ok_get|].
  destruct (cache fs !! nm) as [ent|] eqn:E.
  - rewrite (get_hit _ _ _ E). split; [done|].
    simpl. change (Len (evictList (promote ent fs)) ≤ Z.max 0 N).
    by rewrite (Len_promote fs nm).
  - by rewrite (get_miss _ _ E).
Qed.

Lemma good_del (N : Z) (nm : string) (fs : memoryCacheFilesystem) :
  good N fs → good N (del nm fs).2.
Proof.
  intros (Hinv & Hs & HmaxN & Hlen).
  split; [by apply cache_inv_del|]. split; [by apply size_ok_del|].
  unfold del. destruct (cache fs !! nm) as [ent|] eqn:E; [|done].
  split; [done|]. simpl.
  change (Len (evictList (removeElement ent fs)) ≤ Z.max 0 N).
  rewrite Len_removeElement; [lia|done|].
  by destruct (inv_map_list _ Hinv _ _ E).
Qed.

Section origin.
Context {Org : Type} `{!FileSystem Org}.

(** The two ways through [Open]. *)
Lemma Open_hit (nm : string) (fs : memoryCacheFilesystem) (o : Org) (ent : Element) :
  cache fs !! nm = Some ent →
  Open nm (fs, o) = (readClone (cfile (Value ent)), (promote ent fs, o)).
Proof. intros E. unfold Open. by rewrite (get_hit _ _ _ E). Qed.

Lemma Open_miss (nm : string) (fs : memoryCacheFilesystem) (o : Org) :
  cache fs !! nm = None →
  Open nm (fs, o) =
  match fsOpen nm o with
  | (Ok f, o') => (readClone f, ((add nm f fs).2, o'))
  | (Err e, o') => (Err e, (fs, o'))
  | (Panic m, o') => (Panic m, (fs, o'))
  end.
Proof.
  intros E. unfold Open. rewrite (get_miss _ _ E).
  destruct (fsOpen nm o) as [[f|e|m] o']; try done.
Qed.

Lemma good_Open (N : Z) (nm : string) (fs : memoryCacheFilesystem) (o : Org) :
  good N fs → good N (Open nm (fs, o)).2.1.
Proof.
  intros Hg. destruct (cache fs !! nm) as [ent|] eqn:E.
  - rewrite (Open_hit _ _ _ _ E). simpl.
    pose proof (good_get N nm fs Hg) as H. by rewrite (get_hit _ _ _ E) in H.
  - rewrite (Open_miss _ _ _ E).
    destruct (fsOpen nm o) as [[f|e|m] o']; simpl; try done.
    by apply good_add.
Qed.

Lemma good_runEvent (N : Z) (ev : event) (st : memoryCacheFilesystem * Org) :
  good N st.1 → good N (runEvent st ev).1.
Proof.
  intros Hg. destruct st as [fs o]. destruct ev as [nm|nm f|nm]; simpl.
  - by apply good_Open.
  - by apply good_add.
  - by apply good_del.
Qed.

Lemma good_runEvents (N : Z) (evs : list event) (st : memoryCacheFilesystem * Org) :
  good N st.1 → good N (runEvents evs st).1.
Proof.
  revert st. induction evs as [|ev evs IH]; intros st Hg; [done|].
  simpl. apply IH. by apply good_runEvent.
Qed.

Lemma good_reach (N M : Z) (evs : list event) (o : Org) :
  good N (runEvents evs (NewCache N M, o)).1.
Proof. apply good_runEvents, good_NewCache. Qed.
End origin.

(** ** Insertion, eviction and recency *)

Lemma nextId_dropExisting (nm : string) (fs : memoryCacheFilesystem) :
  nextId (evictList (dropExisting nm fs)) = nextId (evictList fs).
Proof. unfold dropExisting. by destruct (cache fs !! nm). Qed.

Lemma maxItems_dropExisting (nm : string) (fs : memoryCacheFilesystem) :
  maxItems (dropExisting nm fs) = maxItems fs.
Proof. unfold dropExisting. by destruct (cache fs !! nm). Qed.

Lemma newElement_dropExisting (nm : string) (f : file) (fs : memoryCacheFilesystem) :
  newElement nm f (dropExisting nm fs) = newElement nm f fs.
Proof. unfold newElement. by rewrite nextId_dropExisting. Qed.

Lemma elems_pushEntry (nm : string) (f : file) (fs : memoryCacheFilesystem) :
  elems (evictList (pushEntry nm f fs)) = newElement nm f fs :: elems (evictList fs).
Proof. reflexivity. Qed.

(** Below capacity nothing is evicted. *)
Lemma add_no_eviction (nm : string) (f : file) (fs : memoryCacheFilesystem) :
  cache_inv fs →
  Len (evictList (dropExisting nm fs)) < maxItems fs →
  elems (evictList (add nm f fs).2) =
  newElement nm f fs :: elems (evictList (dropExisting nm fs)).
Proof.
  intros Hinv Hlt. rewrite add_stages. simpl.
  unfold evictIfOver.
  rewrite Len_pushEntry. simpl. rewrite maxItems_dropExisting.
  destruct (maxItems fs <? _) eqn:E; [apply Z.ltb_lt in E; lia|].
  by rewrite elems_pushEntry, newElement_dropExisting.
Qed.

(** At capacity the element at the back, and only it, is evicted. *)
Lemma add_evicts_back (nm : string) (f : file) (fs : memoryCacheFilesystem)
    (rest : list Element) (old : Element) :
  cache_inv fs →
  maxItems fs < Len (evictList (dropExisting nm fs)) + 1 →
  elems (evictList (dropExisting nm fs)) = rest ++ [old] →
  elems (evictList (add nm f fs).2) = newElement nm f fs :: rest.
Proof.
  intros Hinv Hover Hl. rewrite add_stages. simpl.
  assert (Hd := cache_inv_dropExisting nm fs Hinv).
  assert (Hp := cache_inv_pushEntry nm f _ Hd (dropExisting_absent nm fs Hinv)).
  unfold evictIfOver. rewrite Len_pushEntry. simpl.
  rewrite maxItems_dropExisting.
  destruct (maxItems fs <? _) eqn:E; [|apply Z.ltb_ge in E; lia].
  pose proof (inv_nodup _ Hp) as Hnd.
  unfold removeOldest, Back. rewrite elems_pushEntry, Hl in *.
  rewrite app_comm_cons in *. rewrite last_snoc. simpl.
  change ({| eid := nextId (evictList (dropExisting nm fs));
             Value := {| cfile := f; name := nm |} |})
    with (newElement nm f (dropExisting nm fs)).
  rewrite Hl, app_comm_cons, (filter_drop_last _ _ Hnd).
  by rewrite newElement_dropExisting.
Qed.

(** With room for at least one entry, the inserted entry ends up in front. *)
Lemma Front_add (nm : string) (f : file) (fs : memoryCacheFilesystem) :
  cache_inv fs → 1 ≤ maxItems fs →
  Front (evictList (add nm f fs).2) = Some (newElement nm f fs).
Proof.
  intros Hinv HN. unfold Front.
  destruct (decide (maxItems fs < Len (evictList (dropExisting nm fs)) + 1)) as [Hover|Hno].
  - destruct (elems (evictList (dropExisting nm fs))) as [|x l] eqn:El using rev_ind.
    { unfold Len in Hover. rewrite El in Hover. simpl in Hover. lia. }
    clear IHl. by rewrite (add_evicts_back nm f fs l x).
  - rewrite add_no_eviction; [done|done|lia].
Qed.

Lemma mru_add (nm : string) (f : file) (fs : memoryCacheFilesystem) :
  cache_inv fs → 1 ≤ maxItems fs → mru (add nm f fs).2 = Some nm.
Proof. intros Hinv HN. unfold mru. by rewrite Front_add. Qed.

Lemma cache_add (nm : string) (f : file) (fs : memoryCacheFilesystem) :
  cache_inv fs → 1 ≤ maxItems fs →
  cache (add nm f fs).2 !! nm = Some (newElement nm f fs).
Proof.
  intros Hinv HN.
  pose proof (Front_add nm f fs Hinv HN) as Hf.
  pose proof (cache_inv_add nm f fs Hinv) as Hinv'.
  unfold Front in Hf.
  destruct (elems (evictList (add nm f fs).2)) as [|x l] eqn:El; [done|].
  simpl in Hf. injection Hf as ->.
  apply (inv_list_map _ Hinv' (newElement nm f fs)).
  rewrite El. left.
Qed.

Lemma Front_promote (fs : memoryCacheFilesystem) (nm : string) (ent : Element) :
  cache_inv fs → cache fs !! nm = Some ent →
  Front (evictList (promote ent fs)) = Some ent.
Proof.
  intros Hinv Hk. destruct (inv_map_list _ Hinv _ _ Hk) as [Hin _].
  unfold Front. simpl.
  by rewrite (MoveToFront_elems _ _ (inv_nodup _ Hinv) Hin).
Qed.

Lemma mru_promote (fs : memoryCacheFilesystem) (nm : string) (ent : Element) :
  cache_inv fs → cache fs !! nm = Some ent → mru (promote ent fs) = Some nm.
Proof.
  intros Hinv Hk. unfold mru. rewrite (Front_promote fs nm) by done.
  simpl. by destruct (inv_map_list _ Hinv _ _ Hk) as [_ ->].
Qed.

Lemma dropExisting_miss (nm : string) (fs : memoryCacheFilesystem) :
  cache fs !! nm = None → dropExisting nm fs = fs.
Proof. intros E. unfold dropExisting. by rewrite E. Qed.

(** ** LRU capacity and ordering *)

(** C1. For a capacity [N >= 1] and any execution (whole [Open] calls,
    inserts of requests that missed earlier, evictions by the
    invalidator), the ordering list never holds more than [N] entries; an
    insert into a full cache of a key that is absent evicts the element at
    the back of the list and nothing else; any other insert evicts nothing
    but the entry it replaces; and after an [Open] that returns a file, the
    entry it hit or inserted is at the front. *)
Theorem lru_capacity_and_order {Org : Type} `{!FileSystem Org}
    (N M : Z) (o : Org) (evs : list event) :
  1 ≤ N →
  let st := runEvents evs (NewCache N M, o) in
  Len (evictList st.1) ≤ N
  ∧ (∀ nm f, cache st.1 !! nm = None → Len (evictList st.1) = N →
       ∃ rest old,
         elems (evictList st.1) = rest ++ [old]
         ∧ elems (evictList (add nm f st.1).2) = newElement nm f st.1 :: rest)
  ∧ (∀ nm f, is_Some (cache st.1 !! nm) ∨ Len (evictList st.1) < N →
       elems (evictList (add nm f st.1).2) =
       newElement nm f st.1 :: elems (evictList (dropExisting nm st.1)))
  ∧ (∀ nm f st', Open nm st = (Ok f, st') → mru st'.1 = Some nm).
Proof.
  intros HN st.
  destruct (good_reach N M evs o) as (Hinv & _ & HmaxN & Hlen).
  subst st. destruct (runEvents evs (NewCache N M, o)) as [fs o0]. cbn [fst snd] in *.
  split; [lia|]. split; [|split].
  - intros nm f Hnone HlenN.
    destruct (elems (evictList fs)) as [|old rest _] eqn:El using rev_ind.
    { unfold Len in HlenN. rewrite El in HlenN. simpl in HlenN. lia. }
    exists rest, old. split; [done|].
    apply (add_evicts_back nm f _ rest old); rewrite ?(dropExisting_miss _ _ Hnone); auto. lia.
  - intros nm f Hcase.
    apply add_no_eviction; [done|].
    rewrite (Len_dropExisting _ _ Hinv), HmaxN.
    destruct Hcase as [[v ->]|Hlt]; [lia|].
    destruct (cache fs !! nm); lia.
  - intros nm f st' Hopen.
    destruct (cache fs !! nm) as [ent|] eqn:E.
    + rewrite (Open_hit _ _ _ _ E) in Hopen. injection Hopen as _ <-.
      by apply mru_promote.
    + rewrite (Open_miss _ _ _ E) in Hopen.
      destruct (fsOpen nm o0) as [[f0|e|m] o']; try discriminate.
      injection Hopen as _ <-. simpl. apply mru_add; [done|lia].
Qed.

(** ** A hit after a successful open *)

(** C2, amended. For a capacity [N >= 1], in any reachable state: when
    [Open k] returns a file, the entry for [k] is cached, and an [Open k]
    that follows at once returns a reader made by [readClone] from the
    cached file (offset 0, same bytes and metadata, equal to the first
    result), leaves the entry at the front, and leaves the origin
    untouched. *)
Theorem open_again_hits {Org : Type} `{!FileSystem Org}
    (N M : Z) (o : Org) (evs : list event) (nm : string) (f : file)
    (st1 : memoryCacheFilesystem * Org) :
  1 ≤ N →
  Open nm (runEvents evs (NewCache N M, o)) = (Ok f, st1) →
  ∃ ent b,
    cache st1.1 !! nm = Some ent
    ∧ buf (cfile (Value ent)) = Some b
    ∧ f = {| ReadSeeker := bytes.NewReader b; fi := fi (cfile (Value ent));
             buf := None |}
    ∧ Open nm st1 = (Ok f, (promote ent st1.1, st1.2))
    ∧ mru (promote ent st1.1) = Some nm.
Proof.
  intros HN Hopen.
  destruct (good_reach N M evs o) as (Hinv & _ & HmaxN & _).
  destruct (runEvents evs (NewCache N M, o)) as [fs o0]. cbn [fst snd] in *.
  assert (∃ ent, cache st1.1 !! nm = Some ent ∧ cache_inv st1.1
                 ∧ readClone (cfile (Value ent)) = Ok f) as (ent & Hk & Hinv1 & Hrc).
  { destruct (cache fs !! nm) as [ent|] eqn:E.
    - rewrite (Open_hit _ _ _ _ E) in Hopen. injection Hopen as Hrc <-.
      exists ent. split; [done|]. split; [|done].
      by apply (cache_inv_promote fs nm).
    - rewrite (Open_miss _ _ _ E) in Hopen.
      destruct (fsOpen nm o0) as [[f0|e|m] o']; try discriminate.
      injection Hopen as Hrc <-. exists (newElement nm f0 fs). simpl.
      split; [apply cache_add; [done|lia]|]. split; [by apply cache_inv_add|done]. }
  unfold readClone in Hrc.
  destruct (buf (cfile (Value ent))) as [b|] eqn:Hb; [|discriminate].
  injection Hrc as <-.
  exists ent, b. split; [done|]. split; [done|]. split; [done|]. split.
  - destruct st1 as [fs1 o1]. cbn [fst snd] in *.
    rewrite (Open_hit _ _ _ _ Hk). unfold readClone. by rewrite Hb.
  - by apply mru_promote.
Qed.

(** ** Replacing an entry *)

(** C7. Inserting a key that is present first removes the old entry
    altogether: its element leaves the ordering list, its key leaves the
    map, its record leaves the invalidator through [Del].  The insert then
    goes on exactly as an insert of an absent key into that state: a new
    element, with a new identity, is pushed at the front and registered
    through [Add]. *)
Theorem replace_is_fresh_insert (fs : memoryCacheFilesystem) (nm : string)
    (f : file) (v : Element) :
  cache_inv fs →
  cache fs !! nm = Some v →
  let fs1 := removeElement v fs in
  (v ∉ elems (evictList fs1))
  ∧ cache fs1 !! nm = None
  ∧ items (invalidator fs1) !! nm = None
  ∧ removed (invalidator fs1) !! nm = Some true
  ∧ add nm f fs = add nm f fs1
  ∧ (add nm f fs).2 = register nm f (evictIfOver (pushEntry nm f fs1))
  ∧ Front (evictList (pushEntry nm f fs1)) = Some (newElement nm f fs)
  ∧ eid (newElement nm f fs) ≠ eid v
  ∧ items (invalidator (add nm f fs).2) !! nm = Some (fi f)
  ∧ added (invalidator (add nm f fs).2) !! nm = Some true
  ∧ (1 ≤ maxItems fs →
     Front (evictList (add nm f fs).2) = Some (newElement nm f fs)
     ∧ cache (add nm f fs).2 !! nm = Some (newElement nm f fs)).
Proof.
  intros Hinv Hk fs1.
  destruct (inv_map_list _ Hinv _ _ Hk) as [Hin Hnm].
  assert (Hdrop : dropExisting nm fs = fs1).
  { unfold dropExisting. by rewrite Hk. }
  assert (Hnone : cache fs1 !! nm = None).
  { rewrite <- Hdrop. by apply dropExisting_absent. }
  split_and!.
  - unfold fs1. simpl. intros [Hs _]%list_elem_of_filter. by apply Hs.
  - done.
  - unfold fs1. simpl. rewrite Hnm. apply lookup_delete_eq.
  - unfold fs1. simpl. rewrite Hnm. apply lookup_insert_eq.
  - rewrite !add_stages, Hdrop. by rewrite (dropExisting_miss _ _ Hnone).
  - by rewrite add_stages, Hdrop.
  - rewrite <- (newElement_dropExisting nm f fs), Hdrop. reflexivity.
  - simpl. apply (inv_fresh _ Hinv) in Hin. lia.
  - rewrite add_stages. simpl. apply lookup_insert_eq.
  - rewrite add_stages. simpl. apply lookup_insert_eq.
  - intros HN. split; [by apply Front_add|by apply cache_add].
Qed.

(** ** The byte counter *)

(** C10. In every reachable state the counter [size] is the sum of the
    sizes of the files in the cache, reduced to [int64] (and equal to the
    sum itself whenever the sum fits in an [int64]); [get], [add] and
    [del] each keep it so. *)
Theorem size_counter_invariant {Org : Type} `{!FileSystem Org}
    (N M : Z) (o : Org) (evs : list event) (nm : string) (f : file) :
  let fs := (runEvents evs (NewCache N M, o)).1 in
  size fs = wrap64 (total (elems (evictList fs)))
  ∧ (- 2 ^ 63 ≤ total (elems (evictList fs)) < 2 ^ 63 →
     size fs = total (elems (evictList fs)))
  ∧ size_ok (get nm fs).2
  ∧ size_ok (add nm f fs).2
  ∧ size_ok (del nm fs).2.
Proof.
  intros fs.
  destruct (good_reach N M evs o) as (Hinv & Hs & _ & _). fold fs in Hinv, Hs.
  split; [done|]. split; [|split; [|split]].
  - intros Hr. rewrite Hs. by apply wrap64_small.
  - by apply size_ok_get.
  - by apply size_ok_add.
  - by apply size_ok_del.
Qed.

(** ** The sweep *)

Section sweep.
Context `{GoLib} {W : Type} `{!World W}.

Lemma check_sent (fi : fileInfo) (w : W) :
  urlParses (Name fi) = true →
  ∃ uptodate err,
    check fi w =
      (uptodate, err, Sent (headRequest fi) (replyOf (Do (headRequest fi) w).1),
       (Do (headRequest fi) w).2)
    ∧ match err with Some _ => true | None => uptodate end
      = keeps (replyOf (Do (headRequest fi) w).1).
Proof.
  intros Hurl. unfold check, NewRequest. rewrite Hurl.
  fold (headRequest fi).
  destruct (Do (headRequest fi) w) as [[res|e] w1]; simpl.
  - destruct (http.StatusCode res =? http.StatusNotModified) eqn:E1.
    + eexists _, _. split; [reflexivity|]. simpl.
      unfold http.StatusNotModified in E1. by rewrite E1.
    + unfold http.StatusNotModified, http.StatusRequestTimeout in *.
      rewrite E1. simpl.
      destruct ((http.StatusCode res =? 429) || (http.StatusCode res =? 408)) eqn:E2.
      * eexists _, _. split; [reflexivity|]. simpl.
        apply orb_true_iff in E2 as [->| ->]; by rewrite ?orb_true_r.
      * eexists _, _. split; [reflexivity|]. simpl.
        apply orb_false_iff in E2 as [-> ->]. done.
  - eexists _, _. split; reflexivity.
Qed.

Lemma delfn_same (nm : string) (fs : memoryCacheFilesystem) :
  cache_inv fs → cache (delfn nm fs) !! nm = None.
Proof.
  intros Hinv. unfold delfn, del.
  destruct (cache fs !! nm) as [ent|] eqn:E; [|done].
  simpl. destruct (inv_map_list _ Hinv _ _ E) as [_ ->].
  apply lookup_delete_eq.
Qed.

Lemma delfn_other (nm k : string) (fs : memoryCacheFilesystem) :
  cache_inv fs → k ≠ nm → cache (delfn nm fs) !! k = cache fs !! k.
Proof.
  intros Hinv Hne. unfold delfn, del.
  destruct (cache fs !! nm) as [ent|] eqn:E; [|done].
  simpl. destruct (inv_map_list _ Hinv _ _ E) as [_ ->].
  by apply lookup_delete_ne.
Qed.

Lemma cache_inv_delfn (nm : string) (fs : memoryCacheFilesystem) :
  cache_inv fs → cache_inv (delfn nm fs).
Proof. apply cache_inv_del. Qed.

Lemma check_unsent (fi : fileInfo) (w : W) :
  urlParses (Name fi) = false →
  check fi w
  = (false, Some (ErrTransport "parse"), NotSent (ErrTransport "parse"), w).
Proof. intros Hurl. unfold check, NewRequest. rewrite Hurl. reflexivity. Qed.

Lemma wire_cons (k : string) (fi : fileInfo) (l : list (string * fileInfo)) (w : W) :
  wire ((k, fi) :: l) w
  = if urlParses (Name fi) then
      ((k, Sent (headRequest fi) (replyOf (Do (headRequest fi) w).1))
         :: (wire l (Do (headRequest fi) w).2).1,
       (wire l (Do (headRequest fi) w).2).2)
    else ((k, NotSent (ErrTransport "parse")) :: (wire l w).1, (wire l w).2).
Proof. reflexivity. Qed.

Lemma wire_app (l1 l2 : list (string * fileInfo)) (w : W) :
  wire (l1 ++ l2) w
  = ((wire l1 w).1 ++ (wire l2 (wire l1 w).2).1, (wire l2 (wire l1 w).2).2).
Proof.
  revert w. induction l1 as [|[k fi] l1 IH]; intros w.
  - cbn. destruct (wire l2 w). reflexivity.
  - rewrite <- app_comm_cons, !wire_cons.
    destruct (urlParses (Name fi)); cbn [fst snd]; rewrite IH; reflexivity.
Qed.

(** The sweep puts on the wire what [wire] says, and evicts the key of a
    record exactly when the record was probed and the reply does not keep
    it. *)
Lemma sweep_wire (l : list (string * fileInfo)) (fs : memoryCacheFilesystem)
    (w : W) (cnt : Z) :
  cache_inv fs →
  NoDup l.*1 →
  ∃ fs' cnt',
    sweep delfn l fs w cnt = (fs', (wire l w).2, cnt', (wire l w).1)
    ∧ cache_inv fs'
    ∧ (∀ k, k ∉ l.*1 → cache fs' !! k = cache fs !! k)
    ∧ (∀ l1 k fi l2, l = l1 ++ (k, fi) :: l2 →
         cache fs' !! k
         = if urlParses (Name fi)
              && negb (keeps (replyOf (Do (headRequest fi) (wire l1 w).2).1))
           then None else cache fs !! k).
Proof.
  revert fs w cnt. induction l as [|[nm fi] l IH]; intros fs w cnt Hinv Hnd.
  - exists fs, cnt. split_and!; try done.
    intros l1 k fi l2 E. by destruct l1.
  - rewrite fmap_cons in Hnd. apply NoDup_cons in Hnd as [Hnm Hnd]. simpl in Hnm.
    set (ev := urlParses (Name fi)
               && negb (keeps (replyOf (Do (headRequest fi) w).1))).
    set (w1 := if urlParses (Name fi) then (Do (headRequest fi) w).2 else w).
    set (st1 := if ev then delfn nm fs else fs).
    set (cnt1 := if ev then wrap64 (cnt + 1) else cnt).
    assert (Hinv1 : cache_inv st1).
    { unfold st1. destruct ev; [by apply cache_inv_delfn|done]. }
    assert (Hstep : ∃ up err p,
               check fi w = (up, err, p, w1)
               ∧ (match err with
                  | Some _ => (fs, cnt)
                  | None =>
                      if negb up then (delfn nm fs, wrap64 (cnt + 1)) else (fs, cnt)
                  end) = (st1, cnt1)
               ∧ wire ((nm, fi) :: l) w = ((nm, p) :: (wire l w1).1, (wire l w1).2)).
    { unfold st1, cnt1, w1, ev. rewrite wire_cons.
      destruct (urlParses (Name fi)) eqn:Hurl.
      - destruct (check_sent fi w Hurl) as (up & err & Hck & Hkeep).
        exists up, err, (Sent (headRequest fi) (replyOf (Do (headRequest fi) w).1)).
        split; [exact Hck|]. split; [|reflexivity].
        rewrite <- Hkeep. cbn [andb]. destruct err; [reflexivity|].
        destruct up; reflexivity.
      - rewrite (check_unsent fi w Hurl).
        eexists _, _, _. split; [reflexivity|]. split; reflexivity. }
    destruct Hstep as (up & err & p & Hck & Hst & Hw).
    destruct (IH st1 w1 cnt1 Hinv1 Hnd) as (fs' & cnt' & Hsw & Hinv' & Hframe & Hall).
    exists fs', cnt'.
    assert (Hst1 : ∀ k, k ≠ nm → cache st1 !! k = cache fs !! k).
    { intros k Hne. unfold st1. destruct ev; [by apply delfn_other|done]. }
    split_and!.
    + cbn [sweep]. rewrite Hck, Hst, Hsw, Hw. reflexivity.
    + done.
    + intros k Hk. rewrite fmap_cons in Hk. apply not_elem_of_cons in Hk as [Hne Hk].
      rewrite (Hframe _ Hk). by apply Hst1.
    + intros l1 k fi' l2 E. destruct l1 as [|x l1].
      * cbn in E. injection E as <- <- <-. cbn [wire snd].
        rewrite (Hframe _ Hnm). unfold st1. fold ev.
        destruct ev; [by apply delfn_same|done].
      * rewrite <- app_comm_cons in E. injection E as <- El.
        assert (Hne : k ≠ nm).
        { intros ->. apply Hnm. rewrite El, fmap_app, fmap_cons.
          apply elem_of_app. right. left. }
        assert (Hw1 : (wire ((nm, fi) :: l1) w).2 = (wire l1 w1).2).
        { rewrite wire_cons. unfold w1. by destruct (urlParses (Name fi)). }
        rewrite Hw1, (Hall l1 k fi' l2 El), (Hst1 k Hne). reflexivity.
Qed.
End sweep.

Lemma canon_if_modified_since :
  http.CanonicalHeaderKey "If-Modified-Since" = "If-Modified-Since".
Proof. reflexivity. Qed.

Lemma canon_if_none_match :
  http.CanonicalHeaderKey "If-None-Match" = "If-None-Match".
Proof. reflexivity. Qed.

Lemma headRequest_shape `{GoLib} (fi : fileInfo) :
  http.Method (headRequest fi) = "HEAD"
  ∧ http.URL (headRequest fi) = basename fi
  ∧ http.ReqHeader (headRequest fi) !! "If-Modified-Since" = Some [FormatHTTP (modtime fi)]
  ∧ http.ReqHeader (headRequest fi) !! "If-None-Match" = Some [etag fi].
Proof.
  unfold headRequest, condHEAD, withHeader, http.Add. simpl.
  rewrite canon_if_modified_since, canon_if_none_match.
  split_and!; reflexivity.
Qed.

(** C3. In one pass of the invalidator, in whatever order [l] the snapshot
    is visited, the probes and the world after the pass are those of
    [wire]: the records are visited one after the other, each in the world
    the one before left behind.  A record whose URL [http.NewRequest]
    accepts is probed with one round trip of the HEAD request to its URL
    carrying [If-Modified-Since] (the record's mtime in HTTP date format)
    and [If-None-Match] (its etag); when that round trip is answered with
    status 304, 408 or 429, or fails, the cache entry of the key is as it
    was before the pass, and on any other status the key is absent from
    the cache afterwards.  For a record whose URL is rejected nothing is
    sent, the world stays as it is, and the cache entry stays.  The
    snapshot handed to the next pass is the one that was swept. *)
Theorem sweep_pass_statuses `{GoLib} {W : Type} `{!World W}
    (loc : runLocal) (fs : memoryCacheFilesystem) (w : W)
    (l : list (string * fileInfo)) :
  cache_inv fs →
  l ≡ₚ map_to_list (l_items (foldDeltas loc (invalidator fs)).1) →
  ∃ fs2,
    pass l (loc, fs, w)
    = ((foldDeltas loc (invalidator fs)).1, fs2, (wire l w).2, (wire l w).1)
    ∧ ∀ k fi, l_items (foldDeltas loc (invalidator fs)).1 !! k = Some fi →
        ∃ l1 l2,
          l = l1 ++ (k, fi) :: l2
          ∧ (urlParses (Name fi) = true →
             let r := Do (headRequest fi) (wire l1 w).2 in
             http.Method (headRequest fi) = "HEAD"
             ∧ http.URL (headRequest fi) = basename fi
             ∧ http.ReqHeader (headRequest fi) !! "If-Modified-Since"
               = Some [FormatHTTP (modtime fi)]
             ∧ http.ReqHeader (headRequest fi) !! "If-None-Match" = Some [etag fi]
             ∧ wire l w
               = ((wire l1 w).1
                    ++ (k, Sent (headRequest fi) (replyOf r.1)) :: (wire l2 r.2).1,
                  (wire l2 r.2).2)
             ∧ (keeps (replyOf r.1) = true → cache fs2 !! k = cache fs !! k)
             ∧ (keeps (replyOf r.1) = false → cache fs2 !! k = None))
          ∧ (urlParses (Name fi) = false →
             wire l w
             = ((wire l1 w).1
                  ++ (k, NotSent (ErrTransport "parse")) :: (wire l2 (wire l1 w).2).1,
                (wire l2 (wire l1 w).2).2)
             ∧ cache fs2 !! k = cache fs !! k).
Proof.
  intros Hinv Hperm. unfold pass.
  destruct (foldDeltas loc (invalidator fs)) as [loc1 ci1]. simpl in Hperm.
  destruct (sweep_wire l (setInvalidator ci1 fs) w 0)
    as (fs2 & cnt' & Hsw & _ & _ & Hall).
  - by apply cache_inv_setInvalidator.
  - rewrite Hperm. apply NoDup_fst_map_to_list.
  - exists fs2. rewrite Hsw. split; [reflexivity|].
    intros k fi Hk. cbn [fst] in Hk.
    assert (Hin : (k, fi) ∈ l) by (rewrite Hperm; by apply elem_of_map_to_list).
    apply list_elem_of_split in Hin as (l1 & l2 & El).
    exists l1, l2. split; [exact El|].
    pose proof (Hall l1 k fi l2 El) as Hc. cbn [setInvalidator cache] in Hc.
    split; intros Hurl; rewrite Hurl in Hc.
    + destruct (headRequest_shape fi) as (H1 & H2 & H3 & H4).
      cbn zeta. split_and!; try done.
      * rewrite El at 1. rewrite wire_app, wire_cons, Hurl. reflexivity.
      * intros Hkp. rewrite Hkp in Hc. exact Hc.
      * intros Hkp. rewrite Hkp in Hc. exact Hc.
    + split; [|exact Hc].
      rewrite El at 1. rewrite wire_app, wire_cons, Hurl. reflexivity.
Qed.

(** ** Folding the deltas *)

(** C4, at the failing input.  After [Add(ent)] and then [Del(ent)] on a new
    invalidator, the shared table has no record for the key, yet the fold
    of the next pass leaves the key in the local snapshot, mapped to the
    zero [fileInfo]. *)
Theorem fold_keeps_deleted_key (ent : centry) :
  let ci := ci_Del ent (ci_Add ent newCacheInvalidator) in
  items ci !! name ent = None
  ∧ l_items (foldDeltas runInit ci).1 !! name ent = Some zeroFileInfo
  ∧ added (foldDeltas runInit ci).2 = ∅
  ∧ removed (foldDeltas runInit ci).2 = ∅.
Proof.
  intros ci. unfold ci, foldDeltas, ci_Del, ci_Add, newCacheInvalidator, keys. simpl.
  rewrite !insert_empty, !map_to_list_singleton. simpl.
  rewrite !lookup_delete_eq. simpl.
  rewrite lookup_insert_eq, !delete_singleton_eq. done.
Qed.

(** ** The origin client *)

Lemma ReadAll_NewReader (b : list byte) :
  bytes.ReadAll (bytes.NewReader b) = (b, (bytes.ReadAll (bytes.NewReader b)).2).
Proof.
  unfold bytes.ReadAll, bytes.NewReader. simpl.
  destruct b as [|x b]; [reflexivity|].
  destruct (Z.of_nat (List.length (x :: b)) <=? 0) eqn:E; [|reflexivity].
  apply Z.leb_le in E. simpl in E. lia.
Qed.

Section origin_client.
Context `{GoLib} {W : Type} `{!World W}.

(** Sniffing leaves the reader where it was: at offset 0. *)
Lemma getContentType_rewinds (r : http.Response) (b : list byte) (nm : string) :
  ∃ ctype, getContentType r (bytes.NewReader b) nm = (inl ctype, bytes.NewReader b).
Proof.
  unfold getContentType.
  destruct (http.RespHeader r !! "Content-Type") as [[|c cs]|]; try by eexists.
  destruct (decide (TypeByExtension nm = "")); [|by eexists].
  unfold ReadFull, bytes.Read, bytes.NewReader. simpl.
  destruct (Z.of_nat (List.length b) <=? 0); by eexists.
Qed.

Lemma hex_md5_nonempty (b : list byte) : hex.EncodeToString (md5.Sum b) ≠ "".
Proof.
  unfold md5.Sum.
  destruct (md5.blocks _ _ _) as [[[a0 b0] c0] d0]. simpl. discriminate.
Qed.

Lemma getETag_NewReader (r : http.Response) (b : list byte) :
  (getETag r (bytes.NewReader b)).1 =
  let v := gostrings.Trim (http.Get (http.RespHeader r) "Etag") dquote in
  if decide (v = "") then hex.EncodeToString (md5.Sum b) else v.
Proof.
  unfold getETag. simpl.
  destruct (decide (gostrings.Trim _ _ = "")); [|done].
  by rewrite ReadAll_NewReader.
Qed.

Lemma Get_error (url : string) (w w' : W) (e : error) :
  Get url w = (inr e, w') → e ≠ ErrMissingFile.
Proof.
  unfold Get, NewRequest, Do.
  destruct (urlParses url).
  - destruct (RoundTrip _ w) as [[res|msg] w1]; intros [= <- <-]; discriminate.
  - intros [= <- <-]. discriminate.
Qed.

Lemma remote_Open_ok (fs : remoteFileSystem) (nm : string) (w w' : W) (f : file) :
  remote_Open fs nm w = (Ok f, w') →
  ∃ res,
    Get (origin fs ++ nm)%string w = (inl res, w')
    ∧ http.StatusCode res = 200
    ∧ 0 < http.ContentLength res
    ∧ buf f = Some (http.Body res)
    ∧ basename (fi f) = (origin fs ++ nm)%string
    ∧ etag (fi f) =
      (let v := gostrings.Trim (http.Get (http.RespHeader res) "Etag") dquote in
       if decide (v = "") then hex.EncodeToString (md5.Sum (http.Body res)) else v)
    ∧ etag (fi f) ≠ "".
Proof.
  unfold remote_Open.
  destruct (Get _ w) as [[res|e] w1]; [|discriminate].
  destruct (negb (http.StatusCode res =? http.StatusOK) || (http.ContentLength res <=? 0)) eqn:E;
    [discriminate|].
  apply orb_false_iff in E as [E1 E2].
  apply negb_false_iff, Z.eqb_eq in E1. apply Z.leb_gt in E2.
  destruct (http.BodyErr res); [discriminate|].
  destruct (getContentType_rewinds res (http.Body res) nm) as [ctype ->].
  pose proof (getETag_NewReader res (http.Body res)) as Htag.
  destruct (getETag res (bytes.NewReader (http.Body res))) as [tag rd2].
  intros [= <- <-]. exists res. simpl in *.
  split_and!; try done.
  rewrite Htag. destruct (decide _); [apply hex_md5_nonempty|done].
Qed.

Lemma remote_Open_missing (fs : remoteFileSystem) (nm : string) (w : W) :
  (remote_Open fs nm w).1 = Err ErrMissingFile ↔
  ∃ res w', Get (origin fs ++ nm)%string w = (inl res, w')
            ∧ (http.StatusCode res ≠ 200 ∨ http.ContentLength res ≤ 0).
Proof.
  unfold remote_Open.
  destruct (Get _ w) as [[res|e] w1] eqn:EG.
  - destruct (negb (http.StatusCode res =? http.StatusOK) || (http.ContentLength res <=? 0)) eqn:E.
    + split; [|done]. intros _. exists res, w1. split; [done|].
      apply orb_true_iff in E as [E|E].
      * left. apply negb_true_iff, Z.eqb_neq in E. done.
      * right. by apply Z.leb_le in E.
    + apply orb_false_iff in E as [E1 E2].
      apply negb_false_iff, Z.eqb_eq in E1. apply Z.leb_gt in E2.
      split.
      * destruct (http.BodyErr res); [discriminate|].
        destruct (getContentType_rewinds res (http.Body res) nm) as [ctype ->].
        destruct (getETag _ _). discriminate.
      * intros (res' & w' & [= <- <-] & [Hs|Hl]); [done|lia].
  - split.
    + simpl. intros [= ->]. by apply Get_error in EG.
    + intros (res' & w' & [=] & _).
Qed.
End origin_client.

(** ** The serve layer *)

Lemma canon_etag : http.CanonicalHeaderKey "ETag" = "Etag".
Proof. reflexivity. Qed.

Lemma serveFile_error {T : Type} `{!FileSystem T} (rw : ResponseWriter)
    (r : http.Request) (nm : string) (st st' : T) (e : error) :
  fsOpen nm st = (Err e, st') →
  serveFile rw r nm st = (Replied (http_NotFound rw), st')
  ∧ wStatus (http_NotFound rw) = Some 404.
Proof. intros E. unfold serveFile. rewrite E. done. Qed.

Lemma serveFile_etag {T : Type} `{!FileSystem T} (rw : ResponseWriter)
    (r : http.Request) (nm : string) (st st' : T) (g : file) :
  fsOpen nm st = (Ok g, st') →
  wHeader rw !! "ETag" = None →
  etag (fi g) ≠ "" →
  ∃ rw', serveFile rw r nm st
         = (ServeContent rw' (basename (fi g)) (modtime (fi g)) g, st')
         ∧ http.Get (wHeader rw') "ETag" = etag (fi g).
Proof.
  intros E Hnone Hne. unfold serveFile. rewrite E. simpl.
  set (w1 := match wHeader rw !! "Content-Type" with
             | Some _ => rw
             | None => if decide (contentType (fi g) ≠ "")
                       then setHeader rw "Content-Type" (contentType (fi g)) else rw
             end).
  assert (H1 : wHeader w1 !! "ETag" = None).
  { unfold w1. destruct (wHeader rw !! "Content-Type"); [done|].
    destruct (decide _); [|done]. simpl. unfold http.Set_.
    rewrite lookup_insert_ne; [done|]. vm_compute. discriminate. }
  rewrite H1. rewrite decide_True by done.
  eexists. split; [reflexivity|].
  simpl. unfold http.Get, http.Set_. rewrite canon_etag.
  by rewrite lookup_insert_eq.
Qed.

(** C5. For a fetch that succeeds, the blob's etag is the response's
    [ETag] header value with the double quotes at both ends trimmed and,
    when that is empty, the lower-case hex MD5 of the body; it is never
    empty.  The serve layer puts the etag of the file it serves into the
    [ETag] reply header when the writer holds none.  With body [abc] and no
    [ETag] header at the origin, the gateway replies with
    [ETag: 900150983cd24fb0d6963f7d28e17f72]. *)
Theorem etag_resolution `{GoLib} {W : Type} `{!World W}
    (fs : remoteFileSystem) (nm : string) (w w' : W) (f : file) :
  remote_Open fs nm w = (Ok f, w') →
  (∃ res,
     Get (origin fs ++ nm)%string w = (inl res, w')
     ∧ etag (fi f) =
       (let v := gostrings.Trim (http.Get (http.RespHeader res) "Etag") dquote in
        if decide (v = "") then hex.EncodeToString (md5.Sum (http.Body res)) else v)
     ∧ etag (fi f) ≠ "")
  ∧ (∀ (T : Type) (FS : FileSystem T) (rw : ResponseWriter) (r : http.Request)
       (k : string) (st st' : T) (g : file),
       fsOpen k st = (Ok g, st') →
       fi g = fi f →
       wHeader rw !! "ETag" = None →
       ∃ rw', serveFile rw r k st
              = (ServeContent rw' (basename (fi f)) (modtime (fi f)) g, st')
              ∧ http.Get (wHeader rw') "ETag" = etag (fi f))
  ∧ hex.EncodeToString (md5.Sum (list_byte_of_string "abc"))
    = "900150983cd24fb0d6963f7d28e17f72"
  ∧ http.Get
      (wHeader (servedWriter
         (@serveFile _ gatewayFS newResponseWriter (getRequest "/abc") "/abc" gateway).1))
      "ETag"
    = "900150983cd24fb0d6963f7d28e17f72".
Proof.
  intros Hopen.
  destruct (remote_Open_ok fs nm w w' f Hopen) as (res & HG & _ & _ & _ & _ & Htag & Hne).
  split_and!.
  - exists res. done.
  - intros T FS rw r k st st' g Hg Hfi Hnone.
    rewrite <- Hfi. apply serveFile_etag; auto. by rewrite Hfi.
  - vm_compute. reflexivity.
  - vm_compute. reflexivity.
Qed.

(** C6. The origin client answers [http.ErrMissingFile] exactly when the GET
    completes with a status other than 200 or with a declared length of
    zero or less.  A failed fetch leaves the cache as it was, so the next
    [Open] of that name goes to the origin again, and the serve layer
    replies 404 to each.  With [fakeFs] and a missing name: two requests,
    two 404 replies, two fetches. *)
Theorem not_found_is_not_cached `{GoLib} {W : Type} `{!World W} {Org : Type}
    `{!FileSystem Org} (rfs : remoteFileSystem) (nm : string) (w : W)
    (c : memoryCacheFilesystem) (o o' : Org) (e : error)
    (rw : ResponseWriter) (r : http.Request) :
  ((remote_Open rfs nm w).1 = Err ErrMissingFile ↔
   ∃ res w', Get (origin rfs ++ nm)%string w = (inl res, w')
             ∧ (http.StatusCode res ≠ 200 ∨ http.ContentLength res ≤ 0))
  ∧ (cache c !! nm = None → fsOpen nm o = (Err e, o') →
     Open nm (c, o) = (Err e, (c, o'))
     ∧ serveFile rw r nm (c, o) = (Replied (http_NotFound rw), (c, o'))
     ∧ wStatus (http_NotFound rw) = Some 404)
  ∧ (let st0 := (NewCache 2 64, newFakeFs) in
     let '(s1, st1) := serveFile newResponseWriter (getRequest "/missing") "/missing" st0 in
     let '(s2, st2) := serveFile newResponseWriter (getRequest "/missing") "/missing" st1 in
     wStatus (servedWriter s1) = Some 404
     ∧ wStatus (servedWriter s2) = Some 404
     ∧ openCnt st0.2 = 0 ∧ openCnt st1.2 = 1 ∧ openCnt st2.2 = 2
     ∧ st2.1 = st0.1).
Proof.
  split_and!.
  - apply remote_Open_missing.
  - intros Hnone Hfs.
    assert (Open nm (c, o) = (Err e, (c, o'))) as HO.
    { rewrite (Open_miss _ _ _ Hnone). by rewrite Hfs. }
    split; [done|].
    exact (serveFile_error (T := memoryCacheFilesystem * Org) rw r nm (c, o) (c, o') e HO).
  - vm_compute. split_and!; reflexivity.
Qed.

(** ** Admission *)

(** C9, amended. The client identifier is the first value of
    [X-Forwarded-For] when that value is not empty; otherwise (header
    absent, or present with an empty first value) it is the host part of
    the remote address, and a remote address that cannot be split ends the
    request with status 500.  A request whose bucket grants no token is
    answered with status 429 and the wrapped handler is not run: its state
    is returned unchanged. *)
Theorem admission_identifier `{GoLib} {L St : Type} `{!Limiter L}
    (h : Handler St) (rw : ResponseWriter) (r : http.Request) (l : L) (s0 : St) :
  let v := http.Get (http.ReqHeader r) "X-Forwarded-For" in
  (v ≠ "" → clientAddr r = (v, None))
  ∧ (v = "" → ∀ host port,
       SplitHostPort (http.RemoteAddr r) = inl (host, port) →
       clientAddr r = (host, None))
  ∧ (v = "" → ∀ msg,
       SplitHostPort (http.RemoteAddr r) = inr msg →
       clientAddr r = ("", Some (ErrAddr msg))
       ∧ ratelimitHandler h rw r (l, s0)
         = (http_Error rw "Internal Server Error" 500, (l, s0)))
  ∧ (∀ host l', clientAddr r = (host, None) → Take host l = (false, l') →
       ratelimitHandler h rw r (l, s0) = (http_Error rw "Too many requests" 429, (l', s0))
       ∧ wStatus (http_Error rw "Too many requests" 429) = Some 429)
  ∧ (∀ host l', clientAddr r = (host, None) → Take host l = (true, l') →
       ratelimitHandler h rw r (l, s0) = ((h rw r s0).1, (l', (h rw r s0).2))).
Proof.
  intros v. split_and!.
  - intros Hv. unfold clientAddr. fold v. by rewrite decide_True.
  - intros Hv host port Hs. unfold clientAddr. fold v.
    rewrite decide_False by (intros Hn; by apply Hn). by rewrite Hs.
  - intros Hv msg Hs.
    assert (clientAddr r = ("", Some (ErrAddr msg))) as Hc.
    { unfold clientAddr. fold v.
      rewrite decide_False by (intros Hn; by apply Hn). by rewrite Hs. }
    split; [done|]. unfold ratelimitHandler. by rewrite Hc.
  - intros host l' Hc Ht. unfold ratelimitHandler. rewrite Hc, Ht. done.
  - intros host l' Hc Ht. unfold ratelimitHandler. rewrite Hc, Ht. simpl.
    by destruct (h rw r s0).
Qed.

(** ** Reader handles *)

Lemma apply_keeps_bytes (o : store.op) (r : bytes.Reader) :
  bytes.s (store.apply o r).2 = bytes.s r.
Proof.
  destruct o as [n|offset wh]; unfold store.apply, bytes.Read, bytes.Seek.
  - destruct (_ <=? _); reflexivity.
  - destruct (_ <? _); reflexivity.
Qed.

Lemma view_arrays (h h' : store.heap) (c : nat) :
  store.arrays h' = store.arrays h →
  store.cells h' !! c = store.cells h !! c →
  store.view h' c = store.view h c.
Proof. intros Ha Hc. unfold store.view. by rewrite Ha, Hc. Qed.

(** A call through a cell behaves as the call on the value it denotes,
    writes that cell only, and writes no array. *)
Lemma exec_spec (h : store.heap) (c : nat) (o : store.op) (r : bytes.Reader) :
  store.view h c = Some r →
  (store.exec c o h).1 = Some (store.apply o r).1
  ∧ store.view (store.exec c o h).2 c = Some (store.apply o r).2
  ∧ store.arrays (store.exec c o h).2 = store.arrays h
  ∧ ∀ c', c' ≠ c → store.cells (store.exec c o h).2 !! c' = store.cells h !! c'.
Proof.
  unfold store.view, store.exec.
  destruct (store.cells h !! c) as [k|] eqn:Ek; [|discriminate].
  destruct (store.arrays h !! store.arr k) as [bs|] eqn:Ea; [|discriminate].
  intros [= <-].
  pose proof (apply_keeps_bytes o {| bytes.s := bs; bytes.i := store.off k |}) as Hs.
  destruct (store.apply o _) as [res r'] eqn:Eap. simpl in *.
  split_and!; try done.
  - rewrite lookup_insert_eq. simpl. rewrite Ea.
    destruct r' as [s' i']. simpl in *. by subst.
  - intros c' Hne. by rewrite lookup_insert_ne.
Qed.

Lemma runCell_spec (os : list store.op) (h : store.heap) (c : nat) (r : bytes.Reader) :
  store.view h c = Some r →
  (store.runCell c os h).1 = Some <$> (store.runReader os r).1
  ∧ store.view (store.runCell c os h).2 c = Some (store.runReader os r).2
  ∧ store.arrays (store.runCell c os h).2 = store.arrays h
  ∧ ∀ c', c' ≠ c → store.cells (store.runCell c os h).2 !! c' = store.cells h !! c'.
Proof.
  revert h r. induction os as [|o os IH]; intros h r Hv; [done|].
  destruct (exec_spec h c o r Hv) as (H1 & H2 & H3 & H4).
  simpl.
  destruct (store.exec c o h) as [res h1]. simpl in *.
  destruct (store.apply o r) as [res' r1]. simpl in *.
  destruct (IH h1 r1 H2) as (I1 & I2 & I3 & I4).
  destruct (store.runCell c os h1) as [rs h2]. simpl in *.
  destruct (store.runReader os r1) as [rs' r2]. simpl in *.
  split_and!.
  - rewrite H1, I1. reflexivity.
  - done.
  - by rewrite I3.
  - intros c' Hne. by rewrite I4, H4.
Qed.

Lemma side_cons {A} (b b' : bool) (x : A) (l : list (bool * A)) :
  store.side b ((b', x) :: l) =
  if decide (b' = b) then x :: store.side b l else store.side b l.
Proof.
  unfold store.side. rewrite filter_cons. simpl.
  by destruct (decide (b' = b)).
Qed.

Lemma runReader_cons (o : store.op) (os : list store.op) (r : bytes.Reader) :
  (store.runReader (o :: os) r).1
  = (store.apply o r).1 :: (store.runReader os (store.apply o r).2).1.
Proof.
  simpl. destruct (store.apply o r) as [res r1]. simpl.
  by destruct (store.runReader os r1).
Qed.

Lemma runSched_cons (c1 c2 : nat) (sd : bool) (o : store.op)
    (sched : list (bool * store.op)) (h : store.heap) :
  store.runSched c1 c2 ((sd, o) :: sched) h =
  let step := store.exec (if sd then c1 else c2) o h in
  ((sd, step.1) :: (store.runSched c1 c2 sched step.2).1,
   (store.runSched c1 c2 sched step.2).2).
Proof.
  simpl. destruct (store.exec _ o h) as [res h1]. simpl.
  by destruct (store.runSched c1 c2 sched h1).
Qed.

Lemma runSched_spec (sched : list (bool * store.op)) (h : store.heap)
    (c1 c2 : nat) (r1 r2 : bytes.Reader) :
  c1 ≠ c2 →
  store.view h c1 = Some r1 →
  store.view h c2 = Some r2 →
  store.arrays (store.runSched c1 c2 sched h).2 = store.arrays h
  ∧ store.side true (store.runSched c1 c2 sched h).1
    = Some <$> (store.runReader (store.side true sched) r1).1
  ∧ store.side false (store.runSched c1 c2 sched h).1
    = Some <$> (store.runReader (store.side false sched) r2).1.
Proof.
  intros Hne. revert h r1 r2.
  induction sched as [|[sd o] sched IH]; intros h r1 r2 Hv1 Hv2; [done|].
  rewrite runSched_cons. cbv zeta. cbn [fst snd].
  rewrite !side_cons. destruct sd.
  - destruct (exec_spec h c1 o r1 Hv1) as (H1 & H2 & H3 & H4).
    assert (Hv2' : store.view (store.exec c1 o h).2 c2 = Some r2).
    { rewrite <- Hv2. apply view_arrays; [done|]. apply H4. congruence. }
    destruct (IH _ _ r2 H2 Hv2') as (I1 & I2 & I3).
    destruct (decide (true = true)); [|done]. destruct (decide (true = false)); [done|].
    rewrite runReader_cons, fmap_cons, H1, I1, I2, I3, H3. done.
  - destruct (exec_spec h c2 o r2 Hv2) as (H1 & H2 & H3 & H4).
    assert (Hv1' : store.view (store.exec c2 o h).2 c1 = Some r1).
    { rewrite <- Hv1. apply view_arrays; [done|]. by apply H4. }
    destruct (IH _ r1 _ Hv1' H2) as (I1 & I2 & I3).
    destruct (decide (false = true)); [done|]. destruct (decide (false = false)); [|done].
    rewrite runReader_cons, fmap_cons, H1, I1, I2, I3, H3. done.
Qed.

Lemma readClone_spec (f : store.handle) (h : store.heap) (a : nat) (bs : list byte) :
  store.hbuf f = Some a →
  store.arrays h !! a = Some bs →
  ∃ g h',
    store.readClone f h = (Ok g, h')
    ∧ store.cells h !! store.hReader g = None
    ∧ store.view h' (store.hReader g) = Some (bytes.NewReader bs)
    ∧ store.hfi g = store.hfi f
    ∧ store.arrays h' = store.arrays h
    ∧ ∀ c, c ≠ store.hReader g → store.cells h' !! c = store.cells h !! c.
Proof.
  intros Hb Ha. unfold store.readClone, store.NewReader. rewrite Hb.
  eexists _, _. split; [reflexivity|]. simpl.
  set (c := fresh (dom (store.cells h))).
  assert (Hc : store.cells h !! c = None).
  { apply not_elem_of_dom. apply is_fresh. }
  split_and!; try done.
  - unfold store.view. simpl. rewrite lookup_insert_eq. simpl. by rewrite Ha.
  - intros c' Hne. by rewrite lookup_insert_ne.
Qed.

Lemma runReader_app (os1 os2 : list store.op) (r : bytes.Reader) :
  (store.runReader (os1 ++ os2) r).1 =
  (store.runReader os1 r).1 ++ (store.runReader os2 (store.runReader os1 r).2).1.
Proof.
  revert r. induction os1 as [|o os1 IH]; intros r; simpl.
  - by destruct (store.runReader os2 r).
  - destruct (store.apply o r) as [res r1].
    specialize (IH r1).
    destruct (store.runReader (os1 ++ os2) r1) as [rs r2].
    destruct (store.runReader os1 r1) as [rs1 r1'].
    simpl in *. by rewrite IH.
Qed.

(** C8. Two handles cloned from one blob (the second possibly after the
    first was already read from) are distinct reader cells over the blob's
    array, each born at offset 0.  Under any interleaving of reads and
    seeks on the two, no array of the store changes, and each handle
    returns exactly what a reader used alone over the same bytes would
    return for its own calls; in particular equal call sequences give
    equal byte sequences. *)
Theorem clones_are_independent (h : store.heap) (f : store.handle) (a : nat)
    (bs : list byte) (pre : list store.op) (sched : list (bool * store.op)) :
  store.hbuf f = Some a →
  store.arrays h !! a = Some bs →
  ∃ g1 h1 g2 h2,
    store.readClone f h = (Ok g1, h1)
    ∧ store.readClone f (store.runCell (store.hReader g1) pre h1).2 = (Ok g2, h2)
    ∧ store.hReader g1 ≠ store.hReader g2
    ∧ store.view h1 (store.hReader g1) = Some (bytes.NewReader bs)
    ∧ store.view h2 (store.hReader g2) = Some (bytes.NewReader bs)
    ∧ (bytes.ReadAll (bytes.NewReader bs)).1 = bs
    ∧ (store.runCell (store.hReader g1) pre h1).1
      = Some <$> (store.runReader pre (bytes.NewReader bs)).1
    ∧ let run := store.runSched (store.hReader g1) (store.hReader g2) sched h2 in
      store.arrays run.2 = store.arrays h
      ∧ (store.runCell (store.hReader g1) pre h1).1 ++ store.side true run.1
        = Some <$> (store.runReader (pre ++ store.side true sched)
                                    (bytes.NewReader bs)).1
      ∧ store.side false run.1
        = Some <$> (store.runReader (store.side false sched) (bytes.NewReader bs)).1
      ∧ (pre = [] → store.side true sched = store.side false sched →
         store.side true run.1 = store.side false run.1).
Proof.
  intros Hb Ha.
  destruct (readClone_spec f h a bs Hb Ha) as (g1 & h1 & Hc1 & Hf1 & Hv1 & _ & Ha1 & Ho1).
  destruct (runCell_spec pre h1 (store.hReader g1) _ Hv1) as (Hp1 & Hp2 & Hp3 & Hp4).
  set (h1' := (store.runCell (store.hReader g1) pre h1).2) in *.
  assert (Ha' : store.arrays h1' !! a = Some bs) by (by rewrite Hp3, Ha1).
  destruct (readClone_spec f h1' a bs Hb Ha') as (g2 & h2 & Hc2 & Hf2 & Hv2 & _ & Ha2 & Ho2).
  assert (Hne : store.hReader g1 ≠ store.hReader g2).
  { intros Heq. unfold store.view in Hp2. rewrite Heq, Hf2 in Hp2. discriminate. }
  assert (Hv1' : store.view h2 (store.hReader g1)
                 = Some (store.runReader pre (bytes.NewReader bs)).2).
  { rewrite <- Hp2. apply view_arrays; [done|]. by apply Ho2. }
  destruct (runSched_spec sched h2 _ _ _ _ Hne Hv1' Hv2) as (Hs1 & Hs2 & Hs3).
  exists g1, h1, g2, h2. cbv zeta. split_and!; try done.
  - by rewrite ReadAll_NewReader.
  - by rewrite Hs1, Ha2, Hp3.
  - rewrite Hp1, Hs2, runReader_app, fmap_app. done.
  - intros -> Heq. rewrite Hs2, Hs3, Heq. simpl. done.
Qed.

(** ** The scenarios of the test suite *)

(** [TestCache]: requests [file1, file1, file2, file3, file1] against a
    cache of two entries fetch [file1] twice and the others once. *)
Example lru_eviction_scenario :
  let st := runEvents [EOpen "file1"; EOpen "file1"; EOpen "file2";
                       EOpen "file3"; EOpen "file1"]
                      (NewCache 2 64, fakeOrigin3) in
  filesStat st.2 !! "file1" = Some 2
  ∧ filesStat st.2 !! "file2" = Some 1
  ∧ filesStat st.2 !! "file3" = Some 1
  ∧ ((λ e, name (Value e)) <$> elems (evictList st.1)) = ["file1"; "file3"]
  ∧ size st.1 = 10.
Proof. vm_compute. split_and!; reflexivity. Qed.

(** Three opens against a cache of two entries evict [file1] before the
    first pass: the fold then leaves [file1] in the snapshot with the zero
    record, though neither the cache nor the shared table holds it. *)
Example eviction_before_first_pass :
  let st := runEvents [EOpen "file1"; EOpen "file2"; EOpen "file3"]
                      (NewCache 2 64, fakeOrigin3) in
  cache st.1 !! "file1" = None
  ∧ items (invalidator st.1) !! "file1" = None
  ∧ l_items (foldDeltas runInit (invalidator st.1)).1 !! "file1" = Some zeroFileInfo.
Proof. vm_compute. split_and!; reflexivity. Qed.

(** ** The theorems at concrete inputs *)

Lemma lru_capacity_and_order_witness :
  1 ≤ 2
  ∧ Len (evictList (runEvents [EOpen "file1"; EOpen "file2"; EOpen "file3"]
                              (NewCache 2 64, fakeOrigin3)).1) ≤ 2.
Proof.
  split; [lia|].
  apply (lru_capacity_and_order 2 64 fakeOrigin3
           [EOpen "file1"; EOpen "file2"; EOpen "file3"]).
  lia.
Defined.

(** C2, without a bound on the capacity, fails for capacity 0: the first [Open]
    returns the file, and the [Open] that follows at once goes to the
    origin again (its counter moves from 1 to 2). *)
Lemma zero_capacity_refetches :
  let st0 := (NewCache 0 64, fakeOrigin) in
  let st1 := (Open "file1" st0).2 in
  (Open "file1" st0).1 = Ok cloneOne
  ∧ openCnt st1.2 = 1
  ∧ (Open "file1" st1).1 = Ok cloneOne
  ∧ openCnt (Open "file1" st1).2.2 = 2
  ∧ (Open "file1" st1).2.2 ≠ st1.2.
Proof.
  vm_compute. split_and!; try reflexivity. discriminate.
Qed.

Lemma open_again_hits_witness :
  1 ≤ 2
  ∧ Open "file1" (runEvents [] (NewCache 2 64, fakeOrigin))
    = (Ok cloneOne, warmCache)
  ∧ ∃ ent b,
      cache warmCache.1 !! "file1" = Some ent
      ∧ buf (cfile (Value ent)) = Some b
      ∧ cloneOne = {| ReadSeeker := bytes.NewReader b; fi := fi (cfile (Value ent));
                      buf := None |}
      ∧ Open "file1" warmCache = (Ok cloneOne, (promote ent warmCache.1, warmCache.2))
      ∧ mru (promote ent warmCache.1) = Some "file1".
Proof.
  split; [lia|]. split; [vm_compute; reflexivity|].
  apply (open_again_hits 2 64 fakeOrigin [] "file1" cloneOne warmCache);
    [lia|vm_compute; reflexivity].
Defined.

Lemma sweep_pass_statuses_witness :
  cache_inv warmCache.1
  ∧ [("file1", fi (newFile "file1"))]
    ≡ₚ map_to_list (l_items (foldDeltas runInit (invalidator warmCache.1)).1)
  ∧ ∃ fs2,
      @pass exampleLib _ tableWorld_World [("file1", fi (newFile "file1"))]
        (runInit, warmCache.1, busyOrigin)
      = ((foldDeltas runInit (invalidator warmCache.1)).1, fs2,
         (@wire exampleLib _ tableWorld_World
            [("file1", fi (newFile "file1"))] busyOrigin).2,
         (@wire exampleLib _ tableWorld_World
            [("file1", fi (newFile "file1"))] busyOrigin).1).
Proof.
  assert (Hinv : cache_inv warmCache.1).
  { destruct (good_reach 2 64 [EOpen "file1"] fakeOrigin) as [Hinv _]. exact Hinv. }
  assert (Hperm : [("file1", fi (newFile "file1"))]
                  ≡ₚ map_to_list
                       (l_items (foldDeltas runInit (invalidator warmCache.1)).1)).
  { vm_compute. reflexivity. }
  split; [exact Hinv|]. split; [exact Hperm|].
  destruct (@sweep_pass_statuses exampleLib _ tableWorld_World runInit warmCache.1
              busyOrigin _ Hinv Hperm) as (fs2 & Ht & _).
  exists fs2. exact Ht.
Defined.

(** C3, read for every record of the snapshot, fails for a record whose
    name is no URL: [http.NewRequest] rejects [%zz], [check] returns its
    error before anything is sent, and the pass leaves the origin unasked
    and the entry in the cache. *)
Lemma unparsable_record_not_probed :
  l_items (foldDeltas runInit (invalidator oddCache.1)).1 !! "x"
  = Some (fi (newFile "%zz"))
  ∧ @urlParses escapeLib (Name (fi (newFile "%zz"))) = false
  ∧ (let '(loc1, fs2, w2, tr) :=
       @tick escapeLib _ tableWorld_World (runInit, oddCache.1, busyOrigin) in
     tr = [("x", NotSent (ErrTransport "parse"))]
     ∧ seen w2 = []
     ∧ cache fs2 !! "x" = cache oddCache.1 !! "x"
     ∧ is_Some (cache fs2 !! "x")
     ∧ l_items loc1 !! "x" = Some (fi (newFile "%zz"))).
Proof. vm_compute. split_and!; try reflexivity. eexists. reflexivity. Qed.

(** That pass, run: [file1] is probed once, the origin answers 429, and the
    entry stays in the cache and in the snapshot. *)
Example retained_on_429 :
  let '(loc1, fs2, w2, tr) :=
    @tick exampleLib _ tableWorld_World (runInit, warmCache.1, busyOrigin) in
  tr = [("file1", Sent (@headRequest exampleLib (fi (newFile "file1"))) (inl 429))]
  ∧ cache fs2 !! "file1" = cache warmCache.1 !! "file1"
  ∧ l_items loc1 !! "file1" = Some (fi (newFile "file1"))
  ∧ List.length (seen w2) = 1%nat.
Proof. vm_compute. split_and!; reflexivity. Qed.

Lemma etag_resolution_witness :
  @remote_Open exampleLib _ tableWorld_World {| origin := "http://origin" |}
    "/abc" originABC = (Ok blobABC, fetchABC.2)
  ∧ etag (fi blobABC) ≠ "".
Proof.
  assert (Hopen : @remote_Open exampleLib _ tableWorld_World
                    {| origin := "http://origin" |} "/abc" originABC
                  = (Ok blobABC, fetchABC.2)) by (vm_compute; reflexivity).
  split; [exact Hopen|].
  destruct (@etag_resolution exampleLib _ tableWorld_World _ _ _ _ _ Hopen)
    as [(res & _ & _ & Hne) _].
  exact Hne.
Defined.

Lemma not_found_is_not_cached_witness :
  cache (NewCache 2 64) !! "/missing" = None
  ∧ fsOpen "/missing" newFakeFs
    = (Err (ErrNew "not exist"), (fakeFs_Open "/missing" newFakeFs).2)
  ∧ Open "/missing" (NewCache 2 64, newFakeFs)
    = (Err (ErrNew "not exist"), (NewCache 2 64, (fakeFs_Open "/missing" newFakeFs).2)).
Proof.
  assert (H1 : cache (NewCache 2 64) !! "/missing" = None) by reflexivity.
  assert (H2 : fsOpen "/missing" newFakeFs
               = (Err (ErrNew "not exist"), (fakeFs_Open "/missing" newFakeFs).2))
    by reflexivity.
  split; [exact H1|]. split; [exact H2|].
  destruct (@not_found_is_not_cached exampleLib _ tableWorld_World _ _
              {| origin := "http://origin" |} "/missing" originABC
              (NewCache 2 64) newFakeFs (fakeFs_Open "/missing" newFakeFs).2
              (ErrNew "not exist") newResponseWriter (getRequest "/missing"))
    as (_ & Hc & _).
  destruct (Hc H1 H2) as [HO _]. exact HO.
Defined.

Lemma replace_is_fresh_insert_witness :
  cache_inv warmCache.1
  ∧ cache warmCache.1 !! "file1" = Some warmElement
  ∧ add "file1" (newFile "file1") warmCache.1
    = add "file1" (newFile "file1") (removeElement warmElement warmCache.1)
  ∧ eid (newElement "file1" (newFile "file1") warmCache.1) ≠ eid warmElement.
Proof.
  assert (Hinv : cache_inv warmCache.1).
  { destruct (good_reach 2 64 [EOpen "file1"] fakeOrigin) as [Hinv _]. exact Hinv. }
  assert (Hk : cache warmCache.1 !! "file1" = Some warmElement)
    by (vm_compute; reflexivity).
  split; [exact Hinv|]. split; [exact Hk|].
  destruct (replace_is_fresh_insert warmCache.1 "file1" (newFile "file1")
              warmElement Hinv Hk)
    as (_ & _ & _ & _ & Heq & _ & _ & Hid & _).
  split; [exact Heq|exact Hid].
Defined.

Lemma clones_are_independent_witness :
  store.hbuf handleABC = Some 7%nat
  ∧ store.arrays heapABC !! 7%nat = Some (list_byte_of_string "abc")
  ∧ ∃ g1 h1 g2 h2,
      store.readClone handleABC heapABC = (Ok g1, h1)
      ∧ store.readClone handleABC
          (store.runCell (store.hReader g1) [store.OpRead 2] h1).2 = (Ok g2, h2)
      ∧ store.hReader g1 ≠ store.hReader g2.
Proof.
  split; [reflexivity|]. split; [reflexivity|].
  destruct (clones_are_independent heapABC handleABC 7 (list_byte_of_string "abc")
              [store.OpRead 2]
              [(true, store.OpRead 5); (false, store.OpRead 1);
               (true, store.OpSeek 0 bytes.SeekStart); (false, store.OpRead 5)]
              eq_refl eq_refl)
    as (g1 & h1 & g2 & h2 & H1 & H2 & H3 & _).
  exists g1, h1, g2, h2. split; [exact H1|]. split; [exact H2|exact H3].
Defined.

(** Such a run: the second handle reads [a] and then
    [bc] while the first, already two bytes in, reads [c], rewinds and
    stays rewound; the array is untouched. *)
Example interleaved_reads :
  let '(g1, h1) := store.readClone handleABC heapABC in
  let c1 := match g1 with Ok g => store.hReader g | _ => 0%nat end in
  let '(out0, h1') := store.runCell c1 [store.OpRead 2] h1 in
  let '(g2, h2) := store.readClone handleABC h1' in
  let c2 := match g2 with Ok g => store.hReader g | _ => 0%nat end in
  let '(outs, h3) :=
    store.runSched c1 c2
      [(true, store.OpRead 5); (false, store.OpRead 1);
       (true, store.OpSeek 0 bytes.SeekStart); (false, store.OpRead 5)] h2 in
  out0 = [Some (store.DidRead (list_byte_of_string "ab") false)]
  ∧ store.side true outs
    = [Some (store.DidRead (list_byte_of_string "c") false);
       Some (store.DidSeek (Ok 0))]
  ∧ store.side false outs
    = [Some (store.DidRead (list_byte_of_string "a") false);
       Some (store.DidRead (list_byte_of_string "bc") false)]
  ∧ store.arrays h3 = store.arrays heapABC.
Proof. vm_compute. split_and!; reflexivity. Qed.

(** C9, read for every present header, fails for a request whose
    [X-Forwarded-For] header is
    present with an empty value: the identifier is the host of the remote
    address, not the header's first value. *)
Lemma empty_forwarded_for_ignored :
  http.ReqHeader emptyForwarded !! "X-Forwarded-For" = Some [""]
  ∧ @clientAddr exampleLib emptyForwarded = ("10.0.0.1", None)
  ∧ (@clientAddr exampleLib emptyForwarded).1 ≠ "".
Proof. vm_compute. split_and!; try reflexivity. discriminate. Qed.

Lemma admission_identifier_witness :
  http.Get (http.ReqHeader forwarded) "X-Forwarded-For" ≠ ""
  ∧ @clientAddr exampleLib forwarded = ("192.0.2.1", None)
  ∧ @Take _ countdown_Limiter "192.0.2.1" 0%nat = (false, 0%nat)
  ∧ @ratelimitHandler exampleLib _ _ countdown_Limiter countingHandler
      newResponseWriter forwarded (0%nat, 0%nat)
    = (http_Error newResponseWriter "Too many requests" 429, (0%nat, 0%nat)).
Proof.
  assert (Hv : http.Get (http.ReqHeader forwarded) "X-Forwarded-For" ≠ "")
    by (vm_compute; discriminate).
  assert (Ht : @Take _ countdown_Limiter "192.0.2.1" 0%nat = (false, 0%nat))
    by reflexivity.
  destruct (@admission_identifier exampleLib _ _ countdown_Limiter countingHandler
              newResponseWriter forwarded 0%nat 0%nat)
    as (Hid & _ & _ & Hdeny & _).
  pose proof (Hid Hv) as Hc.
  assert (Hc' : @clientAddr exampleLib forwarded = ("192.0.2.1", None)) by exact Hc.
  split; [exact Hv|]. split; [exact Hc'|]. split; [exact Ht|].
  destruct (Hdeny "192.0.2.1" 0%nat Hc' Ht) as [Hr _]. exact Hr.
Defined.

Lemma size_counter_invariant_witness :
  - 2 ^ 63 ≤ total (elems (evictList warmCache.1)) < 2 ^ 63
  ∧ size warmCache.1 = total (elems (evictList warmCache.1))
  ∧ size warmCache.1 = 5.
Proof.
  assert (Ht : total (elems (evictList warmCache.1)) = 5) by (vm_compute; reflexivity).
  assert (Hr : - 2 ^ 63 ≤ total (elems (evictList warmCache.1)) < 2 ^ 63)
    by (rewrite Ht; lia).
  destruct (size_counter_invariant 2 64 fakeOrigin [EOpen "file1"] "file1"
              (newFile "file1")) as (_ & Hsz & _).
  split; [exact Hr|]. split; [exact (Hsz Hr)|].
  exact (eq_trans (Hsz Hr) Ht).
Defined.

(** * Further properties of the code *)

(** ** The key order as an abstract LRU list *)

Lemma inv_same_name (fs : memoryCacheFilesystem) (e x : Element) :
  cache_inv fs → e ∈ elems (evictList fs) → x ∈ elems (evictList fs) →
  same e x ↔ name (Value x) = name (Value e).
Proof.
  intros I He Hx. unfold same. split; intros E.
  - rewrite (same_eid_eq _ x e (inv_nodup _ I) Hx He E). reflexivity.
  - pose proof (inv_list_map _ I _ He) as H1.
    pose proof (inv_list_map _ I _ Hx) as H2.
    rewrite E in H2. congruence.
Qed.

Lemma names_filter (l : list Element) (e : Element) :
  (∀ x, x ∈ l → same e x ↔ name (Value x) = name (Value e)) →
  (λ x, name (Value x)) <$> filter (λ x, ¬ same e x) l
  = filter (λ k, k ≠ name (Value e)) ((λ x, name (Value x)) <$> l).
Proof.
  induction l as [|a l IH]; intros Hl; [reflexivity|].
  assert (Hl' : ∀ x, x ∈ l → same e x ↔ name (Value x) = name (Value e))
    by (intros x Hx; apply Hl; right; exact Hx).
  specialize (IH Hl').
  pose proof (Hl a ltac:(left)) as Ha.
  rewrite fmap_cons, !filter_cons.
  destruct (decide (¬ same e a)) as [n|n];
    destruct (decide (name (Value a) ≠ name (Value e))) as [m|m].
  - rewrite fmap_cons, IH. reflexivity.
  - exfalso. apply n, Ha. destruct (decide (name (Value a) = name (Value e))); tauto.
  - exfalso. apply n. intros S. apply m, Ha, S.
  - exact IH.
Qed.

Lemma names_removeElement (fs : memoryCacheFilesystem) (ent : Element) :
  cache_inv fs → ent ∈ elems (evictList fs) →
  names (removeElement ent fs) = filter (λ k, k ≠ name (Value ent)) (names fs).
Proof.
  intros I He. unfold names. cbn.
  apply names_filter. intros x Hx. apply (inv_same_name fs); assumption.
Qed.

Lemma names_absent (fs : memoryCacheFilesystem) (nm : string) :
  cache_inv fs → cache fs !! nm = None →
  filter (λ k, k ≠ nm) (names fs) = names fs.
Proof.
  intros I Hn. apply filter_keep_all. intros k Hk.
  apply list_elem_of_fmap in Hk as (e & -> & He).
  intros E. pose proof (inv_list_map _ I _ He) as H1. rewrite E in H1. congruence.
Qed.

Lemma names_dropExisting (fs : memoryCacheFilesystem) (nm : string) :
  cache_inv fs → names (dropExisting nm fs) = filter (λ k, k ≠ nm) (names fs).
Proof.
  intros I. unfold dropExisting. destruct (cache fs !! nm) as [v|] eqn:E.
  - destruct (inv_map_list _ I _ _ E) as [Hv Hnm].
    rewrite names_removeElement by assumption. rewrite Hnm. reflexivity.
  - symmetry. apply names_absent; assumption.
Qed.

Lemma names_del (fs : memoryCacheFilesystem) (nm : string) :
  cache_inv fs → names (del nm fs).2 = filter (λ k, k ≠ nm) (names fs).
Proof.
  intros I. pose proof (names_dropExisting fs nm I) as H.
  unfold dropExisting in H. unfold del.
  destruct (cache fs !! nm); exact H.
Qed.

Lemma names_promote (fs : memoryCacheFilesystem) (nm : string) (ent : Element) :
  cache_inv fs → cache fs !! nm = Some ent →
  names (promote ent fs) = nm :: filter (λ k, k ≠ nm) (names fs).
Proof.
  intros I E. destruct (inv_map_list _ I _ _ E) as [He Hnm].
  unfold names. cbn [promote evictList].
  rewrite MoveToFront_elems by (try apply inv_nodup; assumption).
  rewrite fmap_cons, Hnm. f_equal.
  rewrite (names_filter _ ent), Hnm; [reflexivity|].
  intros x Hx. apply (inv_same_name fs); assumption.
Qed.

Lemma length_names (fs : memoryCacheFilesystem) :
  Z.of_nat (List.length (names fs)) = Len (evictList fs).
Proof. unfold names, Len. rewrite length_fmap. reflexivity. Qed.

Lemma list_last_cases {A} (l : list A) : l = [] ∨ ∃ rest old, l = rest ++ [old].
Proof. destruct l as [|x l _] using rev_ind; [left; reflexivity|right; eauto]. Qed.

Lemma names_add (N : Z) (nm : string) (f : file) (fs : memoryCacheFilesystem) :
  good N fs → names (add nm f fs).2 = lruStep N nm (names fs).
Proof.
  intros (I & _ & HN & HL). unfold lruStep.
  rewrite <- (names_dropExisting fs nm I).
  pose proof (Len_dropExisting nm fs I) as HL1.
  assert (HL1' : Len (evictList (dropExisting nm fs)) ≤ Z.max 0 N)
    by (destruct (cache fs !! nm); lia).
  pose proof (length_names (dropExisting nm fs)) as Hlen.
  destruct (Z_lt_dec (Len (evictList (dropExisting nm fs))) (maxItems fs)) as [Hlt|Hge].
  - unfold names at 1. rewrite add_no_eviction by assumption.
    rewrite fmap_cons. cbn [newElement Value name].
    rewrite take_ge; [reflexivity|]. cbn [List.length]. unfold names in *. lia.
  - destruct (list_last_cases (elems (evictList (dropExisting nm fs))))
      as [El|(rest & old & El)].
    + unfold Len in HL1', Hge. rewrite El in *. cbn in Hge.
      assert (Z.to_nat N = 0%nat) as -> by lia. rewrite take_0.
      unfold names. rewrite add_stages. cbn [snd register setInvalidator evictList].
      unfold evictIfOver.
      rewrite Len_pushEntry. unfold Len. rewrite El.
      cbn [pushEntry maxItems List.length]. rewrite maxItems_dropExisting.
      destruct (Z.ltb_spec (maxItems fs) (Z.of_nat 0 + 1)) as [_|?]; [|lia].
      unfold removeOldest, Back. cbn [pushEntry evictList PushFront snd elems].
      rewrite El. cbn [last removeElement evictList Remove elems].
      rewrite elems_pushEntry, El, filter_cons, filter_nil.
      destruct (decide _) as [n|_]; [|reflexivity].
      exfalso. apply n. reflexivity.
    + assert (Hlr : Len (evictList (dropExisting nm fs))
                    = Z.of_nat (List.length rest) + 1).
      { unfold Len. rewrite El, length_app. cbn. lia. }
      unfold names at 1.
      rewrite (add_evicts_back nm f fs rest old I) by (try lia; assumption).
      unfold names. rewrite El, !fmap_cons, fmap_app. cbn [newElement Value name].
      assert (Z.to_nat N = S (List.length ((λ e, name (Value e)) <$> rest))) as ->
        by (rewrite length_fmap; lia).
      rewrite firstn_cons. f_equal. rewrite take_app_length. reflexivity.
Qed.

Lemma names_get_hit (N : Z) (nm : string) (fs : memoryCacheFilesystem) :
  good N fs → is_Some (cache fs !! nm) →
  names (get nm fs).2 = lruStep N nm (names fs).
Proof.
  intros (I & _ & HN & HL) [ent E]. rewrite (get_hit _ _ _ E). cbn [snd].
  rewrite (names_promote fs nm ent I E). unfold lruStep.
  rewrite take_ge; [reflexivity|].
  pose proof (names_promote fs nm ent I E) as Hp.
  pose proof (length_names (promote ent fs)) as Hl.
  rewrite Hp, (Len_promote fs nm ent I E) in Hl.
  destruct (inv_map_list _ I _ _ E) as [He _].
  assert (0 < Len (evictList fs)).
  { unfold Len. destruct (elems (evictList fs)); [inversion He|cbn; lia]. }
  lia.
Qed.

Lemma NoDup_names (fs : memoryCacheFilesystem) : cache_inv fs → NoDup (names fs).
Proof.
  intros I. unfold names. apply NoDup_fmap_2_strong.
  - intros x y Hx Hy E.
    pose proof (inv_list_map _ I _ Hx) as H1.
    pose proof (inv_list_map _ I _ Hy) as H2.
    rewrite E in H1. congruence.
  - eapply NoDup_fmap_1, inv_nodup, I.
Qed.

Lemma cache_as_list (fs : memoryCacheFilesystem) :
  cache_inv fs →
  cache fs = list_to_map ((λ e, (name (Value e), e)) <$> elems (evictList fs)).
Proof.
  intros I. apply map_eq. intros k.
  assert (ND : NoDup ((λ e, (name (Value e), e)) <$> elems (evictList fs)).*1).
  { rewrite <- list_fmap_compose. exact (NoDup_names fs I). }
  destruct (cache fs !! k) as [e|] eqn:E; symmetry.
  - destruct (inv_map_list _ I _ _ E) as [He Hk]. subst k.
    apply elem_of_list_to_map_1; [exact ND|].
    apply list_elem_of_fmap. exists e. split; [reflexivity|exact He].
  - apply not_elem_of_list_to_map_1. intros Hk.
    apply list_elem_of_fmap in Hk as ([k' e] & Hkk & Hin). cbn in Hkk. subst k'.
    apply list_elem_of_fmap in Hin as (e' & Heq & He'). inversion Heq; subst.
    rewrite (inv_list_map _ I _ He') in E. discriminate.
Qed.

Lemma size_cache (fs : memoryCacheFilesystem) :
  cache_inv fs → base.size (cache fs) = List.length (elems (evictList fs)).
Proof.
  intros I. rewrite (cache_as_list fs I) at 1.
  rewrite map_size_list_to_map.
  - rewrite length_fmap. reflexivity.
  - rewrite <- list_fmap_compose. exact (NoDup_names fs I).
Qed.

(** Every use of a key, by [add] or by a hit, acts on the key order as a
    step of the abstract LRU list of capacity [maxItems]; a failed fetch
    leaves the cache as it was. *)
Theorem key_order_is_lru {Org : Type} `{!FileSystem Org}
    (N M : Z) (o : Org) (evs : list event) (nm : string) :
  let st := runEvents evs (NewCache N M, o) in
  (∀ f, names (add nm f st.1).2 = lruStep N nm (names st.1))
  ∧ (is_Some (cache st.1 !! nm) →
     names (Open nm st).2.1 = lruStep N nm (names st.1))
  ∧ (∀ f o', cache st.1 !! nm = None → fsOpen nm st.2 = (Ok f, o') →
       names (Open nm st).2.1 = lruStep N nm (names st.1))
  ∧ (∀ r o', cache st.1 !! nm = None → fsOpen nm st.2 = (r, o') →
       (∀ f, r ≠ Ok f) → (Open nm st).2.1 = st.1)
  ∧ Z.of_nat (List.length (names st.1)) ≤ Z.max 0 N.
Proof.
  intros st. pose proof (good_reach N M evs o) as G. fold st in G.
  destruct st as [fs o0]. cbn [fst snd] in *. split_and!.
  - intros f. apply names_add, G.
  - intros [ent E]. rewrite (Open_hit _ _ _ _ E). cbn [fst snd].
    rewrite <- (names_get_hit N nm fs G (ex_intro _ ent E)).
    rewrite (get_hit _ _ _ E). reflexivity.
  - intros f o' E Ho. rewrite (Open_miss _ _ _ E), Ho. cbn [fst snd].
    apply names_add, G.
  - intros r o' E Ho Hr. rewrite (Open_miss _ _ _ E), Ho.
    destruct r as [f|e|m]; [destruct (Hr f eq_refl)|reflexivity|reflexivity].
  - rewrite length_names. apply G.
Qed.

(** In every reachable state the map and the ordering list hold the same
    entries, each key once. *)
Theorem map_and_list_agree {Org : Type} `{!FileSystem Org}
    (N M : Z) (o : Org) (evs : list event) :
  let fs := (runEvents evs (NewCache N M, o)).1 in
  NoDup (names fs)
  ∧ (∀ k e, cache fs !! k = Some e ↔ e ∈ elems (evictList fs) ∧ name (Value e) = k)
  ∧ (∀ k, is_Some (cache fs !! k) ↔ k ∈ names fs)
  ∧ Z.of_nat (base.size (cache fs)) = Len (evictList fs).
Proof.
  intros fs. destruct (good_reach N M evs o) as (I & _). fold fs in I.
  split_and!.
  - exact (NoDup_names fs I).
  - intros k e. split.
    + apply (inv_map_list _ I).
    + intros [He <-]. apply (inv_list_map _ I), He.
  - intros k. split.
    + intros [e E]. destruct (inv_map_list _ I _ _ E) as [He <-].
      apply list_elem_of_fmap. exists e. split; [reflexivity|exact He].
    + intros Hk. apply list_elem_of_fmap in Hk as (e & -> & He).
      exists e. apply (inv_list_map _ I), He.
  - rewrite (size_cache fs I). reflexivity.
Qed.

(** [del] removes the named entry, and nothing else, from the map, the
    list and the invalidator; it reports whether the key was present, and
    a second call finds nothing. *)
Theorem del_effect {Org : Type} `{!FileSystem Org}
    (N M : Z) (o : Org) (evs : list event) (nm : string) :
  let fs := (runEvents evs (NewCache N M, o)).1 in
  let r := del nm fs in
  (r.1 = true ↔ is_Some (cache fs !! nm))
  ∧ cache r.2 = delete nm (cache fs)
  ∧ names r.2 = filter (λ k, k ≠ nm) (names fs)
  ∧ (cache fs !! nm = None → r.2 = fs)
  ∧ (∀ e, cache fs !! nm = Some e →
       Len (evictList r.2) = Len (evictList fs) - 1
       ∧ size r.2 = wrap64 (size fs - Size (info e))
       ∧ items (invalidator r.2) = delete nm (items (invalidator fs))
       ∧ removed (invalidator r.2) !! nm = Some true
       ∧ lastmod (invalidator r.2) = wrap64 (lastmod (invalidator fs) + 1))
  ∧ del nm r.2 = (false, r.2).
Proof.
  intros fs r. destruct (good_reach N M evs o) as (I & _). fold fs in I.
  subst r. split_and!.
  - unfold del. destruct (cache fs !! nm) eqn:E; cbn.
    + split; eauto.
    + split; [discriminate|]. intros [? ?]; discriminate.
  - unfold del. destruct (cache fs !! nm) as [e|] eqn:E; cbn [snd].
    + destruct (inv_map_list _ I _ _ E) as [_ Hn]. cbn. rewrite Hn. reflexivity.
    + symmetry. apply delete_id, E.
  - apply names_del, I.
  - intros E. unfold del. rewrite E. reflexivity.
  - intros e E. unfold del. rewrite E. cbn [snd].
    destruct (inv_map_list _ I _ _ E) as [He Hn]. split_and!.
    + apply Len_removeElement; assumption.
    + reflexivity.
    + cbn. rewrite Hn. reflexivity.
    + cbn. rewrite Hn. apply lookup_insert_eq.
    + reflexivity.
  - pose proof (delfn_same nm fs I) as Hs. unfold delfn in Hs.
    unfold del at 1. rewrite Hs. reflexivity.
Qed.

(** ** The invalidator's records and the cached entries *)

Lemma mirrors_removeElement (fs : memoryCacheFilesystem) (ent : Element) :
  mirrors fs → mirrors (removeElement ent fs).
Proof.
  intros Hm k. cbn.
  destruct (decide (k = name (Value ent))) as [->|Hk].
  - rewrite !lookup_delete_eq. reflexivity.
  - rewrite !lookup_delete_ne by congruence. apply Hm.
Qed.

Lemma mirrors_dropExisting (nm : string) (fs : memoryCacheFilesystem) :
  mirrors fs → mirrors (dropExisting nm fs).
Proof.
  intros Hm. unfold dropExisting. destruct (cache fs !! nm); [|exact Hm].
  apply mirrors_removeElement, Hm.
Qed.

Lemma mirrors_del (nm : string) (fs : memoryCacheFilesystem) :
  mirrors fs → mirrors (del nm fs).2.
Proof.
  intros Hm. unfold del. destruct (cache fs !! nm); [|exact Hm].
  apply mirrors_removeElement, Hm.
Qed.

Lemma mirrors_get (nm : string) (fs : memoryCacheFilesystem) :
  mirrors fs → mirrors (get nm fs).2.
Proof.
  intros Hm. unfold get. destruct (cache fs !! nm); exact Hm.
Qed.

Lemma mirrors_add (nm : string) (f : file) (fs : memoryCacheFilesystem) :
  cache_inv fs → 1 ≤ maxItems fs → mirrors fs → mirrors (add nm f fs).2.
Proof.
  intros I HN Hm k.
  destruct (decide (k = nm)) as [->|Hk].
  - rewrite (cache_add nm f fs I HN). rewrite add_stages. cbn.
    apply lookup_insert_eq.
  - pose proof (mirrors_dropExisting nm fs Hm) as Hm1.
    rewrite add_stages. cbn [snd register setInvalidator invalidator cache ci_Add items name].
    rewrite lookup_insert_ne by congruence.
    unfold evictIfOver.
    destruct (maxItems _ <? Len _).
    + unfold removeOldest. destruct (Back _) as [old|].
      * cbn [removeElement invalidator cache ci_Del items pushEntry].
        destruct (decide (k = name (Value old))) as [->|Hko].
        -- rewrite !lookup_delete_eq. reflexivity.
        -- rewrite !lookup_delete_ne by congruence.
           rewrite lookup_insert_ne by congruence. apply Hm1.
      * cbn [pushEntry invalidator cache].
        rewrite lookup_insert_ne by congruence. apply Hm1.
    + cbn [pushEntry invalidator cache].
      rewrite lookup_insert_ne by congruence. apply Hm1.
Qed.

Section mirror.
Context {Org : Type} `{!FileSystem Org}.

Lemma mirrors_runEvent (N : Z) (ev : event) (st : memoryCacheFilesystem * Org) :
  1 ≤ N → good N st.1 → mirrors st.1 → mirrors (runEvent st ev).1.
Proof.
  intros HN G Hm. destruct st as [fs o]. cbn [fst] in *.
  destruct G as (I & _ & HM & _).
  destruct ev as [nm|nm f|nm]; cbn [runEvent fst snd].
  - destruct (cache fs !! nm) as [ent|] eqn:E.
    + rewrite (Open_hit _ _ _ _ E). cbn [fst snd].
      pose proof (mirrors_get nm fs Hm) as Hg. rewrite (get_hit _ _ _ E) in Hg.
      exact Hg.
    + rewrite (Open_miss _ _ _ E).
      destruct (fsOpen nm o) as [[f|e|m] o']; cbn [fst snd]; try exact Hm.
      apply mirrors_add; [exact I|lia|exact Hm].
  - apply mirrors_add; [exact I|lia|exact Hm].
  - apply mirrors_del, Hm.
Qed.

Lemma mirrors_runEvents (N : Z) (evs : list event) (st : memoryCacheFilesystem * Org) :
  1 ≤ N → good N st.1 → mirrors st.1 → mirrors (runEvents evs st).1.
Proof.
  intros HN. revert st. induction evs as [|ev evs IH]; intros st G Hm; [exact Hm|].
  cbn. apply IH.
  - apply good_runEvent, G.
  - apply (mirrors_runEvent N); assumption.
Qed.

End mirror.

(** With a capacity of at least one, the invalidator's shared records are
    in every reachable state exactly the metadata of the cached entries. *)
Theorem invalidator_tracks_cache {Org : Type} `{!FileSystem Org}
    (N M : Z) (o : Org) (evs : list event) (k : string) :
  1 ≤ N →
  let fs := (runEvents evs (NewCache N M, o)).1 in
  items (invalidator fs) !! k = info <$> cache fs !! k.
Proof.
  intros HN fs. apply (mirrors_runEvents N evs (NewCache N M, o) HN).
  - apply good_NewCache.
  - intros k'. reflexivity.
Qed.

Lemma invalidator_tracks_cache_witness :
  1 ≤ 2
  ∧ items (invalidator warmCache.1) !! "file1" = info <$> cache warmCache.1 !! "file1".
Proof.
  split; [lia|].
  apply (invalidator_tracks_cache 2 64 fakeOrigin [EOpen "file1"] "file1"). lia.
Defined.

(** With a capacity of zero or less the cache never holds an entry, yet
    every insert leaves a record in the invalidator, which will probe the
    origin for a key that is not cached. *)
Theorem zero_capacity_tracks_uncached {Org : Type} `{!FileSystem Org}
    (N M : Z) (o : Org) (evs : list event) (nm : string) (f : file) :
  N ≤ 0 →
  let fs := (runEvents evs (NewCache N M, o)).1 in
  cache fs = ∅
  ∧ cache (add nm f fs).2 = ∅
  ∧ items (invalidator (add nm f fs).2) !! nm = Some (fi f).
Proof.
  intros HN fs. pose proof (good_reach N M evs o) as G. fold fs in G.
  assert (He : ∀ fs', good N fs' → cache fs' = ∅).
  { intros fs' (I & _ & _ & HL). apply map_empty. intros k.
    destruct (cache fs' !! k) as [e|] eqn:E; [|reflexivity].
    destruct (inv_map_list _ I _ _ E) as [Hin _].
    unfold Len in HL. destruct (elems (evictList fs')); [inversion Hin|].
    cbn in HL. lia. }
  split_and!.
  - apply He, G.
  - apply He, good_add, G.
  - rewrite add_stages. cbn. apply lookup_insert_eq.
Qed.

Lemma zero_capacity_tracks_uncached_witness :
  0 ≤ 0
  ∧ cache (add "file1" (newFile "file1") (NewCache 0 64)).2 = ∅
  ∧ items (invalidator (add "file1" (newFile "file1") (NewCache 0 64)).2) !! "file1"
    = Some (fi (newFile "file1")).
Proof.
  split; [lia|].
  destruct (zero_capacity_tracks_uncached 0 64 fakeOrigin [] "file1" (newFile "file1"))
    as (_ & H1 & H2); [lia|].
  split; [exact H1|exact H2].
Defined.

(** A lookup changes the order of the entries and nothing else. *)
Theorem get_effect {Org : Type} `{!FileSystem Org}
    (N M : Z) (o : Org) (evs : list event) (nm : string) :
  let fs := (runEvents evs (NewCache N M, o)).1 in
  let r := get nm fs in
  cache r.2 = cache fs
  ∧ size r.2 = size fs
  ∧ invalidator r.2 = invalidator fs
  ∧ elems (evictList r.2) ≡ₚ elems (evictList fs)
  ∧ r.1 = (λ e, readClone (cfile (Value e))) <$> cache fs !! nm
  ∧ (cache fs !! nm = None → r.2 = fs).
Proof.
  intros fs r. destruct (good_reach N M evs o) as (I & _). fold fs in I.
  subst r. destruct (cache fs !! nm) as [ent|] eqn:E.
  - rewrite (get_hit _ _ _ E). cbn [fst snd]. split_and!; try reflexivity.
    + destruct (inv_map_list _ I _ _ E) as [He _].
      pose proof (cache_inv_promote fs nm ent I E) as I'.
      apply NoDup_Permutation.
      * eapply NoDup_fmap_1, inv_nodup, I'.
      * eapply NoDup_fmap_1, inv_nodup, I.
      * intros x. cbn [promote evictList].
        rewrite MoveToFront_elems by (try apply inv_nodup; assumption).
        rewrite elem_of_cons, list_elem_of_filter. split.
        -- intros [->|[_ Hx]]; assumption.
        -- intros Hx. destruct (decide (same ent x)) as [S|S].
           ++ left. apply (same_eid_eq _ x ent (inv_nodup _ I) Hx He S).
           ++ right. split; assumption.
    + intros; discriminate.
  - rewrite (get_miss _ _ E). cbn [fst snd]. split_and!; reflexivity.
Qed.

(** ** The fold of [run] *)

Lemma foldRemoved_cons (a : string) (ks : list string)
    (its : gmap string fileInfo) (rem : gmap string bool) :
  foldRemoved (a :: ks) (its, rem) = foldRemoved ks (delete a its, delete a rem).
Proof. reflexivity. Qed.

Lemma foldAdded_cons (sh : gmap string fileInfo) (a : string) (ks : list string)
    (its : gmap string fileInfo) (ad : gmap string bool) :
  foldAdded sh (a :: ks) (its, ad)
  = foldAdded sh ks (<[a := default zeroFileInfo (sh !! a)]> its, delete a ad).
Proof. reflexivity. Qed.

(** Membership in [a :: ks] against membership in [ks]. *)
Ltac mem_cases :=
  match goal with
  | Hin : ?k ∈ ?ks, Hout : ¬ ?k ∈ ?a :: ?ks |- _ =>
      exfalso; apply Hout; right; exact Hin
  | Hin : ?k ∈ ?a :: ?ks, Hout : ¬ ?k ∈ ?ks |- _ =>
      apply elem_of_cons in Hin as [->|Hin]; [|contradiction]
  | Hout : ¬ ?k ∈ ?a :: ?ks |- _ =>
      assert (a ≠ k) by (intros ->; apply Hout; left)
  end.

Lemma foldRemoved_lookup (ks : list string) (its : gmap string fileInfo)
    (rem : gmap string bool) (k : string) :
  (foldRemoved ks (its, rem)).1 !! k = (if decide (k ∈ ks) then None else its !! k)
  ∧ (foldRemoved ks (its, rem)).2 !! k = (if decide (k ∈ ks) then None else rem !! k).
Proof.
  revert its rem. induction ks as [|a ks IH]; intros its rem.
  - cbn. split; reflexivity.
  - rewrite foldRemoved_cons. destruct (IH (delete a its) (delete a rem)) as [-> ->].
    clear IH. split; repeat case_decide; try reflexivity; mem_cases;
      first [apply lookup_delete_eq|apply lookup_delete_ne; assumption].
Qed.

Lemma foldAdded_lookup (sh : gmap string fileInfo) (ks : list string)
    (its : gmap string fileInfo) (ad : gmap string bool) (k : string) :
  (foldAdded sh ks (its, ad)).1 !! k
  = (if decide (k ∈ ks) then Some (default zeroFileInfo (sh !! k)) else its !! k)
  ∧ (foldAdded sh ks (its, ad)).2 !! k = (if decide (k ∈ ks) then None else ad !! k).
Proof.
  revert its ad. induction ks as [|a ks IH]; intros its ad.
  - cbn. split; reflexivity.
  - rewrite foldAdded_cons.
    destruct (IH (<[a := default zeroFileInfo (sh !! a)]> its) (delete a ad)) as [-> ->].
    clear IH. split; repeat case_decide; try reflexivity; mem_cases;
      first [apply lookup_insert_eq|apply lookup_delete_eq
            |apply lookup_insert_ne; assumption|apply lookup_delete_ne; assumption].
Qed.

Lemma elem_of_keys {A} (m : gmap string A) (k : string) :
  k ∈ keys m ↔ is_Some (m !! k).
Proof.
  unfold keys. rewrite list_elem_of_fmap. split.
  - intros ([k' v] & -> & Hin). apply elem_of_map_to_list in Hin. exists v. exact Hin.
  - intros [v Hv]. exists (k, v). split; [reflexivity|].
    apply elem_of_map_to_list, Hv.
Qed.

Lemma foldDeltas_taken (loc : runLocal) (ci : cacheInvalidator) :
  lastmod ci ≠ l_lastmod loc →
  foldDeltas loc ci =
  ({| l_items :=
        (foldAdded (items ci) (keys (added ci))
           ((foldRemoved (keys (removed ci)) (l_items loc, removed ci)).1,
            added ci)).1;
      l_lastmod := lastmod ci |},
   {| items := items ci;
      added :=
        (foldAdded (items ci) (keys (added ci))
           ((foldRemoved (keys (removed ci)) (l_items loc, removed ci)).1,
            added ci)).2;
      removed := (foldRemoved (keys (removed ci)) (l_items loc, removed ci)).2;
      lastmod := lastmod ci |}).
Proof.
  intros Hne. unfold foldDeltas. rewrite decide_True by exact Hne.
  destruct (foldRemoved _ _) as [its1 rem]. cbn [fst snd].
  destruct (foldAdded _ _ _) as [its2 ad]. reflexivity.
Qed.

Lemma foldDeltas_lookup (loc : runLocal) (ci : cacheInvalidator) (k : string) :
  lastmod ci ≠ l_lastmod loc →
  l_items (foldDeltas loc ci).1 !! k
  = (if decide (is_Some (added ci !! k))
     then Some (default zeroFileInfo (items ci !! k))
     else if decide (is_Some (removed ci !! k)) then None else l_items loc !! k)
  ∧ added (foldDeltas loc ci).2 !! k = None
  ∧ removed (foldDeltas loc ci).2 !! k = None.
Proof.
  intros Hne. rewrite (foldDeltas_taken loc ci Hne). cbn [fst snd l_items added removed].
  destruct (foldAdded_lookup (items ci) (keys (added ci))
              (foldRemoved (keys (removed ci)) (l_items loc, removed ci)).1
              (added ci) k) as [-> ->].
  destruct (foldRemoved_lookup (keys (removed ci)) (l_items loc) (removed ci) k)
    as [-> ->].
  split_and!.
  - destruct (decide (k ∈ keys (added ci))) as [Ha|Ha];
      destruct (decide (is_Some (added ci !! k))) as [Ha'|Ha'];
      try (exfalso; apply elem_of_keys in Ha; contradiction);
      try (exfalso; apply elem_of_keys in Ha'; contradiction);
      [reflexivity|].
    destruct (decide (k ∈ keys (removed ci))) as [Hr|Hr];
      destruct (decide (is_Some (removed ci !! k))) as [Hr'|Hr'];
      try (exfalso; apply elem_of_keys in Hr; contradiction);
      try (exfalso; apply elem_of_keys in Hr'; contradiction);
      reflexivity.
  - destruct (decide (k ∈ keys (added ci))) as [Ha|Ha]; [reflexivity|].
    destruct (added ci !! k) eqn:E; [|reflexivity].
    exfalso. apply Ha, elem_of_keys. eauto.
  - destruct (decide (k ∈ keys (removed ci))) as [Hr|Hr]; [reflexivity|].
    destruct (removed ci !! k) eqn:E; [|reflexivity].
    exfalso. apply Hr, elem_of_keys. eauto.
Qed.

(** The fold of a wake-up whose version differs: a key marked added gets
    the shared record (the zero record when there is none), a key marked
    only removed leaves the snapshot, every other key stays; both delta
    sets are emptied and the version is copied. *)
Theorem fold_deltas_effect (loc : runLocal) (ci : cacheInvalidator) :
  lastmod ci ≠ l_lastmod loc →
  let r := foldDeltas loc ci in
  (∀ k, l_items r.1 !! k
        = if decide (is_Some (added ci !! k))
          then Some (default zeroFileInfo (items ci !! k))
          else if decide (is_Some (removed ci !! k)) then None
               else l_items loc !! k)
  ∧ l_lastmod r.1 = lastmod ci
  ∧ added r.2 = ∅
  ∧ removed r.2 = ∅
  ∧ items r.2 = items ci
  ∧ lastmod r.2 = lastmod ci
  ∧ foldDeltas r.1 r.2 = r.
Proof.
  intros Hne r. subst r. split_and!.
  - intros k. apply foldDeltas_lookup, Hne.
  - rewrite (foldDeltas_taken loc ci Hne). reflexivity.
  - apply map_empty. intros k. apply foldDeltas_lookup, Hne.
  - apply map_empty. intros k. apply foldDeltas_lookup, Hne.
  - rewrite (foldDeltas_taken loc ci Hne). reflexivity.
  - rewrite (foldDeltas_taken loc ci Hne). reflexivity.
  - assert (Hv : lastmod (foldDeltas loc ci).2 = l_lastmod (foldDeltas loc ci).1)
      by (rewrite (foldDeltas_taken loc ci Hne); reflexivity).
    destruct (foldDeltas loc ci) as [loc1 ci1]. cbn [fst snd] in *.
    unfold foldDeltas. rewrite decide_False by (intros X; apply X, Hv). reflexivity.
Qed.

Lemma fold_deltas_effect_witness :
  lastmod (ci_Add {| cfile := newFile "file1"; name := "file1" |} newCacheInvalidator)
  ≠ l_lastmod runInit
  ∧ l_items (foldDeltas runInit
       (ci_Add {| cfile := newFile "file1"; name := "file1" |} newCacheInvalidator)).1
    !! "file1" = Some (fi (newFile "file1")).
Proof.
  assert (Hne : lastmod (ci_Add {| cfile := newFile "file1"; name := "file1" |}
                           newCacheInvalidator) ≠ l_lastmod runInit)
    by (vm_compute; discriminate).
  split; [exact Hne|].
  destruct (fold_deltas_effect runInit _ Hne) as (Hk & _).
  rewrite (Hk "file1"). reflexivity.
Defined.

(** Go leaves the order in which [range] visits a map open: the two loops
    of the fold give the same result in every order. *)
Theorem fold_order_irrelevant (sh : gmap string fileInfo) (ks ks' : list string)
    (st : gmap string fileInfo * gmap string bool) :
  ks ≡ₚ ks' →
  foldRemoved ks st = foldRemoved ks' st ∧ foldAdded sh ks st = foldAdded sh ks' st.
Proof.
  intros Hp. destruct st as [its m].
  assert (Hd : ∀ k (X Y : option fileInfo),
             (if decide (k ∈ ks) then X else Y) = (if decide (k ∈ ks') then X else Y)).
  { intros k X Y. destruct (decide (k ∈ ks)) as [Hin|Hin];
      destruct (decide (k ∈ ks')) as [Hin'|Hin']; try reflexivity; exfalso.
    - apply Hin'. rewrite <- Hp. exact Hin.
    - apply Hin. rewrite Hp. exact Hin'. }
  assert (Hb : ∀ k (X Y : option bool),
             (if decide (k ∈ ks) then X else Y) = (if decide (k ∈ ks') then X else Y)).
  { intros k X Y. destruct (decide (k ∈ ks)) as [Hin|Hin];
      destruct (decide (k ∈ ks')) as [Hin'|Hin']; try reflexivity; exfalso.
    - apply Hin'. rewrite <- Hp. exact Hin.
    - apply Hin. rewrite Hp. exact Hin'. }
  split.
  - rewrite (surjective_pairing (foldRemoved ks (its, m))),
            (surjective_pairing (foldRemoved ks' (its, m))).
    f_equal; apply map_eq; intros k.
    + destruct (foldRemoved_lookup ks its m k) as [-> _].
      destruct (foldRemoved_lookup ks' its m k) as [-> _]. apply Hd.
    + destruct (foldRemoved_lookup ks its m k) as [_ ->].
      destruct (foldRemoved_lookup ks' its m k) as [_ ->]. apply Hb.
  - rewrite (surjective_pairing (foldAdded sh ks (its, m))),
            (surjective_pairing (foldAdded sh ks' (its, m))).
    f_equal; apply map_eq; intros k.
    + destruct (foldAdded_lookup sh ks its m k) as [-> _].
      destruct (foldAdded_lookup sh ks' its m k) as [-> _]. apply Hd.
    + destruct (foldAdded_lookup sh ks its m k) as [_ ->].
      destruct (foldAdded_lookup sh ks' its m k) as [_ ->]. apply Hb.
Qed.

Lemma fold_order_irrelevant_witness :
  ["a"; "b"] ≡ₚ ["b"; "a"]
  ∧ foldRemoved ["a"; "b"] ({["a" := zeroFileInfo]}, {["b" := true]})
    = foldRemoved ["b"; "a"] ({["a" := zeroFileInfo]}, {["b" := true]}).
Proof.
  assert (Hp : ["a"; "b"] ≡ₚ ["b"; "a"]) by apply perm_swap.
  split; [exact Hp|].
  exact (proj1 (fold_order_irrelevant ∅ _ _ ({["a" := zeroFileInfo]}, {["b" := true]}) Hp)).
Defined.

(** ** The snapshot in every execution of the invalidator *)

Lemma ciRun_snoc (ops : list ciOp) (op : ciOp) :
  ciRun (ops ++ [op]) = ciStep (ciRun ops) op.
Proof. unfold ciRun. rewrite foldl_app. reflexivity. Qed.

Lemma synced_init : synced runInit newCacheInvalidator.
Proof.
  split.
  - intros k _ _. left. reflexivity.
  - intros k _ _. reflexivity.
Qed.

Lemma synced_Add (loc : runLocal) (ci : cacheInvalidator) (ent : centry) :
  synced loc ci → synced loc (ci_Add ent ci).
Proof.
  intros [J1 J2].
  split; intros k; cbn [ci_Add added removed items];
    (destruct (decide (k = name ent)) as [->|Hk];
     [rewrite lookup_insert_eq; discriminate|]);
    rewrite !lookup_insert_ne by congruence.
  - intros Ha Hr. destruct (J1 k Ha Hr) as [E|[E1 E2]]; [left|right]; cbn;
      rewrite ?lookup_insert_ne by congruence; auto.
  - apply J2.
Qed.

Lemma synced_Del (loc : runLocal) (ci : cacheInvalidator) (ent : centry) :
  synced loc ci → synced loc (ci_Del ent ci).
Proof.
  intros [J1 J2].
  split; intros k; cbn [ci_Del added removed items].
  - destruct (decide (k = name ent)) as [->|Hk];
      [rewrite lookup_insert_eq; discriminate|].
    rewrite !lookup_insert_ne by congruence.
    intros Ha Hr. destruct (J1 k Ha Hr) as [E|[E1 E2]]; [left|right]; cbn;
      rewrite ?lookup_delete_ne by congruence; auto.
  - destruct (decide (k = name ent)) as [->|Hk].
    + intros _ _. apply lookup_delete_eq.
    + rewrite lookup_insert_ne, lookup_delete_ne by congruence. apply J2.
Qed.

Lemma fold_agrees (loc : runLocal) (ci : cacheInvalidator) (k : string) :
  synced loc ci → lastmod ci ≠ l_lastmod loc →
  agrees (foldDeltas loc ci).1 ci k.
Proof.
  intros [J1 J2] Hne.
  destruct (foldDeltas_lookup loc ci k Hne) as (Hl & _ & _).
  unfold agrees. rewrite Hl.
  destruct (decide (is_Some (added ci !! k))) as [Ha|Ha].
  - destruct (items ci !! k); [left|right]; auto.
  - assert (Ha' : added ci !! k = None)
      by (destruct (added ci !! k); [exfalso; apply Ha; eauto|reflexivity]).
    destruct (decide (is_Some (removed ci !! k))) as [Hr|Hr].
    + left. symmetry. apply J2; assumption.
    + apply J1; [exact Ha'|].
      destruct (removed ci !! k); [exfalso; apply Hr; eauto|reflexivity].
Qed.

Lemma synced_fold (loc : runLocal) (ci : cacheInvalidator) :
  synced loc ci → synced (foldDeltas loc ci).1 (foldDeltas loc ci).2.
Proof.
  intros J. destruct (decide (lastmod ci = l_lastmod loc)) as [He|Hne].
  - unfold foldDeltas. rewrite decide_False by (intros X; apply X, He). exact J.
  - assert (Hi : items (foldDeltas loc ci).2 = items ci)
      by (rewrite (foldDeltas_taken loc ci Hne); reflexivity).
    split; intros k.
    + intros _ _. pose proof (fold_agrees loc ci k J Hne) as Hag.
      unfold agrees in *. rewrite Hi. exact Hag.
    + intros _ [v Hv].
      destruct (foldDeltas_lookup loc ci k Hne) as (_ & _ & Hr).
      rewrite Hr in Hv. discriminate.
Qed.

Lemma ciRun_inv (ops : list ciOp) : synced (ciRun ops).1 (ciRun ops).2.
Proof.
  induction ops as [|op ops IH] using rev_ind; [exact synced_init|].
  rewrite ciRun_snoc. destruct (ciRun ops) as [loc ci]. cbn [fst snd] in IH.
  destruct op as [ent|ent|]; cbn [ciStep fst snd].
  - apply synced_Add, IH.
  - apply synced_Del, IH.
  - apply synced_fold, IH.
Qed.

(** In every execution of the invalidator, the snapshot a fold produces
    holds every record of the shared table unchanged; whatever else it
    holds is a zero record. *)
Theorem snapshot_after_fold (ops : list ciOp) (k : string) :
  let st := ciRun ops in
  lastmod st.2 ≠ l_lastmod st.1 →
  let r := foldDeltas st.1 st.2 in
  (∀ fi, items st.2 !! k = Some fi → l_items r.1 !! k = Some fi)
  ∧ (items st.2 !! k = None →
     l_items r.1 !! k = None ∨ l_items r.1 !! k = Some zeroFileInfo).
Proof.
  intros st Hne r.
  pose proof (fold_agrees st.1 st.2 k (ciRun_inv ops) Hne) as J1.
  fold r in J1. unfold agrees in J1. split.
  - intros fi0 E. destruct J1 as [J|[J _]]; congruence.
  - intros E. destruct J1 as [J|[_ J]]; [left; congruence|right; exact J].
Qed.

Lemma snapshot_after_fold_witness :
  lastmod (ciRun [OpAdd {| cfile := newFile "file1"; name := "file1" |}]).2
  ≠ l_lastmod (ciRun [OpAdd {| cfile := newFile "file1"; name := "file1" |}]).1
  ∧ l_items (foldDeltas
       (ciRun [OpAdd {| cfile := newFile "file1"; name := "file1" |}]).1
       (ciRun [OpAdd {| cfile := newFile "file1"; name := "file1" |}]).2).1
    !! "file1" = Some (fi (newFile "file1")).
Proof.
  assert (Hne : lastmod (ciRun [OpAdd {| cfile := newFile "file1"; name := "file1" |}]).2
                ≠ l_lastmod (ciRun [OpAdd {| cfile := newFile "file1"; name := "file1" |}]).1)
    by (vm_compute; discriminate).
  split; [exact Hne|].
  destruct (snapshot_after_fold [OpAdd {| cfile := newFile "file1"; name := "file1" |}]
              "file1" Hne) as [H1 _].
  apply H1. reflexivity.
Defined.

(** ** Passes of the invalidator *)

Section passes.
Context `{GoLib} {W : Type} `{!World W}.

Lemma check_kept (Inv : W → Prop) (fi : fileInfo) (w : W) :
  (∀ req w0, Inv w0 →
     Inv (Do req w0).2 ∧ keeps (replyOf (Do req w0).1) = true) →
  Inv w →
  ∃ uptodate err p w1,
    check fi w = (uptodate, err, p, w1)
    ∧ Inv w1
    ∧ match err with Some _ => true | None => uptodate end = true.
Proof.
  intros Hall Hw. destruct (urlParses (Name fi)) eqn:Hurl.
  - destruct (check_sent fi w Hurl) as (up & err & Hck & Hkeep).
    destruct (Hall (headRequest fi) w Hw) as [Hi Hk].
    eexists _, _, _, _. split; [exact Hck|]. split; [exact Hi|].
    rewrite Hkeep. exact Hk.
  - unfold check, NewRequest. rewrite Hurl.
    eexists _, _, _, _. split; [reflexivity|]. split; [exact Hw|reflexivity].
Qed.

Lemma sweep_kept {S : Type} (Inv : W → Prop) (del1 : string → S → S)
    (l : list (string * fileInfo)) (st : S) (w : W) (cnt : Z) :
  (∀ req w0, Inv w0 →
     Inv (Do req w0).2 ∧ keeps (replyOf (Do req w0).1) = true) →
  Inv w →
  ∃ w2 tr, sweep del1 l st w cnt = (st, w2, cnt, tr) ∧ Inv w2 ∧ tr.*1 = l.*1.
Proof.
  intros Hall. revert w. induction l as [|[nm fi] l IH]; intros w Hw.
  - exists w, []. split; [reflexivity|]. split; [exact Hw|reflexivity].
  - destruct (check_kept Inv fi w Hall Hw) as (up & err & p & w1 & Hck & Hw1 & Hk).
    destruct (IH w1 Hw1) as (w2 & tr & Hsw & Hw2 & Htr).
    exists w2, ((nm, p) :: tr). cbn [sweep]. rewrite Hck.
    assert ((match err with
             | Some _ => (st, cnt)
             | None => if negb up then (del1 nm st, wrap64 (cnt + 1)) else (st, cnt)
             end) = (st, cnt)) as ->.
    { destruct err; [reflexivity|]. cbn in Hk. rewrite Hk. reflexivity. }
    rewrite Hsw. split; [reflexivity|]. split; [exact Hw2|].
    rewrite !fmap_cons, Htr. reflexivity.
Qed.

End passes.

(** While the origin answers every probe with 304, 408 or 429, or cannot
    be reached, a sweep never calls the eviction callback: the swept
    state and the counter of invalidated entries are as before, and a
    whole pass changes nothing of the cache but the folded deltas. *)
Theorem sweep_without_change `{GoLib} {W : Type} `{!World W} {S : Type}
    (Inv : W → Prop) (del1 : string → S → S) (l : list (string * fileInfo))
    (st : S) (w : W) (cnt : Z) (loc : runLocal) (fs : memoryCacheFilesystem) :
  (∀ req w0, Inv w0 →
     Inv (Do req w0).2 ∧ keeps (replyOf (Do req w0).1) = true) →
  Inv w →
  (∃ w2 tr, sweep del1 l st w cnt = (st, w2, cnt, tr) ∧ Inv w2 ∧ tr.*1 = l.*1)
  ∧ (∃ w2 tr,
       pass l (loc, fs, w)
       = ((foldDeltas loc (invalidator fs)).1,
          setInvalidator (foldDeltas loc (invalidator fs)).2 fs, w2, tr)
       ∧ Inv w2).
Proof.
  intros Hall Hw. split.
  - apply (sweep_kept Inv); assumption.
  - unfold pass. destruct (foldDeltas loc (invalidator fs)) as [loc1 ci1].
    destruct (sweep_kept Inv delfn l (setInvalidator ci1 fs) w 0 Hall Hw)
      as (w2 & tr & Hsw & Hw2 & _).
    exists w2, tr. rewrite Hsw. split; [reflexivity|exact Hw2].
Qed.

Lemma sweep_without_change_witness :
  (table busyOrigin = table busyOrigin)
  ∧ ∃ w2 tr,
      @sweep exampleLib _ tableWorld_World _ delfn
        [("file1", fi (newFile "file1"))] warmCache.1 busyOrigin 0
      = (warmCache.1, w2, 0, tr).
Proof.
  split; [reflexivity|].
  destruct (@sweep_without_change exampleLib _ tableWorld_World _
              (λ w0, table w0 = table busyOrigin) delfn
              [("file1", fi (newFile "file1"))] warmCache.1 busyOrigin 0
              runInit warmCache.1) as [(w2 & tr & Hsw & _) _].
  - intros req w0 Hw0. unfold Do. cbn -[String.eqb tableLookup]. rewrite Hw0.
    unfold tableLookup. cbn -[String.eqb].
    destruct (_ && _); split; reflexivity.
  - reflexivity.
  - exists w2, tr. exact Hsw.
Defined.

(** An entry inserted since the last fold, whose URL [http.NewRequest]
    accepts, is probed in the next pass with the request built from its
    own metadata, in the world the probes before it left behind.  When
    that round trip is answered with 304, 408 or 429, or fails, the next
    [Open] is served from the cache; on any other answer the key is gone
    and the next [Open] asks the origin again. *)
Theorem inserted_entry_is_revalidated `{GoLib} {W : Type} `{!World W}
    {Org : Type} `{!FileSystem Org}
    (fs : memoryCacheFilesystem) (k : string) (f : file) (loc : runLocal) (w : W)
    (l : list (string * fileInfo)) :
  cache_inv fs →
  1 ≤ maxItems fs →
  let fs1 := (add k f fs).2 in
  lastmod (invalidator fs1) ≠ l_lastmod loc →
  l ≡ₚ map_to_list (l_items (foldDeltas loc (invalidator fs1)).1) →
  urlParses (Name (fi f)) = true →
  ∃ fs2 l1 l2,
    l = l1 ++ (k, fi f) :: l2
    ∧ pass l (loc, fs1, w)
      = ((foldDeltas loc (invalidator fs1)).1, fs2, (wire l w).2, (wire l w).1)
    ∧ let r := Do (headRequest (fi f)) (wire l1 w).2 in
      wire l w
      = ((wire l1 w).1
           ++ (k, Sent (headRequest (fi f)) (replyOf r.1)) :: (wire l2 r.2).1,
         (wire l2 r.2).2)
      ∧ (keeps (replyOf r.1) = true →
         ∀ o : Org, Open k (fs2, o)
                    = (readClone f, (promote (newElement k f fs) fs2, o)))
      ∧ (keeps (replyOf r.1) = false →
         cache fs2 !! k = None
         ∧ ∀ o : Org, Open k (fs2, o)
                      = match fsOpen k o with
                        | (Ok g, o') => (readClone g, ((add k g fs2).2, o'))
                        | (Err e, o') => (Err e, (fs2, o'))
                        | (Panic m, o') => (Panic m, (fs2, o'))
                        end).
Proof.
  intros I HN fs1 Hne Hperm Hurl.
  assert (I1 : cache_inv fs1) by (apply cache_inv_add, I).
  assert (Hc : cache fs1 !! k = Some (newElement k f fs)) by (apply cache_add; assumption).
  assert (Hit : items (invalidator fs1) !! k = Some (fi f)).
  { unfold fs1. rewrite add_stages. cbn. apply lookup_insert_eq. }
  assert (Had : added (invalidator fs1) !! k = Some true).
  { unfold fs1. rewrite add_stages. cbn. apply lookup_insert_eq. }
  clearbody fs1.
  destruct (foldDeltas_lookup loc (invalidator fs1) k Hne) as (Hl & _).
  rewrite decide_True in Hl by eauto. rewrite Hit in Hl.
  change (default zeroFileInfo (Some (fi f))) with (fi f) in Hl.
  unfold pass. destruct (foldDeltas loc (invalidator fs1)) as [loc1 ci1].
  cbn [fst snd] in *.
  assert (Hin : (k, fi f) ∈ l) by (rewrite Hperm; apply elem_of_map_to_list, Hl).
  apply list_elem_of_split in Hin as (l1 & l2 & El).
  destruct (sweep_wire l (setInvalidator ci1 fs1) w 0)
    as (fs2 & cnt2 & Hsw & _ & _ & Hall).
  - apply cache_inv_setInvalidator, I1.
  - rewrite Hperm. apply NoDup_fst_map_to_list.
  - pose proof (Hall l1 k (fi f) l2 El) as Hk.
    rewrite Hurl in Hk. cbn [setInvalidator cache andb] in Hk.
    exists fs2, l1, l2. rewrite Hsw.
    split; [exact El|]. split; [reflexivity|]. cbn zeta. split_and!.
    + rewrite El at 1. rewrite wire_app, wire_cons, Hurl. reflexivity.
    + intros Hkp o. rewrite Hkp in Hk. cbn [negb] in Hk.
      apply (Open_hit k fs2 o (newElement k f fs)). rewrite Hk. exact Hc.
    + intros Hkp. rewrite Hkp in Hk. cbn [negb] in Hk.
      split; [exact Hk|]. intros o. apply Open_miss, Hk.
Qed.

Lemma inserted_entry_is_revalidated_witness :
  1 ≤ maxItems (NewCache 2 64)
  ∧ ∃ fs2 l1 l2,
      [("file1", fi (newFile "file1"))] = l1 ++ ("file1", fi (newFile "file1")) :: l2
      ∧ @pass exampleLib _ tableWorld_World
          [("file1", fi (newFile "file1"))]
          (runInit, (add "file1" (newFile "file1") (NewCache 2 64)).2, busyOrigin)
        = ((foldDeltas runInit
              (invalidator (add "file1" (newFile "file1") (NewCache 2 64)).2)).1,
           fs2,
           (@wire exampleLib _ tableWorld_World
              [("file1", fi (newFile "file1"))] busyOrigin).2,
           (@wire exampleLib _ tableWorld_World
              [("file1", fi (newFile "file1"))] busyOrigin).1).
Proof.
  assert (HN : 1 ≤ maxItems (NewCache 2 64)) by (cbn; lia).
  split; [exact HN|].
  destruct (@inserted_entry_is_revalidated exampleLib _ tableWorld_World
              fakeFs _ (NewCache 2 64) "file1" (newFile "file1") runInit busyOrigin
              [("file1", fi (newFile "file1"))])
    as (fs2 & l1 & l2 & El & Hp & _).
  - apply cache_inv_NewCache.
  - exact HN.
  - vm_compute. discriminate.
  - vm_compute. reflexivity.
  - reflexivity.
  - exists fs2, l1, l2. split; [exact El|exact Hp].
Defined.

(** ** Blobs built by the origin client *)

Lemma Len_ReadAll (r : bytes.Reader) : bytes.Len (bytes.ReadAll r).2 = 0.
Proof.
  unfold bytes.ReadAll, bytes.Len.
  destruct (Z.of_nat (List.length (bytes.s r)) <=? bytes.i r) eqn:E; cbn [snd].
  - rewrite E. reflexivity.
  - cbn. rewrite Z.leb_refl. reflexivity.
Qed.

Lemma Len_NewReader (b : list byte) :
  bytes.Len (bytes.NewReader b) = Z.of_nat (List.length b).
Proof.
  unfold bytes.Len, bytes.NewReader. cbn.
  destruct (Z.of_nat (List.length b) <=? 0) eqn:E; [|lia].
  apply Z.leb_le in E. lia.
Qed.

Lemma ReadAll_twice (r : bytes.Reader) : (bytes.ReadAll (bytes.ReadAll r).2).1 = [].
Proof.
  unfold bytes.ReadAll.
  destruct (Z.of_nat (List.length (bytes.s r)) <=? bytes.i r) eqn:E; cbn [snd].
  - rewrite E. reflexivity.
  - cbn. rewrite Z.leb_refl. reflexivity.
Qed.

Section blobs.
Context `{GoLib} {W : Type} `{!World W}.

Lemma getContentType_value (r : http.Response) (b : list byte) (nm : string) :
  getContentType r (bytes.NewReader b) nm
  = (inl match http.RespHeader r !! "Content-Type" with
         | Some (c :: _) => c
         | Some [] => ""
         | None =>
             if decide (TypeByExtension nm = "")
             then DetectContentType (take sniffLen b)
             else TypeByExtension nm
         end,
     bytes.NewReader b).
Proof.
  unfold getContentType.
  destruct (http.RespHeader r !! "Content-Type") as [[|c cs]|]; try reflexivity.
  destruct (decide (TypeByExtension nm = "")); [|reflexivity].
  unfold ReadFull, bytes.Read, bytes.NewReader. cbn.
  destruct (Z.of_nat (List.length b) <=? 0) eqn:E; cbn.
  - apply Z.leb_le in E. destruct b; [reflexivity|cbn in E; lia].
  - reflexivity.
Qed.

Lemma getETag_reader (r : http.Response) (b : list byte) :
  (getETag r (bytes.NewReader b)).2
  = if decide (gostrings.Trim (http.Get (http.RespHeader r) "Etag") dquote = "")
    then (bytes.ReadAll (bytes.NewReader b)).2 else bytes.NewReader b.
Proof.
  unfold getETag. cbn zeta.
  destruct (decide (gostrings.Trim _ _ = "")); [|reflexivity].
  destruct (bytes.ReadAll (bytes.NewReader b)). reflexivity.
Qed.

Lemma remote_Open_blob (fs : remoteFileSystem) (nm : string) (w w' : W) (f : file) :
  remote_Open fs nm w = (Ok f, w') →
  ∃ res,
    Get (origin fs ++ nm)%string w = (inl res, w')
    ∧ f = {| ReadSeeker := (getETag res (bytes.NewReader (http.Body res))).2;
             buf := Some (http.Body res);
             fi := {| fsize := bytes.Len (getETag res (bytes.NewReader (http.Body res))).2;
                      modtime := getModtime res w';
                      basename := (origin fs ++ nm)%string;
                      contentType :=
                        match http.RespHeader res !! "Content-Type" with
                        | Some (c :: _) => c
                        | Some [] => ""
                        | None =>
                            if decide (TypeByExtension nm = "")
                            then DetectContentType (take sniffLen (http.Body res))
                            else TypeByExtension nm
                        end;
                      etag := (getETag res (bytes.NewReader (http.Body res))).1 |} |}.
Proof.
  unfold remote_Open.
  destruct (Get _ w) as [[res|e] w1]; [|discriminate].
  destruct (negb (http.StatusCode res =? http.StatusOK) || (http.ContentLength res <=? 0));
    [discriminate|].
  destruct (http.BodyErr res); [discriminate|].
  rewrite getContentType_value.
  destruct (getETag res (bytes.NewReader (http.Body res))) as [tag rd2] eqn:E.
  intros [= <- <-]. exists res. rewrite E. split; reflexivity.
Qed.

Lemma remote_Open_clone (fs : remoteFileSystem) (nm : string) (w w' : W) (f : file) :
  remote_Open fs nm w = (Ok f, w') →
  ∃ res,
    Get (origin fs ++ nm)%string w = (inl res, w')
    ∧ readClone f
      = Ok {| ReadSeeker := bytes.NewReader (http.Body res); fi := fi f; buf := None |}.
Proof.
  intros Ho. destruct (remote_Open_blob fs nm w w' f Ho) as (res & HG & ->).
  exists res. split; [exact HG|reflexivity].
Qed.

End blobs.

(** The blob of a successful fetch: content type from the header, else
    from the extension, else sniffed from the first 512 bytes; mtime from
    [Last-Modified], else the clock.  When the etag had to be computed the
    body has been read through: the recorded size is 0 and the handle is
    at its end, while [buf] still holds the whole body. *)
Theorem remote_blob_metadata `{GoLib} {W : Type} `{!World W}
    (fs : remoteFileSystem) (nm : string) (w w' : W) (f : file) :
  remote_Open fs nm w = (Ok f, w') →
  ∃ res,
    Get (origin fs ++ nm)%string w = (inl res, w')
    ∧ let v := gostrings.Trim (http.Get (http.RespHeader res) "Etag") dquote in
      fsize (fi f)
      = (if decide (v = "") then 0 else Z.of_nat (List.length (http.Body res)))
      ∧ (bytes.ReadAll (ReadSeeker f)).1
        = (if decide (v = "") then [] else http.Body res)
      ∧ modtime (fi f)
        = default (Now w') (ParseHTTP (http.Get (http.RespHeader res) "Last-Modified"))
      ∧ contentType (fi f)
        = match http.RespHeader res !! "Content-Type" with
          | Some (c :: _) => c
          | Some [] => ""
          | None =>
              if decide (TypeByExtension nm = "")
              then DetectContentType (take sniffLen (http.Body res))
              else TypeByExtension nm
          end
      ∧ readClone f
        = Ok {| ReadSeeker := bytes.NewReader (http.Body res); fi := fi f;
                buf := None |}.
Proof.
  intros Ho. destruct (remote_Open_blob fs nm w w' f Ho) as (res & HG & ->).
  exists res. split; [exact HG|]. cbn [fi fsize modtime contentType ReadSeeker].
  rewrite getETag_reader. clear Ho. split_and!.
  - destruct (decide (gostrings.Trim _ _ = "")); [apply Len_ReadAll|apply Len_NewReader].
  - destruct (decide (gostrings.Trim _ _ = "")); [apply ReadAll_twice|].
    rewrite ReadAll_NewReader. reflexivity.
  - unfold getModtime. destruct (ParseHTTP _); reflexivity.
  - reflexivity.
  - reflexivity.
Qed.

Lemma remote_blob_metadata_witness :
  fetchABC = (Ok blobABC, fetchABC.2)
  ∧ ∃ res,
      @Get exampleLib _ tableWorld_World "http://origin/abc" originABC
      = (inl res, fetchABC.2)
      ∧ readClone blobABC
        = Ok {| ReadSeeker := bytes.NewReader (http.Body res); fi := fi blobABC;
                buf := None |}.
Proof.
  assert (Hf : fetchABC = (Ok blobABC, fetchABC.2)) by (vm_compute; reflexivity).
  destruct (@remote_blob_metadata exampleLib _ tableWorld_World _ _ _ _ _ Hf)
    as (res & HG & _ & _ & _ & _ & Hcl).
  split; [exact Hf|]. exists res. split; [exact HG|exact Hcl].
Defined.

(** Through the cache the bytes of a fetched blob are the body the origin
    sent, with the blob's metadata, on the fetching call and on the hit
    that follows, which does not reach the origin. *)
Theorem cached_bytes_are_origin_bytes `{GoLib} {W : Type} `{!World W}
    (c : memoryCacheFilesystem) (rfs : remoteFileSystem) (nm : string)
    (w w' : W) (f : file) :
  cache_inv c →
  1 ≤ maxItems c →
  cache c !! nm = None →
  remote_Open rfs nm w = (Ok f, w') →
  ∃ res g,
    Get (origin rfs ++ nm)%string w = (inl res, w')
    ∧ Open nm (c, (rfs, w)) = (Ok g, ((add nm f c).2, (rfs, w')))
    ∧ bytes.ReadAll (ReadSeeker g) = (http.Body res, (bytes.ReadAll (ReadSeeker g)).2)
    ∧ fi g = fi f
    ∧ Open nm ((add nm f c).2, (rfs, w'))
      = (Ok g, (promote (newElement nm f c) (add nm f c).2, (rfs, w'))).
Proof.
  intros I HN Hmiss Ho.
  destruct (remote_Open_clone rfs nm w w' f Ho) as (res & HG & Hcl).
  exists res, {| ReadSeeker := bytes.NewReader (http.Body res); fi := fi f; buf := None |}.
  split; [exact HG|]. split_and!.
  - rewrite (Open_miss _ _ _ Hmiss). cbn [fsOpen remote_FileSystem fst snd].
    rewrite Ho. rewrite Hcl. reflexivity.
  - cbn [ReadSeeker]. apply ReadAll_NewReader.
  - reflexivity.
  - rewrite (Open_hit nm _ _ (newElement nm f c)) by (apply cache_add; assumption).
    cbn [newElement Value cfile]. rewrite Hcl. reflexivity.
Qed.

Lemma cached_bytes_are_origin_bytes_witness :
  1 ≤ maxItems (NewCache 50 (1024 * 1024 * 512))
  ∧ ∃ g, @Open _ (@remote_FileSystem exampleLib _ tableWorld_World) "/abc" gateway
         = (Ok g, ((add "/abc" blobABC (NewCache 50 (1024 * 1024 * 512))).2,
                   ({| origin := "http://origin" |}, fetchABC.2)))
         ∧ (bytes.ReadAll (ReadSeeker g)).1 = list_byte_of_string "abc".
Proof.
  assert (HN : 1 ≤ maxItems (NewCache 50 (1024 * 1024 * 512))) by (cbn; lia).
  split; [exact HN|].
  assert (Hf : @remote_Open exampleLib _ tableWorld_World {| origin := "http://origin" |}
                 "/abc" originABC = (Ok blobABC, fetchABC.2))
    by (vm_compute; reflexivity).
  destruct (@cached_bytes_are_origin_bytes exampleLib _ tableWorld_World
              (NewCache 50 (1024 * 1024 * 512)) {| origin := "http://origin" |}
              "/abc" originABC fetchABC.2 blobABC
              (cache_inv_NewCache _ _) HN eq_refl Hf)
    as (res & g & HG & Hop & Hrd & _).
  exists g. split; [exact Hop|].
  rewrite Hrd. cbn [fst].
  assert (Hres : @Get exampleLib _ tableWorld_World "http://origin/abc" originABC
                 = (inl (reply 200 3 ∅ "abc"), fetchABC.2)) by (vm_compute; reflexivity).
  change (origin {| origin := "http://origin" |} ++ "/abc")%string
    with "http://origin/abc" in HG.
  rewrite Hres in HG. injection HG as <-. reflexivity.
Defined.

(** ** A cache in front of a cache *)

Lemma readClone_buf (x g : file) : readClone x = Ok g → buf g = None.
Proof.
  unfold readClone. destruct (buf x); [|discriminate]. intros [= <-]. reflexivity.
Qed.

(** What a cache hands out is always a clone, which carries no [buf]; a
    second cache stacked on the first stores such a clone on a miss and
    then panics when it copies it.  The entry stays, so that every later
    [Open] of the key panics as well. *)
Theorem cache_over_cache_panics {Org : Type} `{!FileSystem Org}
    (outer : memoryCacheFilesystem) (inner inner' : memoryCacheFilesystem * Org)
    (nm : string) (g : file) :
  Open nm inner = (Ok g, inner') →
  buf g = None
  ∧ (cache outer !! nm = None →
     Open nm (outer, inner)
     = (Panic "copy a readClone", ((add nm g outer).2, inner')))
  ∧ (cache_inv outer → 1 ≤ maxItems outer →
     ∀ st : memoryCacheFilesystem * Org,
       Open nm ((add nm g outer).2, st)
       = (Panic "copy a readClone",
          (promote (newElement nm g outer) (add nm g outer).2, st))).
Proof.
  intros Ho.
  assert (Hb : buf g = None).
  { destruct inner as [fs o]. unfold Open in Ho.
    destruct (get nm fs) as [[r|] fs'] eqn:Eg.
    - unfold get in Eg. destruct (cache fs !! nm) as [ent|]; [|discriminate].
      injection Eg as <- <-. injection Ho as Hr _. eapply readClone_buf, Hr.
    - destruct (fsOpen nm o) as [[f|e|m] o']; try discriminate.
      rewrite add_stages in Ho. injection Ho as Hr _. eapply readClone_buf, Hr. }
  split; [exact Hb|]. split.
  - intros Hmiss. rewrite (Open_miss _ _ _ Hmiss). cbn [fsOpen cache_FileSystem].
    rewrite Ho. unfold readClone. rewrite Hb. reflexivity.
  - intros I HN st.
    rewrite (Open_hit nm _ st (newElement nm g outer)) by (apply cache_add; assumption).
    cbn [newElement Value cfile]. unfold readClone. rewrite Hb. reflexivity.
Qed.

Lemma cache_over_cache_panics_witness :
  Open "file1" (NewCache 2 64, fakeOrigin) = (Ok cloneOne, warmCache)
  ∧ Open "file1" (NewCache 2 64, (NewCache 2 64, fakeOrigin))
    = (Panic "copy a readClone", ((add "file1" cloneOne (NewCache 2 64)).2, warmCache)).
Proof.
  assert (Ho : Open "file1" (NewCache 2 64, fakeOrigin) = (Ok cloneOne, warmCache))
    by (vm_compute; reflexivity).
  split; [exact Ho|].
  destruct (cache_over_cache_panics (NewCache 2 64) _ _ _ _ Ho) as (_ & Hp & _).
  apply Hp. reflexivity.
Defined.

(** ** Reply headers of the serve layer *)

Lemma canon_content_type : http.CanonicalHeaderKey "Content-Type" = "Content-Type".
Proof. reflexivity. Qed.

(** When the open succeeds [serveFile] writes no status and no body of its
    own and hands the file to [http.ServeContent] under the blob's name
    and mtime.  A [Content-Type] already on the writer is kept.  The etag
    is looked for under the key [ETag], which [Header.Set] never writes:
    an [Etag] header set before is replaced by the blob's etag. *)
Theorem serveFile_headers {T : Type} `{!FileSystem T} (rw : ResponseWriter)
    (r : http.Request) (nm : string) (st st' : T) (g : file) :
  fsOpen nm st = (Ok g, st') →
  ∃ rw',
    serveFile rw r nm st = (ServeContent rw' (basename (fi g)) (modtime (fi g)) g, st')
    ∧ wStatus rw' = wStatus rw
    ∧ wBody rw' = wBody rw
    ∧ wHeader rw' !! "Content-Type"
      = match wHeader rw !! "Content-Type" with
        | Some v => Some v
        | None => if decide (contentType (fi g) = "") then None
                  else Some [contentType (fi g)]
        end
    ∧ (wHeader rw !! "ETag" = None →
       wHeader rw' !! "Etag"
       = if decide (etag (fi g) = "") then wHeader rw !! "Etag"
         else Some [etag (fi g)])
    ∧ (is_Some (wHeader rw !! "ETag") → wHeader rw' !! "Etag" = wHeader rw !! "Etag")
    ∧ ∀ k, k ≠ "Content-Type" → k ≠ "Etag" → wHeader rw' !! k = wHeader rw !! k.
Proof.
  intros E. unfold serveFile. rewrite E. cbn [Stat].
  set (w1 := match wHeader rw !! "Content-Type" with
             | Some _ => rw
             | None => if decide (contentType (fi g) ≠ "")
                       then setHeader rw "Content-Type" (contentType (fi g)) else rw
             end).
  assert (H1 : wStatus w1 = wStatus rw ∧ wBody w1 = wBody rw
               ∧ wHeader w1 !! "Content-Type"
                 = match wHeader rw !! "Content-Type" with
                   | Some v => Some v
                   | None => if decide (contentType (fi g) = "") then None
                             else Some [contentType (fi g)]
                   end
               ∧ ∀ k, k ≠ "Content-Type" → wHeader w1 !! k = wHeader rw !! k).
  { unfold w1. destruct (wHeader rw !! "Content-Type") as [v|] eqn:Ec.
    - split_and!; try reflexivity. exact Ec.
    - destruct (decide (contentType (fi g) ≠ "")) as [Hc|Hc].
      + split_and!; try reflexivity.
        * cbn. unfold http.Set_. rewrite canon_content_type, lookup_insert_eq.
          rewrite decide_False by exact Hc. reflexivity.
        * intros k Hk. cbn. unfold http.Set_. rewrite canon_content_type.
          apply lookup_insert_ne. congruence.
      + split_and!; try reflexivity.
        rewrite decide_True; [exact Ec|].
        destruct (decide (contentType (fi g) = "")); [assumption|contradiction]. }
  destruct H1 as (Hs1 & Hb1 & Hct1 & Hk1).
  assert (Hne1 : "ETag" ≠ "Content-Type") by discriminate.
  assert (Hne2 : "Etag" ≠ "Content-Type") by discriminate.
  eexists. split; [reflexivity|].
  rewrite (Hk1 "ETag" Hne1).
  destruct (wHeader rw !! "ETag") as [v|] eqn:Ee.
  - split_and!; try assumption.
    + intros; discriminate.
    + intros _. apply Hk1, Hne2.
    + intros k Hk _. apply Hk1, Hk.
  - destruct (decide (etag (fi g) ≠ "")) as [Ht|Ht].
    + cbn [setHeader wStatus wBody wHeader]. unfold http.Set_. rewrite canon_etag.
      split_and!; try assumption.
      * rewrite lookup_insert_ne by congruence. exact Hct1.
      * intros _. rewrite lookup_insert_eq, decide_False by exact Ht. reflexivity.
      * intros [? ?]; discriminate.
      * intros k Hk Hk'. rewrite lookup_insert_ne by congruence. apply Hk1, Hk.
    + split_and!; try assumption.
      * intros _. rewrite decide_True; [apply Hk1, Hne2|].
        destruct (decide (etag (fi g) = "")); [assumption|contradiction].
      * intros [? ?]; discriminate.
      * intros k Hk _. apply Hk1, Hk.
Qed.

Lemma serveFile_headers_witness :
  ∃ rw',
    serveFile (setHeader newResponseWriter "ETag" "stale") (getRequest "file1") "file1"
      (NewCache 2 64, fakeOrigin)
    = (ServeContent rw' "file1" testModtime cloneOne, warmCache)
    ∧ wHeader rw' !! "Etag" = Some ["tag"].
Proof.
  assert (Ho : @fsOpen _ cache_FileSystem "file1" (NewCache 2 64, fakeOrigin)
               = (Ok cloneOne, warmCache)) by (vm_compute; reflexivity).
  destruct (serveFile_headers (setHeader newResponseWriter "ETag" "stale")
              (getRequest "file1") "file1" _ _ _ Ho)
    as (rw' & Hs & _ & _ & _ & He & _).
  exists rw'. split; [exact Hs|].
  rewrite He by (vm_compute; reflexivity). reflexivity.
Defined.

(** ** Names handed to the file system by the file handler *)

(** The table of the standard library's own test of [path.Clean]. *)
Example Clean_vectors :
  gopath.Clean "" = "." ∧ gopath.Clean "abc" = "abc"
  ∧ gopath.Clean "abc/def" = "abc/def" ∧ gopath.Clean "a/b/c" = "a/b/c"
  ∧ gopath.Clean "." = "." ∧ gopath.Clean ".." = ".."
  ∧ gopath.Clean "../.." = "../.." ∧ gopath.Clean "../../abc" = "../../abc"
  ∧ gopath.Clean "/abc" = "/abc" ∧ gopath.Clean "/" = "/"
  ∧ gopath.Clean "abc/" = "abc" ∧ gopath.Clean "abc/def/" = "abc/def"
  ∧ gopath.Clean "a/b/c/" = "a/b/c" ∧ gopath.Clean "./" = "."
  ∧ gopath.Clean "../" = ".." ∧ gopath.Clean "../../" = "../.."
  ∧ gopath.Clean "/abc/" = "/abc"
  ∧ gopath.Clean "abc//def//ghi" = "abc/def/ghi" ∧ gopath.Clean "//abc" = "/abc"
  ∧ gopath.Clean "///abc" = "/abc" ∧ gopath.Clean "//abc//" = "/abc"
  ∧ gopath.Clean "abc//" = "abc"
  ∧ gopath.Clean "abc/./def" = "abc/def" ∧ gopath.Clean "/./abc/def" = "/abc/def"
  ∧ gopath.Clean "abc/." = "abc"
  ∧ gopath.Clean "abc/def/ghi/../jkl" = "abc/def/jkl"
  ∧ gopath.Clean "abc/def/../ghi/../jkl" = "abc/jkl"
  ∧ gopath.Clean "abc/def/.." = "abc" ∧ gopath.Clean "abc/def/../.." = "."
  ∧ gopath.Clean "/abc/def/../.." = "/" ∧ gopath.Clean "abc/def/../../.." = ".."
  ∧ gopath.Clean "/abc/def/../../.." = "/"
  ∧ gopath.Clean "abc/def/../../../ghi/jkl/../../../mno" = "../../mno"
  ∧ gopath.Clean "abc/./../def" = "def" ∧ gopath.Clean "abc//./../def" = "def"
  ∧ gopath.Clean "abc/../../././../def" = "../../def".
Proof. vm_compute. split_and!; reflexivity. Qed.

Lemma split_noSlash (s : string) : Forall (λ c, gopath.noSlash c = true) (gopath.split s).
Proof.
  induction s as [|c s IH]; cbn [gopath.split].
  - repeat constructor.
  - destruct (Ascii.eqb c "/") eqn:E.
    + constructor; [reflexivity|exact IH].
    + destruct (gopath.split s) as [|h t].
      * repeat constructor. cbn. rewrite E. reflexivity.
      * inversion IH; subst. constructor; [|assumption].
        cbn. rewrite E. assumption.
Qed.

Lemma append_cons (a : ascii) (c s : string) :
  (String a c ++ s)%string = String a (c ++ s)%string.
Proof. reflexivity. Qed.

Lemma split_app (c s : string) :
  gopath.noSlash c = true →
  gopath.split (c ++ s)%string
  = match gopath.split s with
    | h :: t => (c ++ h)%string :: t
    | [] => [c]
    end.
Proof.
  induction c as [|a c IH]; intros Hc.
  - change (gopath.split s = match gopath.split s with
                              | h :: t => h :: t
                              | [] => [""%string]
                              end).
    destruct (gopath.split s) eqn:E; [|reflexivity].
    destruct s; cbn in E; [discriminate|].
    destruct (Ascii.eqb _ _); [discriminate|]. destruct (gopath.split s); discriminate.
  - cbn in Hc. apply andb_true_iff in Hc as [Ha Hc]. apply negb_true_iff in Ha.
    rewrite append_cons. cbn [gopath.split]. rewrite Ha, (IH Hc).
    destruct (gopath.split s); reflexivity.
Qed.

Lemma append_empty_r (c : string) : (c ++ "")%string = c.
Proof. induction c as [|a c IH]; [reflexivity|]. rewrite append_cons, IH. reflexivity. Qed.

Lemma split_join (cs : list string) :
  Forall (λ c, gopath.noSlash c = true) cs →
  gopath.split (gopath.join cs)
  = match cs with [] => [""%string] | _ :: _ => ""%string :: cs end.
Proof.
  induction cs as [|c cs IH]; intros Hcs; [reflexivity|].
  inversion Hcs as [|? ? Hc Hcs']; subst.
  cbn [gopath.join]. change ("/" ++ c ++ gopath.join cs)%string
    with (String "/" (c ++ gopath.join cs)).
  cbn [gopath.split]. rewrite Ascii.eqb_refl. f_equal.
  rewrite (split_app c _ Hc), (IH Hcs').
  destruct cs; rewrite append_empty_r; reflexivity.
Qed.

Lemma step_real (st : list string) (c : string) :
  Forall gopath.real st → gopath.noSlash c = true →
  Forall gopath.real (gopath.step true st c).
Proof.
  intros Hst Hc. unfold gopath.step.
  destruct (decide (c = ""%string ∨ c = "."%string)) as [|Hn]; [exact Hst|].
  destruct (decide (c = ".."%string)) as [|Hd].
  - destruct st; [constructor|]. inversion Hst; assumption.
  - constructor; [|exact Hst]. unfold gopath.real. split_and!; try assumption.
    + intros ->. apply Hn. left. reflexivity.
    + intros ->. apply Hn. right. reflexivity.
Qed.

Lemma foldl_step_real (cs st : list string) :
  Forall (λ c, gopath.noSlash c = true) cs → Forall gopath.real st →
  Forall gopath.real (foldl (gopath.step true) st cs).
Proof.
  revert st. induction cs as [|c cs IH]; intros st Hcs Hst; [exact Hst|].
  inversion Hcs; subst. cbn [foldl]. apply IH; [assumption|].
  apply step_real; assumption.
Qed.

Lemma foldl_step_keep (cs st : list string) :
  Forall gopath.real cs → foldl (gopath.step true) st cs = rev cs ++ st.
Proof.
  revert st. induction cs as [|c cs IH]; intros st Hcs; [reflexivity|].
  inversion Hcs as [|? ? (Hs & H1 & H2 & H3) Hcs']; subst. cbn [foldl rev].
  unfold gopath.step at 2.
  rewrite decide_False by (intros [?|?]; contradiction).
  rewrite decide_False by assumption.
  rewrite (IH _ Hcs'), <- app_assoc. reflexivity.
Qed.

Lemma Forall_real_noSlash (cs : list string) :
  Forall gopath.real cs → Forall (λ c, gopath.noSlash c = true) cs.
Proof. intros Hcs. eapply Forall_impl; [exact Hcs|]. intros c Hc. apply Hc. Qed.

Lemma Clean_rooted (p : string) :
  ∃ cs, Forall gopath.real cs
        ∧ gopath.Clean (String "/" p)
          = match cs with [] => "/"%string | _ :: _ => gopath.join cs end.
Proof.
  exists (rev (foldl (gopath.step true) [] (gopath.split (String "/" p)))).
  split.
  - apply Forall_rev, foldl_step_real; [apply split_noSlash|constructor].
  - unfold gopath.Clean. rewrite Ascii.eqb_refl.
    destruct (rev _); reflexivity.
Qed.

Lemma Clean_join (cs : list string) :
  Forall gopath.real cs →
  gopath.Clean (match cs with [] => "/"%string | _ :: _ => gopath.join cs end)
  = match cs with [] => "/"%string | _ :: _ => gopath.join cs end.
Proof.
  intros Hcs. destruct cs as [|c cs]; [reflexivity|].
  pose proof (split_join (c :: cs) (Forall_real_noSlash _ Hcs)) as Hsp.
  cbn [gopath.join] in *.
  change ("/" ++ c ++ gopath.join cs)%string with (String "/" (c ++ gopath.join cs)) in *.
  unfold gopath.Clean. rewrite Ascii.eqb_refl, Hsp.
  change (foldl (gopath.step true) [] (""%string :: c :: cs))
    with (foldl (gopath.step true) [] (c :: cs)).
  rewrite (foldl_step_keep _ _ Hcs), app_nil_r, rev_involutive. reflexivity.
Qed.

Lemma prefix_slash (s : string) :
  String.prefix "/" s = true → ∃ rest, s = String "/" rest.
Proof.
  destruct s as [|a s]; [discriminate|].
  unfold String.prefix. destruct (ascii_dec _ a) as [E|E]; [|discriminate].
  subst a. eauto.
Qed.

(** Whatever the request, the name the file handler passes on is a clean
    rooted path: it starts with a slash, holds no empty, [.] or [..]
    element, and cleaning it again changes nothing.  The query string is
    appended before the path is cleaned, so it is part of the name. *)
Theorem ServeHTTP_name {T : Type} `{!FileSystem T} (rw : ResponseWriter)
    (r : http.Request) (st : T) :
  ∃ (key : string) (r' : http.Request) (cs : list string),
    ServeHTTP rw r st = serveFile rw r' key st
    ∧ key = match cs with [] => "/"%string | _ :: _ => gopath.join cs end
    ∧ Forall gopath.real cs
    ∧ gopath.Clean key = key
    ∧ (∃ rest, key = String "/" rest)
    ∧ http.URL r'
      = (if String.prefix "/" (http.URL r) then http.URL r
         else ("/" ++ http.URL r)%string)
    ∧ key = gopath.Clean
              (if decide (http.RawQuery r ≠ ""%string)
               then (http.URL r' ++ "?" ++ http.RawQuery r)%string
               else http.URL r').
Proof.
  unfold ServeHTTP.
  set (r1 := {| http.Method := http.Method r; http.URL := ("/" ++ http.URL r)%string;
                http.ReqHeader := http.ReqHeader r; http.RawQuery := http.RawQuery r;
                http.RemoteAddr := http.RemoteAddr r |}).
  set (r' := if String.prefix "/" (http.URL r) then r else r1).
  assert (Hq : http.RawQuery r' = http.RawQuery r)
    by (unfold r'; destruct (String.prefix _ _); reflexivity).
  assert (Hu : http.URL r' = (if String.prefix "/" (http.URL r) then http.URL r
                              else ("/" ++ http.URL r)%string))
    by (unfold r'; destruct (String.prefix _ _); reflexivity).
  assert (Hroot : ∃ rest, http.URL r' = String "/" rest).
  { rewrite Hu. destruct (String.prefix "/" (http.URL r)) eqn:E.
    - apply prefix_slash, E.
    - eexists. reflexivity. }
  set (upath := if decide (http.RawQuery r ≠ ""%string)
                then (http.URL r' ++ "?" ++ http.RawQuery r)%string
                else http.URL r').
  assert (Hup : ∃ rest, upath = String "/" rest).
  { destruct Hroot as [rest Hrest]. unfold upath. rewrite Hrest.
    destruct (decide _); eexists; reflexivity. }
  destruct Hup as [rest Hrest].
  destruct (Clean_rooted rest) as (cs & Hcs & Hclean).
  exists (gopath.Clean upath), r', cs.
  split_and!.
  - unfold upath, r'. destruct (String.prefix "/" (http.URL r)); reflexivity.
  - rewrite Hrest. exact Hclean.
  - exact Hcs.
  - rewrite Hrest, Hclean. apply Clean_join, Hcs.
  - rewrite Hrest, Hclean. destruct cs; eexists; reflexivity.
  - exact Hu.
  - reflexivity.
Qed.

(** ** The byte budget *)

Lemma get_withMaxSize (m : Z) (nm : string) (fs : memoryCacheFilesystem) :
  get nm (withMaxSize m fs) = ((get nm fs).1, withMaxSize m (get nm fs).2).
Proof. unfold get. cbn. destruct (cache fs !! nm); reflexivity. Qed.

Lemma removeElement_withMaxSize (m : Z) (ent : Element) (fs : memoryCacheFilesystem) :
  removeElement ent (withMaxSize m fs) = withMaxSize m (removeElement ent fs).
Proof. reflexivity. Qed.

Lemma add_withMaxSize (m : Z) (nm : string) (f : file) (fs : memoryCacheFilesystem) :
  add nm f (withMaxSize m fs) = ((add nm f fs).1, withMaxSize m (add nm f fs).2).
Proof.
  rewrite !add_stages. cbn [fst snd]. f_equal.
  assert (H1 : dropExisting nm (withMaxSize m fs) = withMaxSize m (dropExisting nm fs)).
  { unfold dropExisting. cbn. destruct (cache fs !! nm); reflexivity. }
  rewrite H1.
  assert (H2 : ∀ x, pushEntry nm f (withMaxSize m x) = withMaxSize m (pushEntry nm f x))
    by reflexivity.
  rewrite H2.
  assert (H3 : ∀ x, evictIfOver (withMaxSize m x) = withMaxSize m (evictIfOver x)).
  { intros x. unfold evictIfOver, removeOldest. cbn.
    destruct (maxItems x <? Len (evictList x)); [|reflexivity].
    destruct (Back (evictList x)); reflexivity. }
  rewrite H3. reflexivity.
Qed.

Lemma del_withMaxSize (m : Z) (nm : string) (fs : memoryCacheFilesystem) :
  del nm (withMaxSize m fs) = ((del nm fs).1, withMaxSize m (del nm fs).2).
Proof. unfold del. cbn. destruct (cache fs !! nm); reflexivity. Qed.

Section budget.
Context {Org : Type} `{!FileSystem Org}.

Lemma Open_withMaxSize (m : Z) (nm : string) (fs : memoryCacheFilesystem) (o : Org) :
  Open nm (withMaxSize m fs, o)
  = ((Open nm (fs, o)).1, (withMaxSize m (Open nm (fs, o)).2.1, (Open nm (fs, o)).2.2)).
Proof.
  unfold Open. rewrite get_withMaxSize.
  destruct (get nm fs) as [[r|] fs']; cbn [fst snd]; [reflexivity|].
  destruct (fsOpen nm o) as [[f|e|msg] o']; try reflexivity.
  rewrite add_withMaxSize. destruct (add nm f fs). reflexivity.
Qed.

Lemma runEvents_withMaxSize (m : Z) (evs : list event) (fs : memoryCacheFilesystem)
    (o : Org) :
  runEvents evs (withMaxSize m fs, o)
  = (withMaxSize m (runEvents evs (fs, o)).1, (runEvents evs (fs, o)).2).
Proof.
  revert fs o. induction evs as [|ev evs IH]; intros fs o; [reflexivity|].
  cbn [runEvents foldl]. fold (runEvents evs).
  assert (Hstep : runEvent (withMaxSize m fs, o) ev
                  = (withMaxSize m (runEvent (fs, o) ev).1, (runEvent (fs, o) ev).2)).
  { destruct ev as [nm|nm f|nm]; cbn [runEvent fst snd].
    - rewrite Open_withMaxSize. reflexivity.
    - rewrite add_withMaxSize. reflexivity.
    - unfold delfn. rewrite del_withMaxSize. reflexivity. }
  unfold runEvents in *. rewrite Hstep.
  destruct (runEvent (fs, o) ev) as [fs1 o1]. apply IH.
Qed.

End budget.

(** The byte budget [maxSize] is stored and never consulted: two caches
    that differ only in it go through the same states and give the same
    answers, whatever the sizes of the files. *)
Theorem max_size_not_enforced {Org : Type} `{!FileSystem Org}
    (N M M' : Z) (o : Org) (evs : list event) (nm : string) :
  let a := runEvents evs (NewCache N M, o) in
  let b := runEvents evs (NewCache N M', o) in
  b = (withMaxSize (wrap64 M') a.1, a.2)
  ∧ maxSize a.1 = wrap64 M
  ∧ (Open nm b).1 = (Open nm a).1
  ∧ (Open nm b).2.2 = (Open nm a).2.2.
Proof.
  intros a b.
  assert (Hb : b = (withMaxSize (wrap64 M') a.1, a.2)).
  { unfold b, a. rewrite <- runEvents_withMaxSize. reflexivity. }
  split; [exact Hb|]. split.
  - unfold a. pose proof (runEvents_withMaxSize (wrap64 M) evs (NewCache N M) o) as E.
    change (withMaxSize (wrap64 M) (NewCache N M)) with (NewCache N M) in E.
    rewrite E at 1. reflexivity.
  - rewrite Hb. destruct a as [fs1 o1]. cbn [fst snd].
    rewrite Open_withMaxSize. split; reflexivity.
Qed.

(** ** Cache and invalidator together *)

Lemma core_foldStep (st : runLocal * memoryCacheFilesystem) :
  core (foldStep st).2 = core st.2.
Proof.
  unfold foldStep, core. cbn [snd setInvalidator evictList cache size maxItems invalidator].
  f_equal. unfold foldDeltas. destruct (decide _); [|reflexivity].
  destruct (foldRemoved _ _) as [its1 rem]. destruct (foldAdded _ _ _) as [its2 ad].
  reflexivity.
Qed.

Lemma core_folds (n : nat) (st : runLocal * memoryCacheFilesystem) :
  core (Nat.iter n foldStep st).2 = core st.2.
Proof.
  induction n as [|n IH]; [reflexivity|].
  cbn [Nat.iter nat_rect]. rewrite core_foldStep. exact IH.
Qed.

Lemma core_removeElement (ent : Element) (a b : memoryCacheFilesystem) :
  core a = core b → core (removeElement ent a) = core (removeElement ent b).
Proof.
  unfold core. intros [= He Hc Hs Hm Hi]. cbn. rewrite He, Hc, Hs, Hm, Hi. reflexivity.
Qed.

Lemma core_dropExisting (nm : string) (a b : memoryCacheFilesystem) :
  core a = core b → core (dropExisting nm a) = core (dropExisting nm b).
Proof.
  intros H. unfold dropExisting.
  assert (Hc : cache a = cache b) by (unfold core in H; congruence).
  rewrite Hc. destruct (cache b !! nm); [apply core_removeElement|]; exact H.
Qed.

Lemma core_pushEntry (nm : string) (f : file) (a b : memoryCacheFilesystem) :
  core a = core b → core (pushEntry nm f a) = core (pushEntry nm f b).
Proof.
  unfold core. intros [= He Hc Hs Hm Hi]. cbn. unfold newElement.
  rewrite He, Hc, Hs, Hm, Hi. reflexivity.
Qed.

Lemma core_evictIfOver (a b : memoryCacheFilesystem) :
  core a = core b → core (evictIfOver a) = core (evictIfOver b).
Proof.
  intros H. unfold evictIfOver, removeOldest.
  assert (He : evictList a = evictList b) by (unfold core in H; congruence).
  assert (Hm : maxItems a = maxItems b) by (unfold core in H; congruence).
  rewrite He, Hm. destruct (_ <? _); [|exact H].
  destruct (Back _); [apply core_removeElement|]; exact H.
Qed.

Lemma core_register (nm : string) (f : file) (a b : memoryCacheFilesystem) :
  core a = core b → core (register nm f a) = core (register nm f b).
Proof.
  unfold core. intros [= He Hc Hs Hm Hi]. cbn. rewrite He, Hc, Hs, Hm, Hi. reflexivity.
Qed.

(** Folds inside [add] change nothing of what the cache holds. *)
Lemma core_addWith (n1 n2 : nat) (nm : string) (f : file) (loc : runLocal)
    (fs : memoryCacheFilesystem) :
  core (addWith n1 n2 nm f (loc, fs)).2.2 = core (add nm f fs).2.
Proof.
  rewrite add_stages. unfold addWith. cbn [fst snd].
  apply core_register.
  rewrite core_folds. cbn [snd]. apply core_evictIfOver, core_pushEntry.
  rewrite core_folds. reflexivity.
Qed.

Lemma addWith_no_folds (nm : string) (f : file) (loc : runLocal)
    (fs : memoryCacheFilesystem) :
  addWith 0 0 nm f (loc, fs) = ((add nm f fs).1, (loc, (add nm f fs).2)).
Proof. rewrite add_stages. reflexivity. Qed.

Lemma good_core (N : Z) (a b : memoryCacheFilesystem) :
  core a = core b → good N a → good N b.
Proof.
  unfold core. intros [= He Hc Hs Hm Hi] (I & Hso & HM & HL).
  split_and!.
  - destruct I as [i1 i2 i3 i4]. constructor; rewrite <- ?He, <- ?Hc; assumption.
  - unfold size_ok in *. rewrite <- He, <- Hs. exact Hso.
  - congruence.
  - rewrite <- He. exact HL.
Qed.

Lemma mirrors_core (a b : memoryCacheFilesystem) :
  core a = core b → mirrors a → mirrors b.
Proof.
  unfold core, mirrors. intros [= He Hc Hs Hm Hi] H k. rewrite <- Hc, <- Hi. apply H.
Qed.

Lemma synced_folds (n : nat) (st : runLocal * memoryCacheFilesystem) :
  synced st.1 (invalidator st.2) →
  synced (Nat.iter n foldStep st).1 (invalidator (Nat.iter n foldStep st).2).
Proof.
  intros J. induction n as [|n IH]; [exact J|].
  cbn [Nat.iter nat_rect]. unfold foldStep at 1 2.
  cbn [fst snd setInvalidator invalidator]. apply synced_fold, IH.
Qed.

Lemma synced_addWith (n1 n2 : nat) (nm : string) (f : file) (loc : runLocal)
    (fs : memoryCacheFilesystem) :
  synced loc (invalidator fs) →
  synced (addWith n1 n2 nm f (loc, fs)).2.1
         (invalidator (addWith n1 n2 nm f (loc, fs)).2.2).
Proof.
  intros J. unfold addWith. cbn [fst snd register setInvalidator invalidator].
  apply synced_Add.
  apply (synced_folds n2 (_, _)). cbn [fst snd].
  assert (Hev : ∀ l x, synced l (invalidator x) → synced l (invalidator (evictIfOver x))).
  { intros l x Jx. unfold evictIfOver. destruct (_ <? _); [|exact Jx].
    unfold removeOldest. destruct (Back _); [apply synced_Del|]; exact Jx. }
  apply Hev. cbn [pushEntry invalidator].
  apply (synced_folds n1 (_, _)). cbn [fst snd].
  unfold dropExisting. destruct (cache fs !! nm); [apply synced_Del|]; exact J.
Qed.

Lemma synced_del (loc : runLocal) (nm : string) (fs : memoryCacheFilesystem) :
  synced loc (invalidator fs) → synced loc (invalidator (del nm fs).2).
Proof.
  intros J. unfold del. destruct (cache fs !! nm); [apply synced_Del|]; exact J.
Qed.

Section system.
Context {Org : Type} `{!FileSystem Org}.

Lemma sysRun_snoc (es : list sysEvent) (e : sysEvent)
    (st : runLocal * (memoryCacheFilesystem * Org)) :
  sysRun (es ++ [e]) st = sysStep (sysRun es st) e.
Proof. unfold sysRun. rewrite foldl_app. reflexivity. Qed.

Lemma sysStep_inv (N : Z) (st : runLocal * (memoryCacheFilesystem * Org))
    (e : sysEvent) :
  1 ≤ N →
  good N st.2.1 ∧ mirrors st.2.1 ∧ synced st.1 (invalidator st.2.1) →
  good N (sysStep st e).2.1 ∧ mirrors (sysStep st e).2.1
  ∧ synced (sysStep st e).1 (invalidator (sysStep st e).2.1).
Proof.
  intros HN (G & Hm & J). destruct st as [loc [fs o]]. cbn [fst snd] in *.
  assert (Hadd : ∀ n1 n2 nm f,
             good N (addWith n1 n2 nm f (loc, fs)).2.2
             ∧ mirrors (addWith n1 n2 nm f (loc, fs)).2.2
             ∧ synced (addWith n1 n2 nm f (loc, fs)).2.1
                      (invalidator (addWith n1 n2 nm f (loc, fs)).2.2)).
  { intros n1 n2 nm f. pose proof (core_addWith n1 n2 nm f loc fs) as Hc.
    split_and!.
    - apply (good_core N _ _ (eq_sym Hc)), good_add, G.
    - apply (mirrors_core _ _ (eq_sym Hc)), mirrors_add; [apply G| |exact Hm].
      destruct G as (_ & _ & -> & _). exact HN.
    - apply synced_addWith, J. }
  destruct e as [nm n1 n2|nm f n1 n2|nm|]; cbn [sysStep fst snd].
  - destruct (cache fs !! nm) as [ent|] eqn:E.
    + rewrite (get_hit _ _ _ E). cbn [fst snd].
      pose proof (good_get N nm fs G) as Gg. pose proof (mirrors_get nm fs Hm) as Mg.
      rewrite (get_hit _ _ _ E) in Gg, Mg. cbn [snd] in Gg, Mg.
      split_and!; [exact Gg|exact Mg|exact J].
    + rewrite (get_miss _ _ E).
      destruct (fsOpen nm o) as [[f|e|m] o']; cbn [fst snd];
        [apply Hadd|split_and!; assumption|split_and!; assumption].
  - apply Hadd.
  - split_and!.
    + apply good_del, G.
    + apply mirrors_del, Hm.
    + apply synced_del, J.
  - pose proof (core_foldStep (loc, fs)) as Hc. cbn [snd] in Hc.
    split_and!.
    + apply (good_core N _ _ (eq_sym Hc)), G.
    + apply (mirrors_core _ _ (eq_sym Hc)), Hm.
    + unfold foldStep. cbn [fst snd setInvalidator invalidator].
      apply synced_fold, J.
Qed.

Lemma sysRun_inv (N M : Z) (o : Org) (es : list sysEvent) :
  1 ≤ N →
  let st := sysRun es (runInit, (NewCache N M, o)) in
  good N st.2.1 ∧ mirrors st.2.1 ∧ synced st.1 (invalidator st.2.1).
Proof.
  intros HN. induction es as [|e es IH] using rev_ind.
  - cbn. split_and!.
    + apply good_NewCache.
    + intros k. reflexivity.
    + exact synced_init.
  - cbn zeta in *. rewrite sysRun_snoc. apply (sysStep_inv N); assumption.
Qed.

End system.

(** In every execution of a cache with capacity at least one and its
    invalidator, with folds between the operations of the cache and
    inside [add] between its calls of [Del] and [Add]: the snapshot of a
    fold that is taken between two operations of the cache holds every
    cached entry with that entry's metadata; any other key of the snapshot
    is mapped to the zero record. *)
Theorem cached_entries_are_in_snapshot {Org : Type} `{!FileSystem Org}
    (N M : Z) (o : Org) (es : list sysEvent) (k : string) :
  1 ≤ N →
  let st := sysRun es (runInit, (NewCache N M, o)) in
  lastmod (invalidator st.2.1) ≠ l_lastmod st.1 →
  let loc' := (sysStep st SFold).1 in
  (∀ e, cache st.2.1 !! k = Some e → l_items loc' !! k = Some (info e))
  ∧ (cache st.2.1 !! k = None →
     l_items loc' !! k = None ∨ l_items loc' !! k = Some zeroFileInfo).
Proof.
  intros HN st Hne loc'.
  destruct (sysRun_inv N M o es HN) as (_ & Hm & J). fold st in Hm, J.
  pose proof (fold_agrees st.1 (invalidator st.2.1) k J Hne) as Hag.
  unfold loc'. cbn [sysStep foldStep fst snd]. unfold agrees in Hag.
  rewrite (Hm k) in Hag. split.
  - intros e E. rewrite E in Hag. cbn in Hag.
    destruct Hag as [Hag|[Hag _]]; [exact Hag|discriminate].
  - intros E. rewrite E in Hag. cbn in Hag.
    destruct Hag as [Hag|[_ Hag]]; [left|right]; exact Hag.
Qed.

Lemma cached_entries_are_in_snapshot_witness :
  1 ≤ 2
  ∧ l_items (sysStep (sysRun [SOpen "file1" 1 1; SFold; SOpen "file2" 0 1]
                        (runInit, (NewCache 2 64, fakeOrigin3))) SFold).1 !! "file2"
    = Some (fi (newFile "file2")).
Proof.
  split; [lia|].
  destruct (cached_entries_are_in_snapshot 2 64 fakeOrigin3
              [SOpen "file1" 1 1; SFold; SOpen "file2" 0 1] "file2") as [H1 _].
  - lia.
  - vm_compute. discriminate.
  - apply (H1 {| eid := 1; Value := {| cfile := newFile "file2"; name := "file2" |} |}).
    vm_compute. reflexivity.
Defined.

(** ** From the fetch to the probe *)

(** A blob built by the origin client is probed at the URL it was fetched
    from: the URL is one [http.NewRequest] accepts, so [check] always puts
    the HEAD request on the wire, and the request carries the blob's etag
    and the HTTP date of its mtime. *)
Theorem probe_targets_fetched_url `{GoLib} {W : Type} `{!World W}
    (fs : remoteFileSystem) (nm : string) (w w' : W) (f : file) :
  remote_Open fs nm w = (Ok f, w') →
  urlParses (Name (fi f)) = true
  ∧ http.Method (headRequest (fi f)) = "HEAD"%string
  ∧ http.URL (headRequest (fi f)) = (origin fs ++ nm)%string
  ∧ (∃ res,
       Get (origin fs ++ nm)%string w = (inl res, w')
       ∧ http.ReqHeader (headRequest (fi f)) !! "If-None-Match"%string
         = Some [let v := gostrings.Trim (http.Get (http.RespHeader res) "Etag") dquote in
                 if decide (v = ""%string)
                 then hex.EncodeToString (md5.Sum (http.Body res)) else v]
       ∧ http.ReqHeader (headRequest (fi f)) !! "If-Modified-Since"%string
         = Some [FormatHTTP
                   (default (Now w')
                      (ParseHTTP (http.Get (http.RespHeader res) "Last-Modified")))])
  ∧ ∀ w0 : W,
      ∃ uptodate err,
        check (fi f) w0
        = (uptodate, err,
           Sent (headRequest (fi f)) (replyOf (Do (headRequest (fi f)) w0).1),
           (Do (headRequest (fi f)) w0).2).
Proof.
  intros Ho.
  destruct (remote_Open_blob fs nm w w' f Ho) as (res & HG & Hf).
  assert (Hurl : urlParses (Name (fi f)) = true).
  { rewrite Hf. cbn [fi Name basename]. unfold Get, NewRequest in HG.
    destruct (urlParses (origin fs ++ nm)%string); [reflexivity|discriminate]. }
  destruct (headRequest_shape (fi f)) as (Hm & Hu & Hims & Hinm).
  split; [exact Hurl|]. split; [exact Hm|]. split.
  { rewrite Hu, Hf. reflexivity. }
  split.
  - exists res. split; [exact HG|]. split.
    + rewrite Hinm, Hf. cbn [fi etag]. rewrite getETag_NewReader. reflexivity.
    + rewrite Hims, Hf. cbn [fi modtime]. unfold getModtime.
      destruct (ParseHTTP _); reflexivity.
  - intros w0. destruct (check_sent (fi f) w0 Hurl) as (up & err & Hck & _).
    exists up, err. exact Hck.
Qed.

Lemma probe_targets_fetched_url_witness :
  fetchABC = (Ok blobABC, fetchABC.2)
  ∧ http.URL (@headRequest exampleLib (fi blobABC)) = "http://origin/abc"%string.
Proof.
  assert (Hf : fetchABC = (Ok blobABC, fetchABC.2)) by (vm_compute; reflexivity).
  split; [exact Hf|].
  destruct (@probe_targets_fetched_url exampleLib _ tableWorld_World _ _ _ _ _ Hf)
    as (_ & _ & Hu & _).
  exact Hu.
Defined.
